(** * SSE Auto Translator: editor add-on and animated stacked widget

    A shallow embedding of [src/addons.py] (the background import worker, the
    JSON export, the plugin based import and the slots wired up by
    [load_from_db]), of [src/widgets/stacked_widget.py] (the sliding methods
    and the slot that ends an animation) and of [src/widgets/stacked_bar.py]
    (the constructor and the two setters), followed by the properties of the
    import pipeline that the specification states and by further properties
    that the code has.

    Conventions of the embedding.
    - Python [int] is [Z]; [float] is IEEE binary64 as [spec_float] with the
      operations of the Standard Library's [SpecFloat].
    - A raised exception is the left injection of a sum ([res]); objects that
      the code mutates in place (the [String] records and the tree items of
      [editor.items]) are threaded through the loops explicitly, so that what
      was written before an exception is still there after it.
    - [dict] is stdpp's [gmap]; [editor.items] is iterated in insertion
      order and is a list of pairs.
    - Calls into the GUI toolkit and the emitted signals are recorded in a
      trace of [Event]s; logging and [print] are left out.
    - An [int] handed to the toolkit where it takes a C++ [double] (the
      values of a bar set) is converted to binary64, with [OverflowError]
      beyond its range. *)

From Stdlib Require Import ZArith String Ascii List Bool Lia.
From Stdlib Require Import Floats.SpecFloat.
From stdpp Require Import base option list gmap strings.

(** ** Python values and built-ins used by the code *)

Module Py.

(** The exception classes that the modelled code can raise. *)
Inductive Exn : Type :=
| FileNotFoundError
| JSONDecodeError
| UnpicklingError
| KeyError
| IndexError
| TypeError
| AttributeError
| ZeroDivisionError
| OverflowError
| ValueError.

(** A computation that returns or raises. *)
Abbreviation res := (sum Exn).

#[export] Instance res_ret : MRet res := fun A a => inr a.

#[export] Instance res_bind : MBind res := fun A B k m =>
  match m with
  | inl e => inl e
  | inr a => k a
  end.

Definition raise {A : Type} (e : Exn) : res A := inl e.

(** [s.endswith(suffix)]. *)
Fixpoint endswith (s suffix : string) : bool :=
  if String.eqb s suffix then true
  else match s with
       | EmptyString => false
       | String _ s' => endswith s' suffix
       end.

(** [needle in hay] for two [str]: the substring test. *)
Fixpoint str_contains (hay needle : string) : bool :=
  if String.prefix needle hay then true
  else match hay with
       | EmptyString => false
       | String _ hay' => str_contains hay' needle
       end.

(** [needle] occurs in [hay]: what the substring test decides. *)
Definition is_substring (needle hay : string) : Prop :=
  exists before after, hay = before +:+ needle +:+ after.

(** *** binary64 arithmetic *)

Definition prec : Z := 53.
Definition emax : Z := 1024.

(** [float(z)], exact for |z| <= 2^53 and rounded to nearest even beyond. *)
Definition float_of_int (z : Z) : spec_float :=
  binary_normalize prec emax z 0 false.

(** [a / b] on two [int]: true division.  CPython returns the quotient
    rounded to the nearest binary64; for operands up to 2^53, which the
    lengths of in-memory collections are, that is the binary64 quotient of
    the two converted operands. *)
Definition true_div (a b : Z) : res spec_float :=
  if Z.eqb b 0 then raise ZeroDivisionError
  else mret (SFdiv prec emax (float_of_int a) (float_of_int b)).

(** [x * n] for a [float] and an [int]. *)
Definition float_mul_int (x : spec_float) (n : Z) : spec_float :=
  SFmul prec emax x (float_of_int n).

(** [int(x)]: truncation towards zero. *)
Definition int_of_float (x : spec_float) : res Z :=
  match x with
  | S754_zero _ => mret 0%Z
  | S754_finite s m e =>
      let a := match e with
               | Z0 => Zpos m
               | Zpos p => Z.shiftl (Zpos m) (Zpos p)
               | Zneg p => Z.shiftr (Zpos m) (Zpos p)
               end in
      mret (if s then Z.opp a else a)
  | S754_infinity _ => raise OverflowError
  | S754_nan => raise ValueError
  end.

(** A zero, or a finite number whose mantissa is below [2 ^ D] and whose
    exponent is in [[L, E]]: neither infinite nor not a number. *)
Definition fin_bounded (D L E : Z) (x : spec_float) : Prop :=
  match x with
  | S754_zero _ => True
  | S754_finite _ m e => (Zpos m < 2 ^ D)%Z /\ (L <= e <= E)%Z
  | _ => False
  end.

End Py.

Export Py.

(** ** [utilities]: the string record *)

Module Utils.

(** Modelled from the spec: [utils.String.Status] is declared in the
    [utilities] package, which is not among the sources; the specification's
    data model lists its members. *)
Inductive Status : Type :=
| Untranslated
| TranslationIncomplete
| TranslationComplete.

#[export] Instance Status_eq_dec : EqDecision Status.
Proof. solve_decision. Defined.

(** Modelled from the spec: [utils.String], the record of one translatable
    string, with the attributes that [addons.py] reads and writes. *)
Record StringRecord : Type := mkString {
  editor_id : option string;
  form_id : option string;
  index : option Z;
  type : string;
  original_string : string;
  translated_string : string;
  status : Status
}.

#[export] Instance StringRecord_eq_dec : EqDecision StringRecord.
Proof. solve_decision. Defined.

(** [string.translated_string = t]. *)
Definition set_translated_string (t : string) (s : StringRecord) : StringRecord :=
  mkString (editor_id s) (form_id s) (index s) (type s)
           (original_string s) t (status s).

(** [string.status = st]. *)
Definition set_status (st : Status) (s : StringRecord) : StringRecord :=
  mkString (editor_id s) (form_id s) (index s) (type s)
           (original_string s) (translated_string s) st.

End Utils.

Export Utils.

(** ** [addons.py] *)

Module Addons.

(** *** Data that crosses the boundary of the module *)

(** A [QTreeWidgetItem], as far as the code touches it: the text of its
    columns. *)
Abbreviation TreeItem := (gmap nat string).

(** [tree_item.setText(column, text)]. *)
Definition setText (column : nat) (text : string) (tree_item : TreeItem) : TreeItem :=
  <[column := text]> tree_item.

(** One entry of [editor.items]: the row and the string object behind it.
    Every row has a string object of its own. *)
Abbreviation Item := (TreeItem * StringRecord)%type.

(** An object of a decoded JSON array: the four keys that the export writes,
    each of which a file written by another tool may lack.  The values are
    of the types that the export writes ([int] and [str]); a document of
    another shape counts as one that the decoder refuses. *)
Record JsonEntry : Type := mkJson {
  j_index : option Z;
  j_type : option string;
  j_original : option string;
  j_string : option string
}.

(** An object of an unpickled list: the attributes that the import reads,
    and whether the object is truthy (its class decides that, and the class
    is declared outside the sources). *)
Record LegacyEntry : Type := mkLegacy {
  l_truthy : bool;
  l_original_string : string;
  l_translated_string : string;
  l_status : Status
}.

(** A value of the dictionary that [load_data] builds. *)
Inductive Entry : Type :=
| JsonE (e : JsonEntry)
| LegacyE (e : LegacyEntry).

(** A file, by what the two decoders make of its bytes: the value of
    [json.load(file)] and of [pickle.load(file)], or what they raise. *)
Record File : Type := mkFile {
  json_load : res (list JsonEntry);
  pickle_load : res (list LegacyEntry)
}.

(** The files that exist, by path. *)
Abbreviation FileSystem := (gmap string File).

(** What [Plugin(path).extract_strings()] returns or raises, by plugin
    file; the parser is outside the sources. *)
Abbreviation Plugins := (gmap string (res (list StringRecord))).

(** The object carried by the [result] signal. *)
Inductive Payload : Type :=
| PStr (s : string)
| PDict (d : gmap string Entry).

(** [WorkerSignals]. *)
Inductive Signal : Type :=
| SigFinished
| SigError (e : Exn)
| SigResult (obj : Payload)
| SigProgress (p : Z).

(** What the code does to the world besides the items: the signals it emits
    and the calls it makes on the editor and on the progress dialog. *)
Inductive Event : Type :=
| Emit (s : Signal)
| UpdateStringList
| ChangesSignal
| DialogSetValue (v : Z)
| DialogClose
| SlotRaised (e : Exn).

(** *** Loops over [editor.items]

    [for_each body st items] runs [body] on the items in order.  The body
    gives the item as it leaves it, what it emitted, and either the loop
    state for the next iteration or the exception that ends the loop; the
    items after a raising one are left as they were. *)
Section Loop.
Context {A S : Type}.
Variable body : S -> A -> A * list Event * res S.

Fixpoint for_each (st : S) (l : list A) : list A * list Event * res S :=
  match l with
  | [] => ([], [], inr st)
  | x :: rest =>
      let '(x', ev, r) := body st x in
      match r with
      | inl e => (x' :: rest, ev, inl e)
      | inr st' =>
          let '(rest', ev', r') := for_each st' rest in
          (x' :: rest', ev ++ ev', r')
      end
  end.

End Loop.

(** *** Subscripts and attributes of dictionary values *)

(** [data[key]]. *)
Definition getitem {V : Type} (data : gmap string V) (key : string) : res V :=
  match data !! key with
  | Some v => mret v
  | None => raise KeyError
  end.

(** [entry['string']]: a key of a decoded JSON object; an unpickled record
    is not subscriptable. *)
Definition getitem_string (entry : Entry) : res string :=
  match entry with
  | JsonE e => match j_string e with
               | Some t => mret t
               | None => raise KeyError
               end
  | LegacyE _ => raise TypeError
  end.

(** [bool(entry)]: a [dict] is truthy when it has a key. *)
Definition truthy (entry : Entry) : bool :=
  match entry with
  | JsonE e => bool_decide (is_Some (j_index e))
               || bool_decide (is_Some (j_type e))
               || bool_decide (is_Some (j_original e))
               || bool_decide (is_Some (j_string e))
  | LegacyE e => l_truthy e
  end.

(** [entry.translated_string]: a [dict] has no such attribute. *)
Definition attr_translated_string (entry : Entry) : res string :=
  match entry with
  | JsonE _ => raise AttributeError
  | LegacyE e => mret (l_translated_string e)
  end.

(** [entry.status]. *)
Definition attr_status (entry : Entry) : res Status :=
  match entry with
  | JsonE _ => raise AttributeError
  | LegacyE e => mret (l_status e)
  end.

(** [self.path.endswith(suffix)]; [load_from_db()] called without a path
    leaves [self.path] at [None]. *)
Definition path_endswith (path : option string) (suffix : string) : res bool :=
  match path with
  | Some p => mret (endswith p suffix)
  | None => raise AttributeError
  end.

(** [open(path, ...)] for reading. *)
Definition open (fs : FileSystem) (path : string) : res File :=
  match fs !! path with
  | Some f => mret f
  | None => raise FileNotFoundError
  end.

Section Editor.

(** [utils.trim_string], which shortens a text for display; it is declared
    in the [utilities] package, outside the sources. *)
Variable trim_string : string -> string.

(** *** [Worker] *)

(** One turn of the loop of [load_data] over a decoded JSON array:
    [data[entry['original']] = entry]; once an entry has raised, the loop
    is over. *)
Definition add_json_entry (acc : res (gmap string Entry)) (entry : JsonEntry)
  : res (gmap string Entry) :=
  data ← acc;
  match j_original entry with
  | Some key => mret (<[key := JsonE entry]> data)
  | None => raise KeyError
  end.

(** One turn of the loop over an unpickled list:
    [data[entry.original_string] = entry]. *)
Definition add_legacy_entry (acc : res (gmap string Entry))
    (entry : LegacyEntry) : res (gmap string Entry) :=
  data ← acc;
  mret (<[l_original_string entry := LegacyE entry]> data).

(** [Worker.load_data].  With [self.path] at [None] the first test raises;
    a later entry under a key that is already there replaces the value. *)
Definition load_data (fs : FileSystem) (path : option string)
  : res (gmap string Entry) :=
  match path with
  | None => raise AttributeError
  | Some p =>
      if endswith p ".json" then
        file ← open fs p;
        f ← json_load file;
        foldl add_json_entry (mret ∅) f
      else
        file ← open fs p;
        f ← pickle_load file;
        foldl add_legacy_entry (mret ∅) f
  end.

(** The [try] block of [Worker.import_data] for one item whose status is
    not [TranslationComplete]: the item after it, or the exception. *)
Definition reconcile (data : gmap string Entry) (json_format : bool)
    (it : Item) : res Item :=
  let '(tree_item, string) := it in
  string' ←
    (if json_format then
       entry ← getitem data (original_string string);
       t ← getitem_string entry;
       if negb (String.eqb t (original_string string)) then
         mret (set_status TranslationIncomplete (set_translated_string t string))
       else mret string
     else
       entry ← getitem data (original_string string);
       if truthy entry then
         t ← attr_translated_string entry;
         st ← attr_status entry;
         mret (set_status st (set_translated_string t string))
       else mret string);
  mret (setText 4 (trim_string (translated_string string')) tree_item, string').

(** [int((i + 1) / total_entries * 100)]. *)
Definition progress_value (i total_entries : Z) : res Z :=
  q ← true_div (i + 1) total_entries;
  int_of_float (float_mul_int q 100).

(** The last three lines of the loop body: compute the progress, emit it,
    count the item. *)
Definition emit_progress (total_entries i : Z) (it : Item)
  : Item * list Event * res Z :=
  match progress_value i total_entries with
  | inl e => (it, [], inl e)
  | inr p => (it, [Emit (SigProgress p)], inr (i + 1)%Z)
  end.

(** The body of the loop of [Worker.import_data]; the loop state is [i].
    [except KeyError: continue] goes to the next item without emitting and
    without counting. *)
Definition import_body (data : gmap string Entry) (total_entries : Z)
    (json_format : bool) (i : Z) (it : Item) : Item * list Event * res Z :=
  if bool_decide (status it.2 ≠ TranslationComplete) then
    match reconcile data json_format it with
    | inl KeyError => (it, [], inr i)
    | inl e => (it, [], inl e)
    | inr it' => emit_progress total_entries i it'
    end
  else emit_progress total_entries i it.

(** [Worker.import_data]: the items after the loop, the signals emitted, and
    the final count or the exception that left the loop. *)
Definition import_data (data : gmap string Entry) (total_entries : Z)
    (json_format : bool) (items : list Item) : list Item * list Event * res Z :=
  for_each (import_body data total_entries json_format) 0%Z items.

(** [Worker.run]: the items after it and everything emitted.
    [editor.update_string_list] belongs to the editor tab, outside the
    sources; the call is recorded and taken to return. *)
Definition run (fs : FileSystem) (path : option string) (items : list Item)
  : list Item * list Event :=
  match load_data fs path with
  | inl e => (items, [Emit (SigError e); Emit SigFinished])
  | inr data =>
      let total_entries := Z.of_nat (size data) in
      match path_endswith path ".json" with
      | inl e => (items, [Emit (SigError e); Emit SigFinished])
      | inr json_format =>
          let '(items', ev, r) :=
            import_data data total_entries json_format items in
          match r with
          | inl e => (items', ev ++ [Emit (SigError e); Emit SigFinished])
          | inr _ =>
              (items', ev ++ [UpdateStringList;
                              Emit (SigResult (PStr "DB_IMPORTED"));
                              Emit SigFinished])
          end
      end
  end.

(** *** [EditorAddon]: the slots connected by [load_from_db] *)

(** [key in data] for the object that the [result] signal carries: the
    substring test on a [str], the key test on a [dict]. *)
Definition payload_contains (data : Payload) (key : string) : bool :=
  match data with
  | PStr s => str_contains s key
  | PDict d => bool_decide (is_Some (d !! key))
  end.

(** [data[key]]: a [str] takes integer and slice subscripts only. *)
Definition payload_getitem (data : Payload) (key : string) : res Entry :=
  match data with
  | PStr _ => raise TypeError
  | PDict d => getitem d key
  end.

(** The body of the loop of [EditorAddon.update_gui_with_data]. *)
Definition update_gui_body (data : Payload) (_ : unit) (it : Item)
  : Item * list Event * res unit :=
  let '(tree_item, string) := it in
  if bool_decide (status string ≠ TranslationComplete) then
    let attempt : res Item :=
      if payload_contains data (original_string string) then
        entry ← payload_getitem data (original_string string);
        t ← attr_translated_string entry;
        st ← attr_status entry;
        let string' := set_status st (set_translated_string t string) in
        mret (setText 4 (trim_string (translated_string string')) tree_item,
              string')
      else mret it in
    match attempt with
    | inl KeyError => (it, [], inr ())
    | inl e => (it, [], inl e)
    | inr it' => (it', [], inr ())
    end
  else (it, [], inr ()).

(** [EditorAddon.update_gui_with_data]. *)
Definition update_gui_with_data (data : Payload) (items : list Item)
  : list Item * list Event * res unit :=
  let '(items', ev, r) := for_each (update_gui_body data) () items in
  match r with
  | inl e => (items', ev, inl e)
  | inr _ => (items', ev ++ [UpdateStringList; ChangesSignal], inr ())
  end.

(** The connections made by [EditorAddon.load_from_db]: the slot that each
    signal of the worker runs.  [update_progress] and [on_load_finished]
    find the progress dialog that [load_from_db] has just created;
    [handle_error] only prints. *)
Definition slot (sig : Signal) (items : list Item)
  : list Item * list Event * res unit :=
  match sig with
  | SigFinished => (items, [DialogSetValue 100; DialogClose; ChangesSignal], inr ())
  | SigResult data => update_gui_with_data data items
  | SigError _ => (items, [], inr ())
  | SigProgress p => (items, [DialogSetValue p], inr ())
  end.

(** The slots run in the order of emission; an exception that leaves a slot
    is recorded and the next signal is delivered. *)
Fixpoint deliver (emitted : list Event) (items : list Item)
  : list Item * list Event :=
  match emitted with
  | [] => (items, [])
  | Emit sig :: rest =>
      let '(items', ev, r) := slot sig items in
      let '(items'', ev') := deliver rest items' in
      (items'',
       ev ++ match r with inl e => [SlotRaised e] | inr _ => [] end ++ ev')
  | _ :: rest => deliver rest items
  end.

(** [EditorAddon.load_from_db]: the worker runs, then its signals reach the
    slots.  The result is the items, what the worker emitted and what the
    slots did. *)
Definition load_from_db (fs : FileSystem) (path : option string)
    (items : list Item) : list Item * list Event * list Event :=
  let '(items', emitted) := run fs path items in
  let '(items'', gui) := deliver emitted items' in
  (items'', emitted, gui).

(** *** [EditorAddon.export_json] *)

(** The list [data] that the first loop of [export_json] builds; [i] is the
    position of the item in [editor.items]. *)
Fixpoint export_data (full : bool) (i : Z) (items : list Item)
  : list JsonEntry :=
  match items with
  | [] => []
  | (_, string) :: rest =>
      if full || bool_decide (status string ≠ TranslationComplete) then
        mkJson (Some i) (Some (type string)) (Some (original_string string))
               (Some (translated_string string))
        :: export_data full (i + 1)%Z rest
      else export_data full (i + 1)%Z rest
  end.

(** [EditorAddon.export_json].  [export_stem] is the text of the path
    [data_path / "user" / "export" / plugin_name]; the export directory is
    there.  The file written is a JSON array, which [json.load] reads back
    as the same list and which is no pickle stream. *)
Definition export_json (full : bool) (export_stem : string)
    (items : list Item) (fs : FileSystem) : FileSystem :=
  let data := export_data full 0%Z items in
  let output_path := export_stem +:+ ".json" in
  <[output_path := mkFile (mret data) (raise UnpicklingError)]> fs.

(** *** [EditorAddon.import_esp] *)

(** The keys of the dictionary of translations: the tuple
    [(editor_id, type)] or [(editor_id, form_id, type)]. *)
Inductive Key : Type :=
| Key2 (editor_id : option string) (type : string)
| Key3 (editor_id : option string) (form_id : option string) (type : string).

#[export] Instance Key_eq_dec : EqDecision Key.
Proof. solve_decision. Defined.

#[export] Instance Key_countable : Countable Key.
Proof.
  refine (inj_countable'
            (fun k => match k with
                      | Key2 e t => inl (e, t)
                      | Key3 e f t => inr (e, f, t)
                      end)
            (fun x => match x with
                      | inl (e, t) => Key2 e t
                      | inr (e, f, t) => Key3 e f t
                      end) _).
  intros [e t | e f t]; reflexivity.
Defined.

(** The key of a string under the caller's mode. *)
Definition key_of (only_edid : bool) (string : StringRecord) : Key :=
  if only_edid then Key2 (editor_id string) (type string)
  else Key3 (editor_id string) (form_id string) (type string).

(** [Plugin(path).extract_strings()]. *)
Definition extract_strings (plugins : Plugins) (path : string)
  : res (list StringRecord) :=
  match plugins !! path with
  | Some r => r
  | None => raise FileNotFoundError
  end.

(** One turn of the loop of [extract_translation_strings]. *)
Definition add_translation (only_edid : bool)
    (translations_dict : gmap Key (list StringRecord)) (string : StringRecord)
  : gmap Key (list StringRecord) :=
  let key := key_of only_edid string in
  let d := match translations_dict !! key with
           | None => <[key := []]> translations_dict
           | Some _ => translations_dict
           end in
  alter (fun l => l ++ [string]) key d.

(** [EditorAddon.extract_translation_strings]. *)
Definition extract_translation_strings (plugins : Plugins)
    (translation_plugin : string) (only_edid : bool)
  : res (gmap Key (list StringRecord)) :=
  translation_strings ← extract_strings plugins translation_plugin;
  mret (foldl (add_translation only_edid) ∅ translation_strings).

(** What the file dialog of [import_esp] ends with. *)
Inductive DialogResult : Type :=
| Rejected
| Accepted (selectedFiles : list string).

(** The candidate that the loop of [import_esp] picks among the strings
    under the key of an item, [None] when it goes on to the next item. *)
Definition pick_translation (candidates : list StringRecord)
    (string : StringRecord) : res (option StringRecord) :=
  if (1 <? length candidates)%nat then
    match filter (fun trans => index trans = index string) candidates with
    | [] => mret None
    | translation :: _ => mret (Some translation)
    end
  else
    match candidates with
    | [] => raise IndexError
    | translation :: _ => mret (Some translation)
    end.

(** The body of the loop of [import_esp]. *)
Definition import_esp_body (only_edid : bool)
    (translation_strings : gmap Key (list StringRecord)) (_ : unit) (it : Item)
  : Item * list Event * res unit :=
  let '(tree_item, string) := it in
  if bool_decide (status string = TranslationComplete) then (it, [], inr ())
  else
    let key := key_of only_edid string in
    if bool_decide (editor_id string = None) && only_edid then (it, [], inr ())
    else
      match translation_strings !! key with
      | None => (it, [], inr ())
      | Some candidates =>
          match pick_translation candidates string with
          | inl e => (it, [], inl e)
          | inr None => (it, [], inr ())
          | inr (Some translation) =>
              ((setText 4 (trim_string (original_string translation)) tree_item,
                set_status TranslationIncomplete
                  (set_translated_string (original_string translation) string)),
               [], inr ())
          end
      end.

(** [EditorAddon.import_esp]. *)
Definition import_esp (plugins : Plugins) (dialog : DialogResult)
    (only_edid : bool) (items : list Item)
  : list Item * list Event * res unit :=
  match dialog with
  | Rejected => (items, [], inr ())
  | Accepted [] => (items, [], inr ())
  | Accepted (file :: _) =>
      match extract_translation_strings plugins file only_edid with
      | inl e => (items, [], inl e)
      | inr translation_strings =>
          let '(items', ev, r) :=
            for_each (import_esp_body only_edid translation_strings) () items in
          match r with
          | inl e => (items', ev, inl e)
          | inr _ => (items', ev ++ [UpdateStringList; ChangesSignal], inr ())
          end
      end
  end.

(** [EditorAddon.import_json]: the file chosen in the dialog goes to
    [load_from_db]. *)
Definition import_json (fs : FileSystem) (dialog : DialogResult)
    (items : list Item) : list Item * list Event * list Event :=
  match dialog with
  | Rejected => (items, [], [])
  | Accepted [] => (items, [], [])
  | Accepted (selected_file :: _) => load_from_db fs (Some selected_file) items
  end.

(** [export_json] followed by the import of the file it wrote. *)
Definition export_then_import (export_stem : string) (fs : FileSystem)
    (items : list Item) : list Item * list Event :=
  run (export_json false export_stem items fs)
      (Some (export_stem +:+ ".json")) items.

(** *** The rules of the import, item by item

    The functions below say what the loops do to one item.  They are what
    the theorems compare the loops with. *)

(** What the loop of [import_data] makes of an item that it reaches. *)
Definition import_item (data : gmap string Entry) (json_format : bool)
    (it : Item) : Item :=
  if bool_decide (status it.2 ≠ TranslationComplete) then
    match reconcile data json_format it with
    | inr it' => it'
    | inl _ => it
    end
  else it.

(** The JSON rule on one item, given the text found under the item's
    original text ([None]: no entry, or an entry without ['string']). *)
Definition json_item (found : option string) (it : Item) : Item :=
  if bool_decide (status it.2 = TranslationComplete) then it
  else
    match found with
    | None => it
    | Some t =>
        if decide (t = original_string it.2) then
          (setText 4 (trim_string (translated_string it.2)) it.1, it.2)
        else
          (setText 4 (trim_string t) it.1,
           mkString (editor_id it.2) (form_id it.2) (index it.2) (type it.2)
                    (original_string it.2) t TranslationIncomplete)
    end.

(** The translation that [export_json] writes last under [key]: that of the
    last item that is not complete and has [key] as its original text. *)
Definition exported_translation (items : list Item) (key : string)
  : option string :=
  translated_string
    <$> last (filter (fun s => status s ≠ TranslationComplete
                               /\ original_string s = key) items.*2).

(** What the round trip through the exported file makes of one item of the
    session [items]. *)
Definition roundtrip_item (items : list Item) (it : Item) : Item :=
  json_item (exported_translation items (original_string it.2)) it.

(** The strings of the plugin under [key]. *)
Definition candidates (only_edid : bool) (strings : list StringRecord)
    (key : Key) : list StringRecord :=
  filter (fun c => key_of only_edid c = key) strings.

(** The string of the plugin that [import_esp] applies to [record], if any:
    none for a complete record or, in the [(editor_id, type)] mode, for one
    without editor id; the only candidate under the key of the record; among
    several candidates the first with the index of the record. *)
Definition matched_translation (only_edid : bool)
    (strings : list StringRecord) (record : StringRecord)
  : option StringRecord :=
  if bool_decide (status record = TranslationComplete) then None
  else if bool_decide (editor_id record = None) && only_edid then None
  else
    match candidates only_edid strings (key_of only_edid record) with
    | [] => None
    | [c] => Some c
    | cs => head (filter (fun c => index c = index record) cs)
    end.

(** What [import_esp] makes of one item. *)
Definition esp_item (only_edid : bool) (strings : list StringRecord)
    (it : Item) : Item :=
  match matched_translation only_edid strings it.2 with
  | None => it
  | Some c =>
      (<[4%nat := trim_string (original_string c)]> it.1,
       mkString (editor_id it.2) (form_id it.2) (index it.2) (type it.2)
                (original_string it.2) (original_string c)
                TranslationIncomplete)
  end.

(** The loop of [import_data] counts the item and emits a progress value
    for it: the item is complete, or its [try] block comes to its end. *)
Definition counted (data : gmap string Entry) (json_format : bool)
    (it : Item) : bool :=
  if bool_decide (status it.2 ≠ TranslationComplete) then
    match reconcile data json_format it with
    | inr _ => true
    | inl _ => false
    end
  else true.

(** What the loop of [update_gui_with_data] makes of one item when the
    object received is a dictionary of unpickled records. *)
Definition gui_item (d : gmap string Entry) (it : Item) : Item :=
  if bool_decide (status it.2 ≠ TranslationComplete) then
    match d !! original_string it.2 with
    | Some (LegacyE e) =>
        (<[4%nat := trim_string (l_translated_string e)]> it.1,
         mkString (editor_id it.2) (form_id it.2) (index it.2) (type it.2)
                  (original_string it.2) (l_translated_string e) (l_status e))
    | _ => it
    end
  else it.

End Editor.

(** *** The text that [export_json] writes *)

(** The line feed character. *)
Definition newline : string := String "010"%char EmptyString.

Section Writer.

(** [json.dumps(entry, ensure_ascii=False, separators=(',', ':'))], the
    text of one entry; the encoder belongs to the Python library. *)
Variable json_dumps : JsonEntry -> string.

(** The second loop of [export_json]: each entry, followed by a comma and a
    line feed, or by a line feed alone after the last one.  [n] is
    [len(data)] and [idx] the position of the first entry of [data]. *)
Fixpoint write_entries (n idx : Z) (data : list JsonEntry) : string :=
  match data with
  | [] => EmptyString
  | entry :: rest =>
      json_dumps entry
      +:+ (if (idx <? n - 1)%Z then "," +:+ newline else newline)
      +:+ write_entries n (idx + 1)%Z rest
  end.

(** Everything written to the output file. *)
Definition export_text (full : bool) (items : list Item) : string :=
  let data := export_data full 0%Z items in
  "[" +:+ write_entries (Z.of_nat (length data)) 0%Z data +:+ "]".

End Writer.

(** Two records that differ at most in the translation and the status. *)
Definition same_string (a b : StringRecord) : Prop :=
  editor_id a = editor_id b /\ form_id a = form_id b /\ index a = index b
  /\ type a = type b /\ original_string a = original_string b.

(** Two rows that differ at most in column 4. *)
Definition same_row (a b : TreeItem) : Prop :=
  forall column, column ≠ 4%nat -> a !! column = b !! column.

(** Two sessions with the same number of items, which differ item by item
    at most in the translation and the status of the record and in
    column 4 of the row. *)
Definition same_session (before after : list Item) : Prop :=
  length after = length before
  /\ forall k it, before !! k = Some it ->
       exists it', after !! k = Some it'
                   /\ same_string it'.2 it.2 /\ same_row it'.1 it.1.

(** The dictionary is of the kind that [load_data] builds for the format:
    decoded JSON objects, or unpickled records, each under its own original
    text. *)
Definition entries_match (json_format : bool) (data : gmap string Entry)
  : Prop :=
  forall key entry, data !! key = Some entry ->
    if json_format then exists e, entry = JsonE e /\ j_original e = Some key
    else exists e, entry = LegacyE e /\ l_original_string e = key.

(** The ['string'] of the entry under [key]. *)
Definition data_string (data : gmap string Entry) (key : string)
  : option string :=
  match data !! key with
  | Some (JsonE e) => j_string e
  | _ => None
  end.

(** The item is complete. *)
Definition is_complete (it : Item) : bool :=
  bool_decide (status it.2 = TranslationComplete).

(** The item makes the second pass raise: it is not complete and its
    original text occurs in the text that the result signal carries. *)
Definition raises_on (text : string) (it : Item) : bool :=
  bool_decide (status it.2 ≠ TranslationComplete)
  && str_contains text (original_string it.2).

(** The event is the emission of a progress value. *)
Definition is_progress (ev : Event) : Prop :=
  exists p, ev = Emit (SigProgress p).

End Addons.

(** ** [widgets/stacked_widget.py] *)

Module Widgets.

Local Open Scope Z_scope.

(** [StackedWidget.Direction]. *)
Inductive Direction : Type :=
| LeftToRight
| RightToLeft
| TopToBottom
| BottomToTop
| Automatic.

(** [StackedWidget.Orientation]. *)
Inductive Orientation : Type :=
| Vertical
| Horizontal.

#[export] Instance Direction_eq_dec : EqDecision Direction.
Proof. solve_decision. Defined.

#[export] Instance Orientation_eq_dec : EqDecision Orientation.
Proof. solve_decision. Defined.

(** A page of the stack: the identity of the [QWidget] and its position in
    the stack's frame (its size is not tracked). *)
Record Widget : Type := mkWidget {
  widget_id : nat;
  pos_x : Z;
  pos_y : Z
}.

(** The state of a [StackedWidget] that the sliding code reads and writes:
    the pages of the underlying [QStackedWidget] (its [count()] is their
    number), its current index (-1 for an empty stack), the size of its
    frame, and the attributes of the subclass. *)
Record StackedWidget : Type := mkStacked {
  pages : list Widget;
  currentIndex : Z;
  frame_width : Z;
  frame_height : Z;
  orientation : Orientation;
  reverse : bool;
  _active : bool
}.

(** [self.count()]. *)
Definition count (self : StackedWidget) : Z := Z.of_nat (length (pages self)).

(** [self.widget(index)]: [None] outside the range. *)
Definition widget (self : StackedWidget) (index : Z) : option Widget :=
  if index <? 0 then None else pages self !! Z.to_nat index.

(** [self.indexOf(w)]: the position of the widget, -1 when it is no page. *)
Fixpoint index_from (w : Widget) (l : list Widget) (i : Z) : Z :=
  match l with
  | [] => -1
  | x :: rest =>
      if decide (widget_id x = widget_id w) then i
      else index_from w rest (i + 1)
  end.

Definition indexOf (self : StackedWidget) (w : option Widget) : Z :=
  match w with
  | None => -1
  | Some w => index_from w (pages self) 0
  end.

(** [a % b] on two [int]. *)
Definition py_mod (a b : Z) : res Z :=
  if b =? 0 then raise ZeroDivisionError else mret (a mod b).

(** [self._active = b]. *)
Definition set_active (b : bool) (self : StackedWidget) : StackedWidget :=
  mkStacked (pages self) (currentIndex self) (frame_width self)
            (frame_height self) (orientation self) (reverse self) b.

(** [w.setGeometry(0, 0, _, _)] on the page at [index]: it moves the page
    to the origin of the frame.  A widget that is no page of the stack
    (index -1) leaves the pages as they are. *)
Definition set_geometry_origin (index : Z) (self : StackedWidget)
  : StackedWidget :=
  if index <? 0 then self
  else
    mkStacked (alter (fun w => mkWidget (widget_id w) 0 0) (Z.to_nat index)
                     (pages self))
              (currentIndex self) (frame_width self) (frame_height self)
              (orientation self) (reverse self) (_active self).

(** The animation that [slideInWidget] starts: the page that leaves and the
    page that comes, the direction after [Automatic] and [reverse] are
    resolved, and the start and end values of the two position animations. *)
Record Slide : Type := mkSlide {
  slide_from : Z;
  slide_to : Z;
  slide_direction : Direction;
  current_start : Z * Z;
  current_end : Z * Z;
  next_start : Z * Z;
  next_end : Z * Z
}.

(** The direction for a page after the current one, and for one before. *)
Definition forward (self : StackedWidget) : Direction :=
  if decide (orientation self = Vertical) then TopToBottom else RightToLeft.

Definition backward (self : StackedWidget) : Direction :=
  if decide (orientation self = Vertical) then BottomToTop else LeftToRight.

(** The [match] under [if self.reverse]. *)
Definition reversed (direction : Direction) : Direction :=
  match direction with
  | TopToBottom => BottomToTop
  | BottomToTop => TopToBottom
  | LeftToRight => RightToLeft
  | RightToLeft => LeftToRight
  | Automatic => Automatic
  end.

(** [StackedWidget.slideInWidget]: the widget after the call, and the
    animation started (if one is) or the exception. *)
Definition slideInWidget (self : StackedWidget) (nextWidget : option Widget)
    (direction : Direction) : StackedWidget * res (option Slide) :=
  if _active self then (self, mret None)
  else
    let self := set_active true self in
    let current_index := currentIndex self in
    let next_index := indexOf self nextWidget in
    let current_widget := widget self current_index in
    if current_index =? next_index then (set_active false self, mret None)
    else
      let x_offset := frame_width self in
      let y_offset := frame_height self in
      match nextWidget with
      | None => (self, raise AttributeError)
      | Some _ =>
          let self := set_geometry_origin next_index self in
          let direction :=
            if decide (direction = Automatic) then
              if current_index <? next_index then forward self
              else backward self
            else direction in
          let direction :=
            if reverse self then reversed direction else direction in
          let '(x_offset, y_offset) :=
            match direction with
            | BottomToTop => (0, - y_offset)
            | TopToBottom => (0, y_offset)
            | RightToLeft => (- x_offset, 0)
            | LeftToRight => (x_offset, 0)
            | Automatic => (x_offset, y_offset)
            end in
          match current_widget with
          | None => (self, raise AttributeError)
          | Some current_widget =>
              let point_current := (pos_x current_widget, pos_y current_widget) in
              let point_next := (0, 0) in
              (self,
               mret (Some (mkSlide current_index next_index direction
                             point_current
                             (x_offset + point_current.1,
                              y_offset + point_current.2)
                             (- x_offset + point_next.1,
                              - y_offset + point_next.2)
                             point_next)))
          end
      end.

(** [StackedWidget.slideInIndex]. *)
Definition slideInIndex (self : StackedWidget) (index : Z)
    (direction : Direction) : StackedWidget * res (option Slide) :=
  if index >? count self - 1 then
    let direction := forward self in
    match py_mod index (count self) with
    | inl e => (self, inl e)
    | inr index => slideInWidget self (widget self index) direction
    end
  else if index <? 0 then
    let direction := backward self in
    match py_mod (index + count self) (count self) with
    | inl e => (self, inl e)
    | inr index => slideInWidget self (widget self index) direction
    end
  else slideInWidget self (widget self index) direction.

(** [QStackedWidget.setCurrentIndex(index)]: the page at [index] becomes
    the current one; an index without a page is ignored. *)
Definition setCurrentIndex (index : Z) (self : StackedWidget) : StackedWidget :=
  match widget self index with
  | None => self
  | Some _ =>
      mkStacked (pages self) index (frame_width self) (frame_height self)
                (orientation self) (reverse self) (_active self)
  end.

(** [w.move(point)] on the page at [index]. *)
Definition move_page (index : Z) (point : Z * Z) (self : StackedWidget)
  : StackedWidget :=
  if index <? 0 then self
  else
    mkStacked (alter (fun w => mkWidget (widget_id w) point.1 point.2)
                     (Z.to_nat index) (pages self))
              (currentIndex self) (frame_width self) (frame_height self)
              (orientation self) (reverse self) (_active self).

(** [StackedWidget.finish_anim]. *)
Definition finish_anim (self : StackedWidget) : StackedWidget :=
  set_active false self.

(** The slot that [slideInWidget] connects to the [finished] signal of the
    animation group: the page that came in becomes the current one, the
    page that left is moved to where it was, and the widget takes requests
    again (the labels and the visibility of the pages are not tracked). *)
Definition anim_finished (slide : Slide) (self : StackedWidget)
  : StackedWidget :=
  let self := setCurrentIndex (slide_to slide) self in
  let self := move_page (slide_from slide) (current_start slide) self in
  finish_anim self.

(** A call of one of the sliding methods, followed by the end of the
    animation that it started, if it started one. *)
Definition settled (r : StackedWidget * res (option Slide)) : StackedWidget :=
  match r with
  | (self, inr (Some slide)) => anim_finished slide self
  | (self, _) => self
  end.

(** [StackedWidget.slideInNext]. *)
Definition slideInNext (self : StackedWidget)
  : StackedWidget * res (option Slide) :=
  slideInIndex self
    (if currentIndex self <? count self - 1 then currentIndex self + 1 else 0)
    Automatic.

(** [StackedWidget.slideInPrev]. *)
Definition slideInPrev (self : StackedWidget)
  : StackedWidget * res (option Slide) :=
  slideInIndex self
    (if currentIndex self >? 0 then currentIndex self - 1 else count self - 1)
    Automatic.

(** What [QStackedWidget] keeps true of a stack that has pages: the pages
    are distinct widgets and the current index is that of a page. *)
Definition shows_a_page (self : StackedWidget) : Prop :=
  NoDup (widget_id <$> pages self) /\ 0 <= currentIndex self < count self.

(** The displacement of the two labels for a direction. *)
Definition displacement (self : StackedWidget) (direction : Direction)
  : Z * Z :=
  match direction with
  | BottomToTop => (0, - frame_height self)
  | TopToBottom => (0, frame_height self)
  | RightToLeft => (- frame_width self, 0)
  | LeftToRight => (frame_width self, 0)
  | Automatic => (frame_width self, frame_height self)
  end.

End Widgets.

(** ** [widgets/stacked_bar.py] *)

Module StackedBar.

(** A colour: the two constants of [Qt.GlobalColor] that the code names,
    or a colour that the caller passes. *)
Inductive Color : Type :=
| lightGray
| transparent
| rgb (value : Z).

(** A [QBarSet], as far as the code touches it: its values, which are C++
    [double]s, and its colour and the colour of its border once they have
    been set. *)
Record BarSet : Type := mkBarSet {
  bar_values : list spec_float;
  bar_color : option Color;
  bar_border : option Color
}.

(** The list [__bar_sets] of a [StackedBar]; the series of the chart holds
    the same objects in the same order. *)
Abbreviation Bars := (list BarSet).

(** The argument [colors]: [None], or a list whose members are colours or
    [None]. *)
Abbreviation Colors := (option (list (option Color))).

(** An [int] passed where the binding expects a [double], as in
    [bar_set.append(value)]: the nearest binary64 number, ties to even, and
    [OverflowError] for an integer beyond the range of binary64. *)
Definition to_double (value : Z) : res spec_float :=
  match float_of_int value with
  | S754_infinity _ => raise OverflowError
  | x => mret x
  end.

(** The body of the loop of [__init__] for the value at position [v]: the
    value is appended before the colour is looked up. *)
Definition new_bar_set (colors : Colors) (v : nat) (value : Z) : res BarSet :=
  x ← to_double value;
  color ← match colors with
          | None => mret None
          | Some cs =>
              match cs !! v with
              | None => raise IndexError
              | Some color => mret (Some (default lightGray color))
              end
          end;
  mret (mkBarSet [x] color (Some transparent)).

(** The loop of [__init__] from position [v] on: the bar sets appended. *)
Fixpoint init_from (colors : Colors) (v : nat) (values : list Z) : res Bars :=
  match values with
  | [] => mret []
  | value :: rest =>
      bar_set ← new_bar_set colors v value;
      bar_sets ← init_from colors (S v) rest;
      mret (bar_set :: bar_sets)
  end.

(** [StackedBar.__init__]: the bar sets of the new object, or the exception
    that leaves the constructor. *)
Definition init (values : list Z) (colors : Colors) : res Bars :=
  init_from colors 0 values.

(** [bar_set.remove(0)]: the first value goes; a bar set without values
    stays empty. *)
Definition remove_first (bar_set : BarSet) : BarSet :=
  mkBarSet (drop 1 (bar_values bar_set)) (bar_color bar_set)
           (bar_border bar_set).

(** [bar_set.append(x)] for a [double]: the value comes last. *)
Definition append_value (x : spec_float) (bar_set : BarSet) : BarSet :=
  mkBarSet (bar_values bar_set ++ [x]) (bar_color bar_set)
           (bar_border bar_set).

(** [bar_set.setColor(color)], with light gray for [None]. *)
Definition set_color (color : option Color) (bar_set : BarSet) : BarSet :=
  mkBarSet (bar_values bar_set) (Some (default lightGray color))
           (bar_border bar_set).

(** The loop of [setValues] from position [v] on: the bar sets after it,
    and whether it came to its end.  [self.__bar_sets[v]] raises
    [IndexError] beyond the last bar set, and [append] raises
    [OverflowError] after [remove] has taken the old value; what was
    written before stays. *)
Fixpoint setValues_from (v : nat) (values : list Z) (self : Bars)
  : Bars * res unit :=
  match values with
  | [] => (self, mret ())
  | value :: rest =>
      match self !! v with
      | None => (self, raise IndexError)
      | Some _ =>
          let self := alter remove_first v self in
          match to_double value with
          | inl e => (self, inl e)
          | inr x => setValues_from (S v) rest (alter (append_value x) v self)
          end
      end
  end.

(** [StackedBar.setValues]. *)
Definition setValues (values : list Z) (self : Bars) : Bars * res unit :=
  setValues_from 0 values self.

(** The loop of [setColors] from position [c] on. *)
Fixpoint setColors_from (c : nat) (colors : list (option Color)) (self : Bars)
  : Bars * res unit :=
  match colors with
  | [] => (self, mret ())
  | color :: rest =>
      match self !! c with
      | None => (self, raise IndexError)
      | Some _ => setColors_from (S c) rest (alter (set_color color) c self)
      end
  end.

(** [StackedBar.setColors]. *)
Definition setColors (colors : list (option Color)) (self : Bars)
  : Bars * res unit :=
  setColors_from 0 colors self.

End StackedBar.

(** * Properties *)

(** ** The built-ins *)

Module PyFacts.

Local Open Scope Z_scope.

(** *** Strings *)

Lemma prefix_spec needle hay :
  String.prefix needle hay = true <-> exists after, hay = needle +:+ after.
Proof.
  revert hay. induction needle as [|a needle IH]; intros hay.
  - split; [intros _; exists hay; reflexivity|]. intros _. destruct hay; reflexivity.
  - destruct hay as [|b hay]; simpl.
    + split; [discriminate|intros [after H]; discriminate].
    + destruct (ascii_dec a b) as [->|Hne].
      * rewrite IH. split; intros [after H]; exists after.
        -- simpl. rewrite H. reflexivity.
        -- simpl in H. injection H as H. exact H.
      * split; [discriminate|]. intros [after H]. simpl in H.
        injection H as H1 H2. congruence.
Qed.

Lemma str_contains_unfold hay needle :
  str_contains hay needle
  = if String.prefix needle hay then true
    else match hay with
         | EmptyString => false
         | String _ hay' => str_contains hay' needle
         end.
Proof. destruct hay; reflexivity. Qed.

(** [needle in hay] holds exactly when [hay] is some text, then [needle],
    then some text. *)
Lemma str_contains_spec hay needle :
  str_contains hay needle = true <-> is_substring needle hay.
Proof.
  unfold is_substring. induction hay as [|c hay IH]; rewrite str_contains_unfold.
  - destruct (String.prefix needle EmptyString) eqn:Hp.
    + split; [intros _|reflexivity]. apply prefix_spec in Hp as [after H].
      exists EmptyString, after. exact H.
    + split; [discriminate|]. intros (before & after & H).
      destruct before; [|discriminate]. simpl in H.
      assert (String.prefix needle EmptyString = true)
        by (apply prefix_spec; eauto).
      congruence.
  - destruct (String.prefix needle (String c hay)) eqn:Hp.
    + split; [intros _|reflexivity]. apply prefix_spec in Hp as [after H].
      exists EmptyString, after. exact H.
    + rewrite IH. split.
      * intros (before & after & H). exists (String c before), after.
        simpl. rewrite H. reflexivity.
      * intros (before & after & H). destruct before as [|c' before].
        -- simpl in H.
           assert (String.prefix needle (String c hay) = true)
             by (apply prefix_spec; eauto).
           congruence.
        -- simpl in H. injection H as _ H. exists before, after. exact H.
Qed.

Lemma endswith_unfold s suffix :
  endswith s suffix
  = if String.eqb s suffix then true
    else match s with
         | EmptyString => false
         | String _ s' => endswith s' suffix
         end.
Proof. destruct s; reflexivity. Qed.

(** A text to which a suffix was appended ends with it. *)
Lemma endswith_app s suffix : endswith (s +:+ suffix) suffix = true.
Proof.
  induction s as [|a s IH]; rewrite endswith_unfold.
  - simpl. rewrite String.eqb_refl. reflexivity.
  - destruct (String.eqb (String a s +:+ suffix) suffix); [reflexivity|exact IH].
Qed.

(** *** binary64: the progress computation returns

    The lemmas follow a mantissa bound and an exponent range through
    [binary_round_aux], which is enough to see that neither the quotient of
    two counts nor its hundredfold is infinite or not a number. *)

Lemma digits2_pos_size p : digits2_pos p = Pos.size p.
Proof. induction p; simpl; congruence. Qed.

Lemma Zdigits2_log2 p : Zdigits2 (Zpos p) = Z.log2 (Zpos p) + 1.
Proof.
  simpl. rewrite digits2_pos_size.
  destruct p; simpl; try reflexivity; lia.
Qed.

Lemma Zdigits2_nonneg m : 0 <= m -> 0 <= Zdigits2 m.
Proof. destruct m; simpl; lia. Qed.

Lemma Zdigits2_le m d : 0 <= m -> 0 <= d -> m < 2 ^ d -> Zdigits2 m <= d.
Proof.
  intros Hm Hd Hlt. destruct m as [|p|p]; [simpl; lia| |lia].
  rewrite Zdigits2_log2.
  assert (Z.log2 (Zpos p) < d) by (apply Z.log2_lt_pow2; lia). lia.
Qed.

Lemma Zdigits2_exact m d : 0 < d -> 2 ^ (d - 1) <= m < 2 ^ d -> Zdigits2 m = d.
Proof.
  intros Hd [Hlo Hhi].
  assert (0 < m) by (pose proof (Z.pow_pos_nonneg 2 (d - 1)); lia).
  destruct m as [|p|p]; try lia.
  rewrite Zdigits2_log2.
  assert (Z.log2 (Zpos p) = d - 1); [|lia].
  apply Z.log2_unique; [lia|].
  replace (Z.succ (d - 1)) with d by lia. lia.
Qed.

Lemma Zdigits2_bounds p :
  2 ^ (Zdigits2 (Zpos p) - 1) <= Zpos p < 2 ^ Zdigits2 (Zpos p).
Proof.
  rewrite Zdigits2_log2.
  replace (Z.log2 (Z.pos p) + 1 - 1) with (Z.log2 (Zpos p)) by lia.
  replace (Z.log2 (Z.pos p) + 1) with (Z.succ (Z.log2 (Zpos p))) by lia.
  apply Z.log2_spec. lia.
Qed.

Lemma iter_xO_pow m d : Zpos (Pos.iter xO m d) = Zpos m * 2 ^ Zpos d.
Proof.
  induction d using Pos.peano_ind.
  - simpl. lia.
  - rewrite Pos.iter_succ. rewrite Pos2Z.inj_xO, IHd.
    rewrite Pos2Z.inj_succ, Z.pow_succ_r by lia. lia.
Qed.

Lemma shr_1_bounds mrs : 0 <= shr_m mrs -> 0 <= shr_m (shr_1 mrs) <= shr_m mrs.
Proof.
  destruct mrs as [m r s]. simpl. intros Hm.
  destruct m as [|[p|p|]|p]; simpl; lia.
Qed.

Lemma iter_pos_shr_1_bounds n mrs :
  0 <= shr_m mrs -> 0 <= shr_m (SpecFloat.iter_pos shr_1 n mrs) <= shr_m mrs.
Proof.
  revert mrs. induction n as [n IH|n IH|]; intros mrs Hm; simpl.
  - pose proof (shr_1_bounds mrs Hm) as H1.
    pose proof (IH (shr_1 mrs) ltac:(lia)) as H2.
    pose proof (IH (SpecFloat.iter_pos shr_1 n (shr_1 mrs)) ltac:(lia)) as H3. lia.
  - pose proof (IH mrs Hm) as H2.
    pose proof (IH (SpecFloat.iter_pos shr_1 n mrs) ltac:(lia)) as H3. lia.
  - apply shr_1_bounds. exact Hm.
Qed.

Lemma shr_record_of_loc_m m l : shr_m (shr_record_of_loc m l) = m.
Proof. destruct l as [|[]]; reflexivity. Qed.

(** The shift to the exponent of the format: the mantissa does not grow,
    the exponent does not fall and stays within reach of the digits. *)
Lemma shr_fexp_bounds m e l D E :
  0 <= D -> 0 <= m < 2 ^ D -> -1074 <= E -> e <= E ->
  let '(mrs, e') := shr_fexp prec emax m e l in
  0 <= shr_m mrs <= m /\ e <= e' <= E + Z.max 0 (D - 53).
Proof.
  intros HD Hm HE He. unfold shr_fexp, shr.
  pose proof (Zdigits2_le m D ltac:(lia) HD ltac:(lia)) as Hd.
  pose proof (Zdigits2_nonneg m ltac:(lia)) as Hd0.
  unfold fexp, emin, prec, emax.
  destruct (Z.max (Zdigits2 m + e - 53) (3 - 1024 - 53) - e) as [|n|n] eqn:Hn.
  - rewrite shr_record_of_loc_m. lia.
  - pose proof (iter_pos_shr_1_bounds n (shr_record_of_loc m l)) as Hb.
    rewrite shr_record_of_loc_m in Hb. specialize (Hb ltac:(lia)).
    split; [lia|]. lia.
  - rewrite shr_record_of_loc_m. lia.
Qed.

Lemma round_nearest_even_bounds m l : m <= round_nearest_even m l <= m + 1.
Proof. destruct l as [|[]]; simpl; try lia. destruct (Z.even m); lia. Qed.

(** Rounding a mantissa below [2 ^ D] at an exponent of at most [E] gives a
    zero or a finite number, as long as the exponent that the digits can
    push it to is one of the format. *)
Lemma binary_round_aux_bounded sx mx ex lx D L E E2 :
  0 <= D -> 0 <= mx < 2 ^ D -> L <= ex <= E -> -1074 <= E ->
  E + Z.max 0 (D - 53) + Z.max 0 (D - 52) <= E2 -> E2 <= 971 ->
  fin_bounded (D + 1) L E2 (binary_round_aux prec emax sx mx ex lx).
Proof.
  intros HD Hm He HE HE2 Hmax. unfold binary_round_aux.
  pose proof (shr_fexp_bounds mx ex lx D E HD Hm HE ltac:(lia)) as H1.
  destruct (shr_fexp prec emax mx ex lx) as [mrs' e'].
  destruct H1 as [Hm' He'].
  pose proof (round_nearest_even_bounds (shr_m mrs') (loc_of_shr_record mrs')) as Hr.
  set (mr := round_nearest_even (shr_m mrs') (loc_of_shr_record mrs')) in *.
  assert (Hpow : 2 ^ (D + 1) = 2 * 2 ^ D) by (rewrite Z.pow_add_r; lia).
  pose proof (shr_fexp_bounds mr e' loc_Exact (D + 1) (E + Z.max 0 (D - 53))
                ltac:(lia) ltac:(lia) ltac:(lia) ltac:(lia)) as H2.
  destruct (shr_fexp prec emax mr e' loc_Exact) as [mrs'' e''].
  destruct H2 as [Hm'' He''].
  destruct (shr_m mrs'') as [|p|p] eqn:Hp; simpl; try lia.
  unfold emax, prec. destruct (Z.leb_spec e'' (1024 - 53)); simpl; lia.
Qed.

(** [float(a)] for a positive [a] below 2^53 is a normal number with a full
    mantissa. *)
Lemma float_of_int_pos a :
  0 < a < 2 ^ 53 ->
  exists m e, float_of_int a = S754_finite false m e
              /\ 2 ^ 52 <= Zpos m < 2 ^ 53 /\ -52 <= e <= 0.
Proof.
  intros [Hlo Hhi]. destruct a as [|p|p]; try lia.
  unfold float_of_int, binary_normalize, binary_round.
  pose proof (Zdigits2_bounds p) as Hd.
  assert (Hd1 : 1 <= Zdigits2 (Zpos p) <= 53).
  { split; [simpl; lia|]. apply Zdigits2_le; lia. }
  set (d := Zdigits2 (Zpos p)) in *.
  change (Zpos (digits2_pos p)) with d.
  assert (Hfexp : fexp prec emax (d + 0) = d - 53).
  { unfold fexp, emin, prec, emax. lia. }
  rewrite Hfexp. unfold shl_align.
  assert (Hmz : exists mz, (match d - 53 - 0 with
                            | Zneg k => (Pos.iter xO p k, d - 53)
                            | _ => (p, 0)
                            end) = (mz, d - 53)
                           /\ Zpos mz = Zpos p * 2 ^ (53 - d)).
  { destruct (d - 53 - 0) as [|k|k] eqn:Hk; try lia.
    - exists p. split; [f_equal; lia|]. replace (53 - d) with 0 by lia. lia.
    - exists (Pos.iter xO p k). split; [reflexivity|].
      rewrite iter_xO_pow. f_equal. f_equal. lia. }
  destruct Hmz as (mz & -> & Hmz).
  assert (Hrange : 2 ^ 52 <= Zpos mz < 2 ^ 53).
  { rewrite Hmz.
    replace (2 ^ 52) with (2 ^ (d - 1) * 2 ^ (53 - d))
      by (rewrite <- Z.pow_add_r by lia; f_equal; lia).
    replace (2 ^ 53) with (2 ^ d * 2 ^ (53 - d))
      by (rewrite <- Z.pow_add_r by lia; f_equal; lia).
    pose proof (Z.pow_pos_nonneg 2 (53 - d) ltac:(lia) ltac:(lia)). nia. }
  assert (Hdz : Zdigits2 (Zpos mz) = 53)
    by (apply Zdigits2_exact; [lia|exact Hrange]).
  exists mz, (d - 53). split; [|split; [exact Hrange|lia]].
  unfold binary_round_aux, shr_fexp.
  rewrite Hdz.
  assert (Hn : fexp prec emax (53 + (d - 53)) - (d - 53) = 0).
  { unfold fexp, emin, prec, emax. lia. }
  rewrite Hn. simpl shr. cbv beta iota. simpl shr_m. simpl round_nearest_even.
  rewrite Hdz, Hn. simpl.
  unfold emax, prec. destruct (Z.leb_spec (d - 53) (1024 - 53)); [reflexivity|lia].
Qed.

(** The quotient of two positive counts below 2^53. *)
Lemma true_div_bounded a b :
  0 < a < 2 ^ 53 -> 0 < b < 2 ^ 53 ->
  exists q, true_div a b = inr q /\ fin_bounded 55 (-105) 2 q.
Proof.
  intros Ha Hb. unfold true_div.
  destruct (Z.eqb_spec b 0) as [->|_]; [lia|].
  destruct (float_of_int_pos a Ha) as (m1 & e1 & -> & Hm1 & He1).
  destruct (float_of_int_pos b Hb) as (m2 & e2 & -> & Hm2 & He2).
  eexists. split; [reflexivity|].
  unfold SFdiv, SFdiv_core_binary.
  rewrite (Zdigits2_exact (Zpos m1) 53) by lia.
  rewrite (Zdigits2_exact (Zpos m2) 53) by lia.
  assert (He' : Z.min (fexp prec emax (53 + e1 - (53 + e2))) (e1 - e2)
                = e1 - e2 - 53).
  { unfold fexp, emin, prec, emax. lia. }
  rewrite He'.
  replace (e1 - e2 - (e1 - e2 - 53)) with 53 by lia.
  pose proof (Z_div_mod (Z.shiftl (Zpos m1) 53) (Zpos m2) ltac:(lia)) as Hdiv.
  destruct (Z.div_eucl (Z.shiftl (Z.pos m1) 53) (Z.pos m2)) as [q r].
  destruct Hdiv as [Heq Hr].
  rewrite Z.shiftl_mul_pow2 in Heq by lia.
  assert (Hq : 0 <= q < 2 ^ 54).
  { change (2 ^ 52) with 4503599627370496 in *.
    change (2 ^ 53) with 9007199254740992 in *.
    change (2 ^ 54) with 18014398509481984. nia. }
  apply (binary_round_aux_bounded _ q (e1 - e2 - 53) _ 54 (-105) (-1) 2); lia.
Qed.

Lemma float_mul_int_100_bounded q :
  fin_bounded 55 (-105) 2 q -> fin_bounded 109 (-151) 67 (float_mul_int q 100).
Proof.
  unfold float_mul_int.
  change (float_of_int 100) with (S754_finite false 7036874417766400 (-46)).
  destruct q as [s|s| |s m e]; try (intros []; fail).
  - intros _. exact I.
  - intros [Hm He]. unfold SFmul.
    apply (binary_round_aux_bounded _ _ _ _ 108 (-151) (-44) 67); lia.
Qed.

Lemma int_of_float_bounded D L E x :
  fin_bounded D L E x -> exists z, int_of_float x = inr z.
Proof.
  destruct x; simpl; intros H; try (destruct H; fail); eexists; reflexivity.
Qed.

(** *** binary64: a count divided by itself *)

(** The quotient of a count by itself is the binary64 number 1. *)
Lemma true_div_same n :
  0 < n < 2 ^ 53 ->
  true_div n n = inr (S754_finite false 4503599627370496 (-52)).
Proof.
  intros Hn. unfold true_div.
  destruct (Z.eqb_spec n 0) as [->|_]; [lia|].
  destruct (float_of_int_pos n Hn) as (m & e & -> & Hm & He).
  unfold mret, res_ret. f_equal.
  unfold SFdiv, SFdiv_core_binary.
  rewrite (Zdigits2_exact (Zpos m) 53) by lia.
  assert (He' : Z.min (fexp prec emax (53 + e - (53 + e))) (e - e) = -53).
  { unfold fexp, emin, prec, emax. lia. }
  rewrite He'.
  replace (e - e - -53) with 53 by lia.
  pose proof (Z_div_mod (Z.shiftl (Zpos m) 53) (Zpos m) ltac:(lia)) as Hdiv.
  destruct (Z.div_eucl (Z.shiftl (Z.pos m) 53) (Z.pos m)) as [q r].
  destruct Hdiv as [Heq Hr].
  rewrite Z.shiftl_mul_pow2 in Heq by lia.
  assert (Hq : q = 2 ^ 53 /\ r = 0).
  { generalize dependent (2 ^ 53). intros K _ _ Heq.
    assert (Hqk : q = K); [|subst q; lia].
    destruct (Z.lt_trichotomy q K) as [Hlt|[Heq'|Hgt]]; [|exact Heq'|]; nia. }
  destruct Hq as [-> ->].
  assert (Hloc : new_location (Zpos m) 0 = loc_Exact).
  { unfold new_location, new_location_even, new_location_odd.
    destruct (IntDef.Z.even (Zpos m)); reflexivity. }
  rewrite Hloc. vm_compute. reflexivity.
Qed.

(** The conversion of an integer of fewer than 54 bits is exact: the
    mantissa of the result is the integer shifted to 53 bits. *)
Lemma binary_round_small s p :
  Zpos p < 2 ^ 53 ->
  exists m e, binary_round prec emax s p 0 = S754_finite s m e
              /\ -52 <= e <= 0 /\ Zpos m = Zpos p * 2 ^ (- e).
Proof.
  intros Hhi. unfold binary_round.
  pose proof (Zdigits2_bounds p) as Hd.
  assert (Hd1 : 1 <= Zdigits2 (Zpos p) <= 53).
  { split; [simpl; lia|]. apply Zdigits2_le; lia. }
  set (d := Zdigits2 (Zpos p)) in *.
  change (Zpos (digits2_pos p)) with d.
  assert (Hfexp : fexp prec emax (d + 0) = d - 53).
  { unfold fexp, emin, prec, emax. lia. }
  rewrite Hfexp. unfold shl_align.
  assert (Hmz : exists mz, (match d - 53 - 0 with
                            | Zneg k => (Pos.iter xO p k, d - 53)
                            | _ => (p, 0)
                            end) = (mz, d - 53)
                           /\ Zpos mz = Zpos p * 2 ^ (53 - d)).
  { destruct (d - 53 - 0) as [|k|k] eqn:Hk; try lia.
    - exists p. split; [f_equal; lia|]. replace (53 - d) with 0 by lia. lia.
    - exists (Pos.iter xO p k). split; [reflexivity|].
      rewrite iter_xO_pow. f_equal. f_equal. lia. }
  destruct Hmz as (mz & -> & Hmz).
  assert (Hrange : 2 ^ 52 <= Zpos mz < 2 ^ 53).
  { rewrite Hmz.
    replace (2 ^ 52) with (2 ^ (d - 1) * 2 ^ (53 - d))
      by (rewrite <- Z.pow_add_r by lia; f_equal; lia).
    replace (2 ^ 53) with (2 ^ d * 2 ^ (53 - d))
      by (rewrite <- Z.pow_add_r by lia; f_equal; lia).
    pose proof (Z.pow_pos_nonneg 2 (53 - d) ltac:(lia) ltac:(lia)). nia. }
  assert (Hdz : Zdigits2 (Zpos mz) = 53)
    by (apply Zdigits2_exact; [lia|exact Hrange]).
  exists mz, (d - 53). split; [|split; [lia|rewrite Hmz; f_equal; f_equal; lia]].
  unfold binary_round_aux, shr_fexp.
  rewrite Hdz.
  assert (Hn : fexp prec emax (53 + (d - 53)) - (d - 53) = 0).
  { unfold fexp, emin, prec, emax. lia. }
  rewrite Hn. simpl shr. cbv beta iota. simpl shr_m. simpl round_nearest_even.
  rewrite Hdz, Hn. simpl.
  unfold emax, prec. destruct (Z.leb_spec (d - 53) (1024 - 53)); [reflexivity|lia].
Qed.

(** [int(float(z))] is [z] for an integer of fewer than 54 bits. *)
Lemma int_of_float_of_int z :
  - 2 ^ 53 < z < 2 ^ 53 ->
  exists x, float_of_int z = x /\ int_of_float x = inr z
            /\ match x with S754_infinity _ | S754_nan => False | _ => True end.
Proof.
  intros Hz. eexists. split; [reflexivity|].
  unfold float_of_int, binary_normalize.
  assert (Hshift : forall s p, Zpos p < 2 ^ 53 ->
            int_of_float (binary_round prec emax s p 0)
            = inr (if s then Z.neg p else Z.pos p)
            /\ match binary_round prec emax s p 0 with
               | S754_infinity _ | S754_nan => False
               | _ => True
               end).
  { intros s p Hp. destruct (binary_round_small s p Hp) as (m & e & -> & He & Hm).
    split; [|exact I]. unfold int_of_float, mret, res_ret. f_equal.
    assert (Ha : match e with
                 | 0 => Z.pos m
                 | Z.pos q => Z.shiftl (Z.pos m) (Z.pos q)
                 | Z.neg q => Z.shiftr (Z.pos m) (Z.pos q)
                 end = Z.pos p).
    { destruct e as [|q|q]; [simpl in Hm; lia|lia|].
      rewrite Z.shiftr_div_pow2 by lia. rewrite Hm.
      change (- Z.neg q) with (Z.pos q).
      apply Z.div_mul. apply Z.pow_nonzero; lia. }
    rewrite Ha. destruct s; reflexivity. }
  destruct z as [|p|p].
  - split; [reflexivity|exact I].
  - apply (Hshift false p). lia.
  - apply (Hshift true p). change (Z.neg p) with (- Z.pos p) in Hz. lia.
Qed.

End PyFacts.

(** ** The add-on *)

Module AddonsFacts.

Import Addons PyFacts.

(** *** Loops *)

Section LoopFacts.
Context {A S : Type}.
Variable body : S -> A -> A * list Event * res S.

Lemma for_each_length st l : length (for_each body st l).1.1 = length l.
Proof.
  revert st. induction l as [|x rest IH]; intros st; simpl; [reflexivity|].
  destruct (body st x) as [[x' ev] [e|st']]; simpl; [reflexivity|].
  specialize (IH st'). destruct (for_each body st' rest) as [[rest' ev'] r'].
  simpl in *. congruence.
Qed.

(** After the loop every item is either as it was or as the body left it. *)
Lemma for_each_lookup st l k x :
  l !! k = Some x ->
  (for_each body st l).1.1 !! k = Some x
  \/ exists st', (for_each body st l).1.1 !! k = Some (body st' x).1.1.
Proof.
  revert st k. induction l as [|y rest IH]; intros st k Hk; [discriminate|].
  simpl. destruct (body st y) as [[y' ev] r] eqn:Hb.
  destruct k as [|k]; simpl in Hk.
  - injection Hk as ->. right. exists st. rewrite Hb.
    destruct r as [e|st']; [reflexivity|].
    destruct (for_each body st' rest) as [[rest' ev'] r']. reflexivity.
  - destruct r as [e|st']; [left; exact Hk|].
    specialize (IH st' k Hk).
    destruct (for_each body st' rest) as [[rest' ev'] r']. exact IH.
Qed.

(** An item that the body leaves as it is, is there after the loop. *)
Lemma for_each_fixed st l k x :
  l !! k = Some x -> (forall st', (body st' x).1.1 = x) ->
  (for_each body st l).1.1 !! k = Some x.
Proof.
  intros Hk Hfix.
  destruct (for_each_lookup st l k x Hk) as [H|[st' H]]; [exact H|].
  rewrite H, Hfix. reflexivity.
Qed.

(** What every run of the body emits, the loop emits. *)
Lemma for_each_events (P : Event -> Prop) st l :
  (forall st' x, Forall P (body st' x).1.2) ->
  Forall P (for_each body st l).1.2.
Proof.
  intros Hbody. revert st. induction l as [|x rest IH]; intros st; simpl.
  - constructor.
  - specialize (Hbody st x).
    destruct (body st x) as [[x' ev] [e|st']]; simpl in *.
    + exact Hbody.
    + specialize (IH st'). destruct (for_each body st' rest) as [[rest' ev'] r'].
      simpl in *. apply Forall_app. split; assumption.
Qed.

(** When the body returns on every item, under an invariant [I] of the
    position and the loop state, the loop returns and every item is as the
    body left it. *)
Lemma for_each_returns (I : nat -> S -> Prop) l :
  forall k0 st,
  I k0 st ->
  (forall j x st, l !! j = Some x -> I (k0 + j) st ->
                  exists st', (body st x).2 = inr st' /\ I (k0 + j + 1) st') ->
  exists st', (for_each body st l).2 = inr st'
  /\ forall j x, l !! j = Some x ->
       exists stj, I (k0 + j) stj
                   /\ (for_each body st l).1.1 !! j = Some (body stj x).1.1.
Proof.
  induction l as [|y rest IH]; intros k0 st HI Hbody; simpl.
  - exists st. split; [reflexivity|]. intros j x Hj. discriminate.
  - destruct (Hbody 0 y st eq_refl) as (st1 & Hr & HI1).
    { replace (k0 + 0) with k0 by lia. exact HI. }
    destruct (body st y) as [[y' ev] r] eqn:Hb. simpl in Hr. subst r.
    destruct (IH (k0 + 0 + 1) st1 HI1) as (st' & Hret & Hitems).
    { intros j x st2 Hj HI2.
      destruct (Hbody (Datatypes.S j) x st2 Hj) as (st3 & H3 & HI3).
      - replace (k0 + Datatypes.S j) with (k0 + 0 + 1 + j) by lia. exact HI2.
      - exists st3. split; [exact H3|].
        replace (k0 + 0 + 1 + j + 1) with (k0 + Datatypes.S j + 1) by lia.
        exact HI3. }
    destruct (for_each body st1 rest) as [[rest' ev'] r'] eqn:Hf. simpl in *.
    exists st'. split; [exact Hret|].
    intros [|j] x Hj; simpl in Hj.
    + injection Hj as ->. exists st. split.
      * replace (k0 + 0) with k0 by lia. exact HI.
      * rewrite Hb. reflexivity.
    + destruct (Hitems j x Hj) as (stj & HIj & Hl).
      exists stj. split; [|exact Hl].
      replace (k0 + Datatypes.S j) with (k0 + 0 + 1 + j) by lia. exact HIj.
Qed.

End LoopFacts.

(** *** [Worker.load_data] *)

Lemma add_json_entry_raised l : forall e, foldl add_json_entry (inl e) l = inl e.
Proof. induction l as [|x l IH]; intros e; simpl; [reflexivity|apply IH]. Qed.

Lemma add_legacy_entry_raised l :
  forall e, foldl add_legacy_entry (inl e) l = inl e.
Proof. induction l as [|x l IH]; intros e; simpl; [reflexivity|apply IH]. Qed.

Lemma entries_match_empty json : entries_match json ∅.
Proof. intros k e H. rewrite lookup_empty in H. discriminate. Qed.

Lemma load_json_fold (l : list JsonEntry) : forall acc data,
  entries_match true acc ->
  foldl add_json_entry (inr acc) l = inr data ->
  entries_match true data.
Proof.
  induction l as [|entry l IH]; intros acc data Hacc; simpl.
  - intros [= <-]. exact Hacc.
  - destruct (j_original entry) as [key|] eqn:Hkey; simpl.
    + apply IH. intros k e. rewrite lookup_insert.
      case_decide as Hk.
      * intros [= <-]. subst k. exists entry. split; [reflexivity|exact Hkey].
      * apply Hacc.
    + unfold raise. rewrite add_json_entry_raised. discriminate.
Qed.

Lemma load_legacy_fold (l : list LegacyEntry) : forall acc data,
  entries_match false acc ->
  foldl add_legacy_entry (inr acc) l = inr data ->
  entries_match false data.
Proof.
  induction l as [|entry l IH]; intros acc data Hacc; simpl.
  - intros [= <-]. exact Hacc.
  - apply IH. intros k e. rewrite lookup_insert.
    case_decide as Hk.
    + intros [= <-]. exists entry. split; [reflexivity|exact Hk].
    + apply Hacc.
Qed.

(** The dictionary that [load_data] returns holds decoded JSON objects for
    a path ending in [.json] and unpickled records otherwise, each under its
    own original text. *)
Lemma load_data_entries fs p data :
  load_data fs (Some p) = inr data -> entries_match (endswith p ".json") data.
Proof.
  unfold load_data, open.
  destruct (endswith p ".json"); destruct (fs !! p) as [file|]; simpl;
    try discriminate.
  - destruct (json_load file) as [e|f]; simpl; [discriminate|].
    apply load_json_fold, entries_match_empty.
  - destruct (pickle_load file) as [e|f]; simpl; [discriminate|].
    apply load_legacy_fold, entries_match_empty.
Qed.

(** The ways in which the load fails. *)
Lemma load_data_no_path fs : load_data fs None = inl AttributeError.
Proof. reflexivity. Qed.

Lemma load_data_missing_file (fs : FileSystem) p :
  fs !! p = None -> load_data fs (Some p) = inl FileNotFoundError.
Proof.
  intros H. unfold load_data, open. rewrite H.
  destruct (endswith p ".json"); reflexivity.
Qed.

Lemma load_data_malformed_json (fs : FileSystem) p file e :
  fs !! p = Some file -> endswith p ".json" = true -> json_load file = inl e ->
  load_data fs (Some p) = inl e.
Proof.
  intros Hf Hj He. unfold load_data, open. rewrite Hj, Hf. simpl.
  rewrite He. reflexivity.
Qed.

Lemma load_data_malformed_pickle (fs : FileSystem) p file e :
  fs !! p = Some file -> endswith p ".json" = false -> pickle_load file = inl e ->
  load_data fs (Some p) = inl e.
Proof.
  intros Hf Hj He. unfold load_data, open. rewrite Hj, Hf. simpl.
  rewrite He. reflexivity.
Qed.

Lemma load_json_returns (l : list JsonEntry) :
  Forall (fun e => is_Some (j_original e)) l ->
  forall acc, exists data, foldl add_json_entry (inr acc) l = inr data.
Proof.
  induction 1 as [|x l [key Hx] _ IH]; intros acc; simpl.
  - exists acc. reflexivity.
  - rewrite Hx. apply IH.
Qed.

Lemma load_data_entry_without_original (fs : FileSystem) p file before entry after :
  fs !! p = Some file -> endswith p ".json" = true ->
  json_load file = inr (before ++ entry :: after) ->
  Forall (fun e => is_Some (j_original e)) before ->
  j_original entry = None ->
  load_data fs (Some p) = inl KeyError.
Proof.
  intros Hf Hj Hl Hbefore Hentry. unfold load_data, open. rewrite Hj, Hf. simpl.
  rewrite Hl. simpl. rewrite foldl_app.
  destruct (load_json_returns before Hbefore ∅) as [data Hdata].
  unfold mret, res_ret. rewrite Hdata. simpl. rewrite Hentry. simpl.
  apply add_json_entry_raised.
Qed.

(** *** The dictionary of [load_data], entry by entry *)

Lemma load_json_fold_lookup (f : list JsonEntry) : forall acc data,
  foldl add_json_entry (inr acc) f = inr data ->
  forall key,
    data !! key
    = match last (filter (fun e => j_original e = Some key) f) with
      | Some e => Some (JsonE e)
      | None => acc !! key
      end.
Proof.
  induction f as [|e f IH]; intros acc data; simpl.
  - intros [= <-] key. reflexivity.
  - destruct (j_original e) as [k0|] eqn:Hk0; simpl.
    2:{ unfold raise. rewrite add_json_entry_raised. discriminate. }
    intros Hfold key. rewrite (IH _ _ Hfold key), filter_cons.
    destruct (decide (j_original e = Some key)) as [Hk|Hk].
    + rewrite last_cons.
      destruct (last (filter (fun e => j_original e = Some key) f));
        [reflexivity|].
      assert (k0 = key) as -> by congruence.
      rewrite lookup_insert_eq. reflexivity.
    + destruct (last (filter (fun e => j_original e = Some key) f));
        [reflexivity|].
      rewrite lookup_insert_ne by congruence. reflexivity.
Qed.

Lemma load_legacy_fold_lookup (f : list LegacyEntry) : forall acc,
  exists data,
    foldl add_legacy_entry (inr acc) f = inr data
    /\ forall key,
         data !! key
         = match last (filter (fun e => l_original_string e = key) f) with
           | Some e => Some (LegacyE e)
           | None => acc !! key
           end.
Proof.
  induction f as [|e f IH]; intros acc; simpl.
  - exists acc. split; reflexivity.
  - destruct (IH (<[l_original_string e := LegacyE e]> acc))
      as (data & Hfold & Hdata).
    exists data. split; [exact Hfold|].
    intros key. rewrite Hdata, filter_cons.
    destruct (decide (l_original_string e = key)) as [Hk|Hk].
    + rewrite last_cons.
      destruct (last (filter (fun e => l_original_string e = key) f));
        [reflexivity|].
      rewrite Hk, lookup_insert_eq. reflexivity.
    + destruct (last (filter (fun e => l_original_string e = key) f));
        [reflexivity|].
      rewrite lookup_insert_ne by exact Hk. reflexivity.
Qed.

Lemma first_without_original (f : list JsonEntry) :
  Exists (fun e => j_original e = None) f ->
  exists before entry after,
    f = before ++ entry :: after
    /\ Forall (fun e => is_Some (j_original e)) before
    /\ j_original entry = None.
Proof.
  induction f as [|e f IH]; intros Hex; [inversion Hex|].
  destruct (j_original e) as [k|] eqn:Hk.
  - apply Exists_cons in Hex as [Hex|Hex]; [congruence|].
    destruct (IH Hex) as (before & entry & after & -> & Hb & He).
    exists (e :: before), entry, after. split; [reflexivity|].
    split; [|exact He]. constructor; [rewrite Hk; eexists; reflexivity|exact Hb].
  - exists [], e, f. split; [reflexivity|]. split; [constructor|exact Hk].
Qed.

(** X1: [load_data] on a file named [*.json] that decodes to a list of
    objects.  When every object has the key ['original'], the dictionary
    holds under each text the last object of the file with that text as its
    ['original'], and nothing else; when some object lacks the key, the
    load raises [KeyError]. *)
Theorem load_data_json_last_entry_wins (fs : FileSystem) p file f :
  fs !! p = Some file -> endswith p ".json" = true ->
  json_load file = inr f ->
  (Forall (fun e => is_Some (j_original e)) f ->
   exists data,
     load_data fs (Some p) = inr data
     /\ forall key,
          data !! key
          = JsonE <$> last (filter (fun e => j_original e = Some key) f))
  /\ (Exists (fun e => j_original e = None) f ->
      load_data fs (Some p) = inl KeyError).
Proof.
  intros Hfile Hjson Hload. split.
  - intros Hall. destruct (load_json_returns f Hall ∅) as [data Hdata].
    exists data. split.
    + unfold load_data, open. rewrite Hjson, Hfile. simpl. rewrite Hload.
      exact Hdata.
    + intros key. rewrite (load_json_fold_lookup f ∅ data Hdata key).
      destruct (last (filter (fun e => j_original e = Some key) f));
        [reflexivity|apply lookup_empty].
  - intros Hex.
    destruct (first_without_original f Hex)
      as (before & entry & after & -> & Hb & He).
    eapply load_data_entry_without_original; eassumption.
Qed.

(** X2: [load_data] on a file with another name that unpickles to a list of
    records: the load returns, and the dictionary holds under each text the
    last record of the file with that text as its [original_string], and
    nothing else. *)
Theorem load_data_pickle_last_entry_wins (fs : FileSystem) p file f :
  fs !! p = Some file -> endswith p ".json" = false ->
  pickle_load file = inr f ->
  exists data,
    load_data fs (Some p) = inr data
    /\ forall key,
         data !! key
         = LegacyE <$> last (filter (fun e => l_original_string e = key) f).
Proof.
  intros Hfile Hjson Hload.
  destruct (load_legacy_fold_lookup f ∅) as (data & Hdata & Hkeys).
  exists data. split.
  - unfold load_data, open. rewrite Hjson, Hfile. simpl. rewrite Hload.
    exact Hdata.
  - intros key. rewrite Hkeys.
    destruct (last (filter (fun e => l_original_string e = key) f));
      [reflexivity|apply lookup_empty].
Qed.

Section Session.

Variable trim_string : string -> string.

(** *** The loop of [Worker.import_data] *)

Lemma emit_progress_item total i it : (emit_progress total i it).1.1 = it.
Proof. unfold emit_progress. destruct (progress_value i total); reflexivity. Qed.

Lemma emit_progress_events total i it :
  Forall is_progress (emit_progress total i it).1.2.
Proof.
  unfold emit_progress. destruct (progress_value i total) as [e|p]; simpl.
  - constructor.
  - repeat constructor. exists p. reflexivity.
Qed.

(** The progress computation returns for a count and a total below 2^53. *)
Lemma progress_value_returns i total :
  (0 <= i)%Z -> (i + 1 < 2 ^ 53)%Z -> (0 < total < 2 ^ 53)%Z ->
  exists p, progress_value i total = inr p.
Proof.
  intros Hi Hi' Ht. unfold progress_value.
  destruct (true_div_bounded (i + 1) total ltac:(lia) Ht) as (q & -> & Hq).
  simpl. eapply int_of_float_bounded, float_mul_int_100_bounded, Hq.
Qed.

Lemma emit_progress_returns total i it :
  (0 < total < 2 ^ 53)%Z -> (0 <= i)%Z -> (i + 1 < 2 ^ 53)%Z ->
  (emit_progress total i it).2 = inr (i + 1)%Z.
Proof.
  intros Ht Hi Hi'. unfold emit_progress.
  destruct (progress_value_returns i total Hi Hi' Ht) as [p ->]. reflexivity.
Qed.

(** The body leaves the item as [import_item] says, whatever the count and
    the total are and whether or not the progress computation raises. *)
Lemma import_body_item data total json i it :
  (import_body trim_string data total json i it).1.1
  = import_item trim_string data json it.
Proof.
  unfold import_body, import_item. case_bool_decide; [|apply emit_progress_item].
  destruct (reconcile trim_string data json it) as [e|it'].
  - destruct e; reflexivity.
  - apply emit_progress_item.
Qed.

Lemma import_item_complete data json it :
  status it.2 = TranslationComplete -> import_item trim_string data json it = it.
Proof.
  intros H. unfold import_item.
  rewrite bool_decide_eq_false_2; [reflexivity|]. intros Hn. exact (Hn H).
Qed.

(** After [import_data] an item is as it was, or as [import_item] says. *)
Lemma import_data_lookup data total json items k it :
  items !! k = Some it ->
  (import_data trim_string data total json items).1.1 !! k = Some it
  \/ (import_data trim_string data total json items).1.1 !! k
     = Some (import_item trim_string data json it).
Proof.
  intros Hk. unfold import_data.
  destruct (for_each_lookup (import_body trim_string data total json) 0%Z
              items k it Hk) as [H|[i H]]; [left; exact H|right].
  rewrite H, import_body_item. reflexivity.
Qed.

Lemma import_data_events data total json items :
  Forall is_progress (import_data trim_string data total json items).1.2.
Proof.
  unfold import_data. apply for_each_events. intros i it. unfold import_body.
  case_bool_decide; [|apply emit_progress_events].
  destruct (reconcile trim_string data json it) as [e|it'].
  - destruct e; constructor.
  - apply emit_progress_events.
Qed.

(** On a dictionary of the kind of the format, the [try] block raises
    nothing but [KeyError]. *)
Lemma reconcile_error data json it e :
  entries_match json data ->
  reconcile trim_string data json it = inl e -> e = KeyError.
Proof.
  intros Hdata. destruct it as [ti s]. unfold reconcile, getitem.
  destruct (data !! original_string s) as [entry|] eqn:Hl; simpl.
  2:{ destruct json; simpl; intros [= <-]; reflexivity. }
  specialize (Hdata _ _ Hl).
  destruct json.
  - destruct Hdata as (j & -> & _). simpl.
    destruct (j_string j) as [t|]; simpl.
    + destruct (negb (String.eqb t (original_string s))); simpl; discriminate.
    + intros [= <-]; reflexivity.
  - destruct Hdata as (l & -> & _). simpl.
    destruct (l_truthy l); simpl; discriminate.
Qed.

Lemma import_body_returns data total json i it :
  entries_match json data ->
  (0 < total < 2 ^ 53)%Z -> (0 <= i)%Z -> (i + 1 < 2 ^ 53)%Z ->
  exists i', (import_body trim_string data total json i it).2 = inr i'
             /\ (i <= i' <= i + 1)%Z.
Proof.
  intros Hdata Ht Hi Hi'. unfold import_body.
  case_bool_decide.
  - destruct (reconcile trim_string data json it) as [e|it'] eqn:Hr.
    + rewrite (reconcile_error _ _ _ _ Hdata Hr). exists i.
      split; [reflexivity|lia].
    + exists (i + 1)%Z. split; [apply emit_progress_returns; assumption|lia].
  - exists (i + 1)%Z. split; [apply emit_progress_returns; assumption|lia].
Qed.

(** With a dictionary of the kind of the format, a positive total, and
    fewer than 2^53 entries and items, the loop of [import_data] reaches
    its end and has run its body on every item. *)
Lemma import_data_returns data total json items :
  entries_match json data ->
  (0 < total < 2 ^ 53)%Z -> (Z.of_nat (length items) < 2 ^ 53)%Z ->
  (exists n, (import_data trim_string data total json items).2 = inr n)
  /\ forall k it, items !! k = Some it ->
       (import_data trim_string data total json items).1.1 !! k
       = Some (import_item trim_string data json it).
Proof.
  intros Hdata Ht Hlen. unfold import_data.
  destruct (for_each_returns (import_body trim_string data total json)
              (fun j i => (0 <= i <= Z.of_nat j)%Z) items 0%nat 0%Z
              ltac:(simpl; lia))
    as (n & Hn & Hitems).
  { intros j x i Hj [Hi0 Hij]. apply lookup_lt_Some in Hj.
    destruct (import_body_returns data total json i x Hdata Ht Hi0 ltac:(lia))
      as (i' & Hr & Hb).
    exists i'. split; [exact Hr|lia]. }
  split; [exists n; exact Hn|].
  intros k it Hk. destruct (Hitems k it Hk) as (i & _ & Hl).
  rewrite Hl, import_body_item. reflexivity.
Qed.

(** With an empty dictionary every item that is not complete is skipped
    and the first complete one divides by zero. *)
Lemma import_body_empty json i it :
  import_body trim_string ∅ 0 json i it
  = (it, [], if is_complete it then inl ZeroDivisionError else inr i).
Proof.
  unfold import_body, is_complete. destruct it as [ti s]. simpl.
  destruct (decide (status s = TranslationComplete)) as [Hc|Hc].
  - rewrite bool_decide_eq_false_2 by (intros Hn; exact (Hn Hc)).
    rewrite bool_decide_eq_true_2 by exact Hc. reflexivity.
  - rewrite bool_decide_eq_true_2 by exact Hc.
    rewrite bool_decide_eq_false_2 by exact Hc.
    unfold reconcile, getitem. rewrite lookup_empty. destruct json; reflexivity.
Qed.

Lemma import_loop_empty json items : forall i,
  for_each (import_body trim_string ∅ 0 json) i items
  = (items, [],
     if existsb is_complete items then inl ZeroDivisionError else inr i).
Proof.
  induction items as [|it items IH]; intros i; simpl; [reflexivity|].
  rewrite import_body_empty. destruct (is_complete it); simpl; [reflexivity|].
  rewrite IH. reflexivity.
Qed.

(** With an empty dictionary no item is written and no progress is emitted;
    the loop raises exactly when the session holds a complete item. *)
Lemma import_data_empty json items :
  import_data trim_string ∅ 0 json items
  = (items, [],
     if existsb is_complete items then inl ZeroDivisionError else inr 0%Z).
Proof. apply import_loop_empty. Qed.

(** *** [Worker.run] *)

(** The items after a load that returned. *)
Lemma run_loaded fs p data items :
  load_data fs (Some p) = inr data ->
  (run trim_string fs (Some p) items).1
  = (import_data trim_string data (Z.of_nat (size data)) (endswith p ".json")
       items).1.1.
Proof.
  intros Hload. unfold run. rewrite Hload. simpl.
  destruct (import_data trim_string data (Z.of_nat (size data))
              (endswith p ".json") items) as [[items' ev] [e|n]]; reflexivity.
Qed.

(** An empty source: nothing is written, and the task ends with the error
    signal exactly when the session holds a complete item. *)
Lemma run_empty fs path items :
  load_data fs (Some path) = inr ∅ ->
  run trim_string fs (Some path) items
  = (items,
     if existsb is_complete items
     then [Emit (SigError ZeroDivisionError); Emit SigFinished]
     else [UpdateStringList; Emit (SigResult (PStr "DB_IMPORTED"));
           Emit SigFinished]).
Proof.
  intros Hload. unfold run. rewrite Hload. simpl.
  rewrite map_size_empty. simpl. rewrite import_data_empty.
  destruct (existsb is_complete items); reflexivity.
Qed.

(** What [Worker.run] emits: progress values, then either the error and
    [finished], or the refresh of the list, the result and [finished]. *)
Lemma run_trace fs path items :
  exists ev, Forall is_progress ev
  /\ ((exists e, (run trim_string fs path items).2
                 = ev ++ [Emit (SigError e); Emit SigFinished])
      \/ (run trim_string fs path items).2
         = ev ++ [UpdateStringList; Emit (SigResult (PStr "DB_IMPORTED"));
                  Emit SigFinished]).
Proof.
  unfold run. destruct (load_data fs path) as [e|data].
  { exists []. split; [constructor|]. left. exists e. reflexivity. }
  destruct (path_endswith path ".json") as [e|json].
  { exists []. split; [constructor|]. left. exists e. reflexivity. }
  pose proof (import_data_events data (Z.of_nat (size data)) json items) as Hev.
  destruct (import_data trim_string data (Z.of_nat (size data)) json items)
    as [[items' ev] [e|n]]; simpl in *; exists ev; (split; [exact Hev|]).
  - left. exists e. reflexivity.
  - right. reflexivity.
Qed.

Lemma size_pos_lookup (data : gmap string Entry) key entry :
  data !! key = Some entry -> (0 < Z.of_nat (size data))%Z.
Proof.
  intros Hl. assert (size data ≠ 0); [|lia].
  apply map_size_non_empty_iff. intros ->. rewrite lookup_empty in Hl.
  discriminate.
Qed.

(** *** [EditorAddon.import_esp] *)

Lemma add_translation_lookup only_edid d s key :
  add_translation only_edid d s !! key
  = if decide (key_of only_edid s = key)
    then Some (default [] (d !! key) ++ [s])
    else d !! key.
Proof.
  unfold add_translation. case_decide as Hk.
  - subst key. destruct (d !! key_of only_edid s) as [l|] eqn:Hl.
    + rewrite lookup_alter_eq, Hl. reflexivity.
    + rewrite lookup_alter_eq, lookup_insert_eq. reflexivity.
  - rewrite lookup_alter_ne by exact Hk.
    destruct (d !! key_of only_edid s); [reflexivity|].
    rewrite lookup_insert_ne by exact Hk. reflexivity.
Qed.

Lemma fold_add_translation_lookup only_edid strings : forall d key,
  foldl (add_translation only_edid) d strings !! key
  = match d !! key, candidates only_edid strings key with
    | None, [] => None
    | o, l => Some (default [] o ++ l)
    end.
Proof.
  unfold candidates.
  induction strings as [|s strings IH]; intros d key; simpl.
  - destruct (d !! key); simpl; [rewrite app_nil_r|]; reflexivity.
  - rewrite IH, add_translation_lookup. rewrite filter_cons.
    case_decide as Hk.
    + destruct (d !! key) as [y|]; simpl; [rewrite <- app_assoc|]; reflexivity.
    + reflexivity.
Qed.

(** The dictionary of [extract_translation_strings] holds, under each key,
    the strings of the plugin with that key, in the order of the plugin,
    and no empty list. *)
Lemma extract_translation_strings_lookup (plugins : Plugins) file only_edid
    strings d key :
  plugins !! file = Some (inr strings) ->
  extract_translation_strings plugins file only_edid = inr d ->
  d !! key = match candidates only_edid strings key with
             | [] => None
             | l => Some l
             end.
Proof.
  unfold extract_translation_strings, extract_strings. intros ->. simpl.
  intros [= <-]. rewrite fold_add_translation_lookup, lookup_empty. reflexivity.
Qed.

Lemma import_esp_body_complete only_edid d u it :
  status it.2 = TranslationComplete ->
  import_esp_body trim_string only_edid d u it = (it, [], inr ()).
Proof.
  destruct it as [ti s]. simpl. intros H. unfold import_esp_body.
  rewrite bool_decide_eq_true_2 by exact H. reflexivity.
Qed.

Lemma import_esp_body_matched (plugins : Plugins) file only_edid strings d u it :
  plugins !! file = Some (inr strings) ->
  extract_translation_strings plugins file only_edid = inr d ->
  import_esp_body trim_string only_edid d u it
  = (esp_item trim_string only_edid strings it, [], inr ()).
Proof.
  intros Hp Hd. destruct it as [ti s].
  unfold import_esp_body, esp_item, matched_translation.
  simpl. case_bool_decide; [reflexivity|].
  destruct (bool_decide (editor_id s = None) && only_edid); [reflexivity|].
  rewrite (extract_translation_strings_lookup _ _ _ _ _ _ Hp Hd).
  destruct (candidates only_edid strings (key_of only_edid s))
    as [|c [|c' cs]]; [reflexivity|reflexivity|].
  unfold pick_translation.
  replace (1 <? length (c :: c' :: cs))%nat with true by reflexivity.
  destruct (filter (fun trans => index trans = index s) (c :: c' :: cs));
    reflexivity.
Qed.

(** [import_esp] on a plugin that the parser reads: every item is as
    [esp_item] says, the loop raises nothing, and the editor is refreshed. *)
Lemma import_esp_items (plugins : Plugins) file files only_edid strings items :
  plugins !! file = Some (inr strings) ->
  import_esp trim_string plugins (Accepted (file :: files)) only_edid items
  = (esp_item trim_string only_edid strings <$> items,
     [UpdateStringList; ChangesSignal], inr ()).
Proof.
  intros Hp. unfold import_esp.
  destruct (extract_translation_strings plugins file only_edid) as [e|d] eqn:Hd.
  { unfold extract_translation_strings, extract_strings in Hd. rewrite Hp in Hd.
    discriminate. }
  assert (Hloop : forall l u,
             for_each (import_esp_body trim_string only_edid d) u l
             = (esp_item trim_string only_edid strings <$> l, [], inr ())).
  { induction l as [|it l IH]; intros u; simpl; [destruct u; reflexivity|].
    rewrite (import_esp_body_matched _ _ _ _ _ u it Hp Hd).
    rewrite IH. reflexivity. }
  rewrite Hloop. reflexivity.
Qed.

(** *** The second pass: [update_gui_with_data] on a text *)

Lemma update_gui_body_str text u it :
  update_gui_body trim_string (PStr text) u it
  = (it, [], if raises_on text it then inl TypeError else inr ()).
Proof.
  destruct it as [ti s]. unfold update_gui_body, raises_on. simpl.
  case_bool_decide; simpl; [|reflexivity].
  destruct (str_contains text (original_string s)); reflexivity.
Qed.

Lemma update_gui_loop_str text : forall items u,
  for_each (update_gui_body trim_string (PStr text)) u items
  = (items, [],
     if existsb (raises_on text) items then inl TypeError else inr ()).
Proof.
  induction items as [|it items IH]; intros u; simpl.
  - destruct u. reflexivity.
  - rewrite update_gui_body_str. destruct (raises_on text it); simpl;
      [reflexivity|].
    rewrite IH. reflexivity.
Qed.

(** Fed a text, the slot writes no item; it raises [TypeError] at the first
    item that is not complete and whose original text occurs in the text,
    and refreshes the editor when there is none. *)
Lemma update_gui_with_data_str text items :
  update_gui_with_data trim_string (PStr text) items
  = if existsb (raises_on text) items
    then (items, [], inl TypeError)
    else (items, [UpdateStringList; ChangesSignal], inr ()).
Proof.
  unfold update_gui_with_data. rewrite update_gui_loop_str.
  destruct (existsb (raises_on text) items); reflexivity.
Qed.

(** The slots write no item as long as every result carries a text. *)
Lemma deliver_items emitted : forall items,
  (forall obj, Emit (SigResult obj) ∈ emitted -> exists text, obj = PStr text) ->
  (deliver trim_string emitted items).1 = items.
Proof.
  induction emitted as [|ev emitted IH]; intros items Htext; [reflexivity|].
  assert (Hrest : (deliver trim_string emitted items).1 = items).
  { apply IH. intros obj Hin. apply Htext. right. exact Hin. }
  destruct ev as [sig| | | | |]; simpl; try exact Hrest.
  assert (Hslot : (slot trim_string sig items).1.1 = items).
  { destruct sig as [|e|obj|p]; try reflexivity.
    destruct (Htext obj ltac:(left)) as [text ->]. simpl.
    rewrite update_gui_with_data_str.
    destruct (existsb (raises_on text) items); reflexivity. }
  destruct (slot trim_string sig items) as [[items' ev'] r]. simpl in Hslot.
  subst items'. destruct (deliver trim_string emitted items) as [items'' ev''].
  exact Hrest.
Qed.

(** *** The JSON rule and the round trip through [export_json] *)

Lemma json_item_complete found it :
  status it.2 = TranslationComplete -> json_item trim_string found it = it.
Proof.
  intros H. unfold json_item. rewrite bool_decide_eq_true_2 by exact H.
  reflexivity.
Qed.

Lemma json_item_incomplete found it :
  status it.2 ≠ TranslationComplete ->
  json_item trim_string found it
  = match found with
    | None => it
    | Some t =>
        if decide (t = original_string it.2) then
          (setText 4 (trim_string (translated_string it.2)) it.1, it.2)
        else
          (setText 4 (trim_string t) it.1,
           set_status TranslationIncomplete (set_translated_string t it.2))
    end.
Proof.
  intros H. unfold json_item. rewrite bool_decide_eq_false_2 by exact H.
  reflexivity.
Qed.

(** On a dictionary of decoded JSON objects, [import_item] is the JSON
    rule. *)
Lemma import_item_json data it :
  entries_match true data ->
  import_item trim_string data true it
  = json_item trim_string (data_string data (original_string it.2)) it.
Proof.
  intros Hdata. destruct it as [ti s]. unfold import_item, data_string.
  destruct (decide (status s = TranslationComplete)) as [Hc|Hc].
  { rewrite json_item_complete by exact Hc.
    rewrite bool_decide_eq_false_2 by (intros Hn; exact (Hn Hc)). reflexivity. }
  rewrite json_item_incomplete by exact Hc.
  rewrite bool_decide_eq_true_2 by exact Hc.
  unfold reconcile, getitem. simpl.
  destruct (data !! original_string s) as [entry|] eqn:Hl; simpl; [|reflexivity].
  destruct (Hdata _ _ Hl) as (e & -> & _). simpl.
  destruct (j_string e) as [t|]; simpl; [|reflexivity].
  destruct (String.eqb_spec t (original_string s)) as [Heq|Hne]; simpl.
  - rewrite decide_True by exact Heq. reflexivity.
  - rewrite decide_False by exact Hne. reflexivity.
Qed.

Lemma json_item_original found it :
  original_string (json_item trim_string found it).2 = original_string it.2.
Proof.
  unfold json_item. case_bool_decide; [reflexivity|].
  destruct found as [t|]; [|reflexivity]. case_decide; reflexivity.
Qed.

(** The JSON rule keeps the status or sets it to [TranslationIncomplete],
    and the latter only with a text other than the original one. *)
Lemma json_item_status found it :
  status (json_item trim_string found it).2 = status it.2
  \/ (status it.2 ≠ TranslationComplete
      /\ status (json_item trim_string found it).2 = TranslationIncomplete
      /\ translated_string (json_item trim_string found it).2
         ≠ original_string it.2).
Proof.
  unfold json_item. case_bool_decide as Hc; [left; reflexivity|].
  destruct found as [t|]; [|left; reflexivity].
  case_decide as Ht; [left; reflexivity|right].
  split; [exact Hc|]. split; [reflexivity|exact Ht].
Qed.

Lemma json_item_complete_iff found it :
  status (json_item trim_string found it).2 ≠ TranslationComplete
  <-> status it.2 ≠ TranslationComplete.
Proof.
  destruct (json_item_status found it) as [H|(H1 & H2 & _)]; rewrite ?H;
    [reflexivity|].
  rewrite H2. split; [intros _; exact H1|discriminate].
Qed.

Lemma json_item_idem found it :
  json_item trim_string found (json_item trim_string found it)
  = json_item trim_string found it.
Proof.
  destruct (decide (status it.2 = TranslationComplete)) as [Hc|Hc].
  { rewrite (json_item_complete found it Hc). apply json_item_complete, Hc. }
  rewrite (json_item_incomplete found it Hc).
  destruct found as [t|]; [|rewrite json_item_incomplete by exact Hc; reflexivity].
  destruct it as [ti s]. simpl in *. case_decide as Ht.
  - rewrite json_item_incomplete by exact Hc. simpl.
    rewrite decide_True by exact Ht.
    unfold setText. rewrite insert_insert_eq. reflexivity.
  - rewrite json_item_incomplete by discriminate. simpl.
    rewrite decide_False by exact Ht.
    unfold setText. rewrite insert_insert_eq. reflexivity.
Qed.

Lemma exported_translation_cons ti s items key :
  exported_translation ((ti, s) :: items) key
  = match exported_translation items key with
    | Some t => Some t
    | None =>
        if decide (status s ≠ TranslationComplete /\ original_string s = key)
        then Some (translated_string s) else None
    end.
Proof.
  unfold exported_translation.
  change (((ti, s) :: items).*2) with (s :: items.*2). rewrite filter_cons.
  generalize (filter (fun s => status s ≠ TranslationComplete
                               /\ original_string s = key) items.*2) as l.
  intros l. case_decide as Hp; [rewrite last_cons|]; destruct (last l);
    reflexivity.
Qed.

Lemma data_string_insert data key e key' :
  data_string (<[key := JsonE e]> data) key'
  = if decide (key = key') then j_string e else data_string data key'.
Proof.
  unfold data_string. rewrite lookup_insert. case_decide; reflexivity.
Qed.

Lemma export_data_cons i ti s items :
  export_data false i ((ti, s) :: items)
  = if bool_decide (status s ≠ TranslationComplete) then
      mkJson (Some i) (Some (type s)) (Some (original_string s))
             (Some (translated_string s))
      :: export_data false (i + 1)%Z items
    else export_data false (i + 1)%Z items.
Proof. reflexivity. Qed.

(** Loading the entries that [export_json] collects: the load returns, the
    dictionary has no more entries than the session has items, and the text
    under a key is the translation exported last under it. *)
Lemma load_export_fold items : forall i acc,
  entries_match true acc ->
  exists data,
    foldl add_json_entry (inr acc) (export_data false i items) = inr data
    /\ entries_match true data
    /\ (size data <= size acc + length items)%nat
    /\ forall key, data_string data key
                   = match exported_translation items key with
                     | Some t => Some t
                     | None => data_string acc key
                     end.
Proof.
  induction items as [|[ti s] items IH]; intros i acc Hacc.
  - exists acc. simpl. split; [reflexivity|]. split; [exact Hacc|].
    split; [lia|]. reflexivity.
  - rewrite export_data_cons, length_cons.
    destruct (decide (status s = TranslationComplete)) as [Hc|Hc].
    + rewrite bool_decide_eq_false_2 by (intros Hn; exact (Hn Hc)).
      destruct (IH (i + 1)%Z acc Hacc) as (data & Hf & Hm & Hs & Hd).
      exists data. split; [exact Hf|]. split; [exact Hm|]. split; [lia|].
      intros key. rewrite Hd, exported_translation_cons.
      destruct (exported_translation items key); [reflexivity|].
      rewrite decide_False; [reflexivity|]. intros [Hn _]. exact (Hn Hc).
    + rewrite bool_decide_eq_true_2 by exact Hc.
      set (e := mkJson (Some i) (Some (type s)) (Some (original_string s))
                       (Some (translated_string s))).
      destruct (IH (i + 1)%Z (<[original_string s := JsonE e]> acc))
        as (data & Hf & Hm & Hs & Hd).
      { intros k entry. rewrite lookup_insert. case_decide as Hk.
        - intros [= <-]. exists e. split; [reflexivity|]. simpl. congruence.
        - apply Hacc. }
      exists data. split; [exact Hf|]. split; [exact Hm|]. split.
      * pose proof (map_size_insert (original_string s) (JsonE e) acc) as Hi.
        destruct (acc !! original_string s); simpl in Hi; unfold id in Hi; lia.
      * intros key. rewrite Hd, exported_translation_cons, data_string_insert.
        destruct (exported_translation items key); [reflexivity|].
        case_decide as Hk.
        -- rewrite decide_True by (split; assumption). reflexivity.
        -- rewrite decide_False; [reflexivity|]. intros [_ Hn]. exact (Hk Hn).
Qed.

Lemma load_exported export_stem fs items :
  exists data,
    load_data (export_json false export_stem items fs)
              (Some (export_stem +:+ ".json")) = inr data
    /\ entries_match true data
    /\ (size data <= length items)%nat
    /\ forall key, data_string data key = exported_translation items key.
Proof.
  destruct (load_export_fold items 0%Z ∅ (entries_match_empty true))
    as (data & Hf & Hm & Hs & Hd).
  exists data. split; [|split; [exact Hm|split]].
  - unfold load_data, export_json, open. rewrite endswith_app, lookup_insert_eq.
    simpl. exact Hf.
  - rewrite map_size_empty in Hs. lia.
  - intros key. rewrite Hd. unfold data_string. rewrite lookup_empty.
    destruct (exported_translation items key); reflexivity.
Qed.

Lemma filter_fmap_preserving {A} (P : A -> Prop) `{!forall x, Decision (P x)}
    (g : A -> A) (l : list A) :
  (forall x, x ∈ l -> (P (g x) <-> P x)) ->
  filter P (g <$> l) = g <$> filter P l.
Proof.
  induction l as [|x l IH]; intros Hg; [reflexivity|].
  rewrite fmap_cons, !filter_cons.
  assert (Hx : P (g x) <-> P x) by (apply Hg; left).
  rewrite IH by (intros y Hy; apply Hg; right; exact Hy).
  destruct (decide (P (g x))) as [H1|H1], (decide (P x)) as [H2|H2];
    try reflexivity; tauto.
Qed.

(** The round trip leaves the exported translations as they are. *)
Lemma exported_translation_roundtrip items key :
  exported_translation (roundtrip_item trim_string items <$> items) key
  = exported_translation items key.
Proof.
  unfold exported_translation at 1.
  rewrite <- list_fmap_compose.
  rewrite (list_fmap_ext _
             ((fun s => (roundtrip_item trim_string items (∅, s)).2) ∘ snd)).
  2:{ intros i [ti s] _. unfold roundtrip_item, json_item. simpl.
      case_bool_decide; [reflexivity|].
      destruct (exported_translation items (original_string s)); [|reflexivity].
      case_decide; reflexivity. }
  rewrite list_fmap_compose.
  rewrite filter_fmap_preserving.
  2:{ intros s _. unfold roundtrip_item.
      rewrite (json_item_original _ (∅, s)).
      pose proof (json_item_complete_iff
                    (exported_translation items (original_string s)) (∅, s)) as H.
      simpl in *. tauto. }
  rewrite fmap_last.
  destruct (last (filter (fun s => status s ≠ TranslationComplete
                                   /\ original_string s = key) items.*2))
    as [s0|] eqn:Hlast.
  - assert (Hs0 : status s0 ≠ TranslationComplete /\ original_string s0 = key).
    { apply last_Some_elem_of in Hlast. apply list_elem_of_filter in Hlast.
      tauto. }
    destruct Hs0 as [Hc Hk].
    assert (Hex : exported_translation items key = Some (translated_string s0)).
    { unfold exported_translation. rewrite Hlast. reflexivity. }
    rewrite Hex. simpl. f_equal. unfold roundtrip_item, json_item. simpl.
    rewrite bool_decide_eq_false_2 by exact Hc. rewrite Hk, Hex.
    case_decide; reflexivity.
  - unfold exported_translation. rewrite Hlast. reflexivity.
Qed.

Lemma roundtrip_item_idem items it :
  roundtrip_item trim_string (roundtrip_item trim_string items <$> items)
                 (roundtrip_item trim_string items it)
  = roundtrip_item trim_string items it.
Proof.
  unfold roundtrip_item at 1. rewrite exported_translation_roundtrip.
  unfold roundtrip_item. rewrite json_item_original. apply json_item_idem.
Qed.

(** The session after [export_json] and the import of the exported file. *)
Lemma export_then_import_items export_stem fs items :
  (Z.of_nat (length items) < 2 ^ 53)%Z ->
  (export_then_import trim_string export_stem fs items).1
  = roundtrip_item trim_string items <$> items.
Proof.
  intros Hlen. unfold export_then_import.
  destruct (load_exported export_stem fs items) as (data & Hload & Hm & Hs & Hd).
  rewrite (run_loaded _ _ _ _ Hload), endswith_app.
  destruct (decide (size data = 0)) as [H0|H0].
  - apply map_size_empty_inv in H0. subst data. rewrite map_size_empty.
    change (Z.of_nat 0) with 0%Z. rewrite import_data_empty. simpl.
    rewrite <- (list_fmap_id items) at 1. apply list_fmap_ext.
    intros i it _. unfold roundtrip_item. rewrite <- Hd.
    unfold data_string. rewrite lookup_empty. unfold json_item.
    case_bool_decide; reflexivity.
  - destruct (import_data_returns data (Z.of_nat (size data)) true items Hm)
      as [_ Hitems]; [lia|exact Hlen|].
    apply list_eq. intros k. rewrite list_lookup_fmap.
    destruct (items !! k) as [it|] eqn:Hk; simpl.
    + etrans; [exact (Hitems _ _ Hk)|]. f_equal.
      rewrite import_item_json by exact Hm. unfold roundtrip_item. rewrite Hd.
      reflexivity.
    + apply lookup_ge_None. apply lookup_ge_None in Hk.
      unfold import_data. rewrite for_each_length. exact Hk.
Qed.

(** *** The worker and its slots together *)

(** The only object that the result signal carries is ["DB_IMPORTED"]. *)
Lemma run_result_text fs path items obj :
  Emit (SigResult obj) ∈ (run trim_string fs path items).2 ->
  obj = PStr "DB_IMPORTED".
Proof.
  intros Hin.
  assert (Htail : forall tail,
             Emit (SigResult obj) ∈ tail ->
             tail = [UpdateStringList; Emit (SigResult (PStr "DB_IMPORTED"));
                     Emit SigFinished]
             \/ (exists e, tail = [Emit (SigError e); Emit SigFinished]) ->
             obj = PStr "DB_IMPORTED").
  { intros tail Ht [->|[e ->]];
      repeat (apply elem_of_cons in Ht as [Ht|Ht]; [try discriminate|]);
      try (apply elem_of_nil in Ht; contradiction).
    injection Ht as ->. reflexivity. }
  destruct (run_trace fs path items) as (ev & Hev & [[e H]|H]);
    rewrite H in Hin; apply elem_of_app in Hin as [Hin|Hin].
  - apply (proj1 (Forall_forall _ _) Hev) in Hin as [p Hp]. discriminate.
  - apply (Htail _ Hin). right. exists e. reflexivity.
  - apply (proj1 (Forall_forall _ _) Hev) in Hin as [p Hp]. discriminate.
  - apply (Htail _ Hin). left. reflexivity.
Qed.

(** After [load_from_db] the items are as the worker left them: the slots
    write none. *)
Lemma load_from_db_items fs path items :
  (load_from_db trim_string fs path items).1.1
  = (run trim_string fs path items).1.
Proof.
  unfold load_from_db.
  pose proof (fun obj => run_result_text fs path items obj) as Htext.
  destruct (run trim_string fs path items) as [items' emitted]. simpl in *.
  pose proof (deliver_items emitted items') as Hd.
  destruct (deliver trim_string emitted items') as [items'' gui]. simpl in *.
  apply Hd. intros obj Hin. exists "DB_IMPORTED". apply Htext, Hin.
Qed.

(** *** The signals and the progress dialog *)

Lemma progress_events ev :
  Forall is_progress ev -> exists ps, ev = (Emit ∘ SigProgress) <$> ps.
Proof.
  induction 1 as [|x ev [p ->] _ [ps ->]].
  - exists []. reflexivity.
  - exists (p :: ps). reflexivity.
Qed.

Lemma deliver_progress ps rest items :
  deliver trim_string (((Emit ∘ SigProgress) <$> ps) ++ rest) items
  = ((deliver trim_string rest items).1,
     (DialogSetValue <$> ps) ++ (deliver trim_string rest items).2).
Proof.
  induction ps as [|p ps IH].
  - simpl. destruct (deliver trim_string rest items). reflexivity.
  - rewrite fmap_cons. 
    change (deliver trim_string
              (((Emit ∘ SigProgress) p :: ((Emit ∘ SigProgress) <$> ps)) ++ rest)
              items)
      with (let '(items'', ev') :=
              deliver trim_string (((Emit ∘ SigProgress) <$> ps) ++ rest) items in
            (items'', [DialogSetValue p] ++ [] ++ ev')).
    rewrite IH. reflexivity.
Qed.

(** A source that is not empty, with fewer than 2^53 entries and items:
    the worker comes to the emission of the result. *)
Lemma run_succeeds fs path data items :
  load_data fs path = inr data -> data ≠ ∅ ->
  (Z.of_nat (size data) < 2 ^ 53)%Z ->
  (Z.of_nat (length items) < 2 ^ 53)%Z ->
  exists ps,
    (run trim_string fs path items).2
    = ((Emit ∘ SigProgress) <$> ps)
      ++ [UpdateStringList; Emit (SigResult (PStr "DB_IMPORTED"));
          Emit SigFinished].
Proof.
  intros Hload Hne Hsize Hlen.
  destruct path as [p|]; [|discriminate].
  pose proof (load_data_entries _ _ _ Hload) as Hdata.
  assert (Hpos : (0 < Z.of_nat (size data))%Z).
  { assert (size data ≠ 0%nat); [|lia].
    intros H0. apply map_size_empty_inv in H0. contradiction. }
  destruct (import_data_returns data (Z.of_nat (size data))
              (endswith p ".json") items Hdata
              ltac:(split; assumption) Hlen) as [[n Hn] _].
  pose proof (import_data_events data (Z.of_nat (size data))
                (endswith p ".json") items) as Hev.
  unfold run. rewrite Hload. simpl.
  destruct (import_data trim_string data (Z.of_nat (size data))
              (endswith p ".json") items) as [[items' ev] r].
  simpl in *. subst r. destruct (progress_events ev Hev) as [ps ->].
  exists ps. reflexivity.
Qed.

(** After a run that emitted the result, the slots have set the dialog to
    every progress value, run [update_gui_with_data] on the text, and
    closed the dialog. *)
Lemma load_from_db_after_result fs path items ps :
  (run trim_string fs path items).2
  = ((Emit ∘ SigProgress) <$> ps)
    ++ [UpdateStringList; Emit (SigResult (PStr "DB_IMPORTED"));
        Emit SigFinished] ->
  (load_from_db trim_string fs path items).1.2
  = (run trim_string fs path items).2
  /\ (load_from_db trim_string fs path items).2
     = (DialogSetValue <$> ps)
       ++ (if existsb (raises_on "DB_IMPORTED")
                      (run trim_string fs path items).1
           then [SlotRaised TypeError]
           else [UpdateStringList; ChangesSignal])
       ++ [DialogSetValue 100; DialogClose; ChangesSignal].
Proof.
  unfold load_from_db.
  destruct (run trim_string fs path items) as [items1 emitted]. simpl.
  intros ->. rewrite deliver_progress. simpl.
  rewrite update_gui_with_data_str.
  destruct (existsb (raises_on "DB_IMPORTED") items1); simpl;
    split; reflexivity.
Qed.

(** What [raises_on] decides. *)
Lemma raises_on_spec text (items : list Item) :
  existsb (raises_on text) items = true
  <-> exists it, it ∈ items /\ status it.2 ≠ TranslationComplete
                 /\ is_substring (original_string it.2) text.
Proof.
  rewrite existsb_exists. split.
  - intros (it & Hin & Hr). exists it. apply list_elem_of_In in Hin.
    unfold raises_on in Hr. apply andb_true_iff in Hr as [Hs Hc].
    apply bool_decide_eq_true in Hs. apply str_contains_spec in Hc. auto.
  - intros (it & Hin & Hs & Hc). exists it.
    split; [apply list_elem_of_In; exact Hin|].
    unfold raises_on. apply andb_true_iff. split.
    + apply bool_decide_eq_true. exact Hs.
    + apply str_contains_spec. exact Hc.
Qed.

(** *** The claims of the specification *)

(** C1: a record whose status is [TranslationComplete] is left as it is,
    with its row, by the loop of [Worker.import_data] (whatever the
    dictionary, the total and the format are, and whether or not the loop
    raises) and by [EditorAddon.import_esp] (whatever the dialog and the
    plugin give). *)
Theorem C1_complete_records_untouched data total_entries json_format
    (plugins : Plugins) dialog only_edid items k it :
  items !! k = Some it ->
  status it.2 = TranslationComplete ->
  (import_data trim_string data total_entries json_format items).1.1 !! k
  = Some it
  /\ (import_esp trim_string plugins dialog only_edid items).1.1 !! k = Some it.
Proof.
  intros Hk Hst. split.
  - unfold import_data. apply for_each_fixed; [exact Hk|].
    intros i. rewrite import_body_item. apply import_item_complete, Hst.
  - unfold import_esp. destruct dialog as [|[|file files]]; try exact Hk.
    destruct (extract_translation_strings plugins file only_edid) as [e|d];
      [exact Hk|].
    pose proof (for_each_fixed (import_esp_body trim_string only_edid d) ()
                  items k it Hk) as Hfix.
    destruct (for_each (import_esp_body trim_string only_edid d) () items)
      as [[items' ev] [e|u]]; simpl in *; apply Hfix;
      intros u'; rewrite import_esp_body_complete by exact Hst; reflexivity.
Qed.

(** C2 (as amended): a record that is not complete finds a decoded JSON
    object under its original text.  If the entry's ['string'] differs from
    the record's original text, the record gets it as its translation and
    [TranslationIncomplete] as its status; if it equals the original text
    the record stays as it is; in both cases the row shows the translation
    of the record.  An entry without ['string'] leaves record and row
    alone.  This is what the loop body does whenever it runs on the record,
    and what [Worker.run] has done to the record after loading a [.json]
    file of fewer than 2^53 entries into a session of fewer than 2^53
    items; the entry's ['original'] is then the record's original text. *)
Theorem C2_json_entry_reconciled data tree_item record e :
  status record ≠ TranslationComplete ->
  data !! original_string record = Some (JsonE e) ->
  let reconciled :=
    match j_string e with
    | Some t =>
        if decide (t ≠ original_string record) then
          (<[4%nat := trim_string t]> tree_item,
           mkString (editor_id record) (form_id record) (index record)
                    (type record) (original_string record) t
                    TranslationIncomplete)
        else
          (<[4%nat := trim_string (translated_string record)]> tree_item,
           record)
    | None => (tree_item, record)
    end in
  (forall total_entries i,
     (import_body trim_string data total_entries true i (tree_item, record)).1.1
     = reconciled)
  /\ forall fs path items k,
       load_data fs (Some path) = inr data ->
       endswith path ".json" = true ->
       (Z.of_nat (size data) < 2 ^ 53)%Z ->
       (Z.of_nat (length items) < 2 ^ 53)%Z ->
       items !! k = Some (tree_item, record) ->
       j_original e = Some (original_string record)
       /\ (run trim_string fs (Some path) items).1 !! k = Some reconciled.
Proof.
  intros Hst Hentry reconciled.
  assert (Hitem : import_item trim_string data true (tree_item, record)
                  = reconciled).
  { unfold import_item, reconciled. simpl.
    rewrite bool_decide_eq_true_2 by exact Hst.
    unfold reconcile, getitem. rewrite Hentry. simpl.
    destruct (j_string e) as [t|]; simpl; [|reflexivity].
    destruct (String.eqb_spec t (original_string record)) as [Heq|Hne]; simpl.
    - rewrite decide_False by (intros Hn; exact (Hn Heq)). reflexivity.
    - rewrite decide_True by exact Hne. reflexivity. }
  split.
  { intros total_entries i. rewrite import_body_item. exact Hitem. }
  intros fs path items k Hload Hjson Hsize Hlen Hk.
  pose proof (load_data_entries _ _ _ Hload) as Hdata. rewrite Hjson in Hdata.
  split.
  { destruct (Hdata _ _ Hentry) as (e' & [= <-] & Ho). exact Ho. }
  rewrite (run_loaded _ _ _ _ Hload), Hjson.
  pose proof (size_pos_lookup _ _ _ Hentry) as Hpos.
  assert (Htot : (0 < Z.of_nat (size data) < 2 ^ 53)%Z).
  { split; [exact Hpos|exact Hsize]. }
  destruct (import_data_returns data (Z.of_nat (size data)) true items
              Hdata Htot Hlen) as [_ Hitems].
  etrans; [exact (Hitems _ _ Hk)|]. f_equal. exact Hitem.
Qed.

(** C7: a record that is not complete finds a truthy unpickled entry
    under its original text.  The record gets the entry's translation and
    the entry's status, and the row shows that translation.  This is what
    the loop body does whenever it runs on the record, and what
    [Worker.run] has done to the record after loading a pickled file of
    fewer than 2^53 entries into a session of fewer than 2^53 items. *)
Theorem C7_legacy_entry_overwrites data tree_item record e :
  status record ≠ TranslationComplete ->
  data !! original_string record = Some (LegacyE e) ->
  l_truthy e = true ->
  let overwritten :=
    (<[4%nat := trim_string (l_translated_string e)]> tree_item,
     mkString (editor_id record) (form_id record) (index record)
              (type record) (original_string record)
              (l_translated_string e) (l_status e)) in
  (forall total_entries i,
     (import_body trim_string data total_entries false i
        (tree_item, record)).1.1
     = overwritten)
  /\ forall fs path items k,
       load_data fs (Some path) = inr data ->
       endswith path ".json" = false ->
       (Z.of_nat (size data) < 2 ^ 53)%Z ->
       (Z.of_nat (length items) < 2 ^ 53)%Z ->
       items !! k = Some (tree_item, record) ->
       (run trim_string fs (Some path) items).1 !! k = Some overwritten.
Proof.
  intros Hst Hentry Htruthy overwritten.
  assert (Hitem : import_item trim_string data false (tree_item, record)
                  = overwritten).
  { unfold import_item, overwritten. simpl.
    rewrite bool_decide_eq_true_2 by exact Hst.
    unfold reconcile, getitem. rewrite Hentry. simpl. rewrite Htruthy.
    reflexivity. }
  split.
  { intros total_entries i. rewrite import_body_item. exact Hitem. }
  intros fs path items k Hload Hjson Hsize Hlen Hk.
  pose proof (load_data_entries _ _ _ Hload) as Hdata. rewrite Hjson in Hdata.
  rewrite (run_loaded _ _ _ _ Hload), Hjson.
  pose proof (size_pos_lookup _ _ _ Hentry) as Hpos.
  assert (Htot : (0 < Z.of_nat (size data) < 2 ^ 53)%Z).
  { split; [exact Hpos|exact Hsize]. }
  destruct (import_data_returns data (Z.of_nat (size data)) false items
              Hdata Htot Hlen) as [_ Hitems].
  etrans; [exact (Hitems _ _ Hk)|]. f_equal. exact Hitem.
Qed.

(** C8: when [load_data] raises (no path, no such file, content that the
    decoder refuses, an entry without ['original']), the worker emits the
    error signal with that exception and then [finished], and nothing else;
    the items are as they were, also after the slots have run. *)
Theorem C8_load_failure_leaves_records fs path items e :
  load_data fs path = inl e ->
  run trim_string fs path items
  = (items, [Emit (SigError e); Emit SigFinished])
  /\ load_from_db trim_string fs path items
     = (items, [Emit (SigError e); Emit SigFinished],
        [DialogSetValue 100; DialogClose; ChangesSignal]).
Proof.
  intros Hload. unfold load_from_db, run. rewrite Hload. split; reflexivity.
Qed.

(** C3, where the code departs from it: a source of one entry and a session
    of three records, the first found in the source, the second not, the
    third complete.  Nothing is emitted for the second record, and the
    values emitted are 100 and 200: the percentage is taken against the
    number of entries of the source, not the number of records. *)
Theorem C3_progress_beyond_100 :
  let fs : FileSystem :=
    {[ "db.json" :=
         mkFile (inr [mkJson (Some 0%Z) (Some "WEAP") (Some "Iron Sword")
                             (Some "Eisenschwert")])
                (inl UnpicklingError) ]} in
  let found := mkString None None None "WEAP" "Iron Sword" "" Untranslated in
  let missing := mkString None None None "WEAP" "Steel Sword" "" Untranslated in
  let done := mkString None None None "WEAP" "Iron Dagger" "Eisendolch"
                TranslationComplete in
  (run trim_string fs (Some "db.json")
       [(∅, found); (∅, missing); (∅, done)]).2
  = [Emit (SigProgress 100); Emit (SigProgress 200); UpdateStringList;
     Emit (SigResult (PStr "DB_IMPORTED")); Emit SigFinished].
Proof. vm_compute. reflexivity. Qed.

(** C4, where the code departs from it: an empty JSON array and a session
    of one complete record.  The load returns the empty dictionary, the
    record is not written, no progress is emitted, and the task ends with
    the error signal carrying [ZeroDivisionError] ([run_empty] has the
    general statement). *)
Theorem C4_empty_source_with_complete_record :
  let fs : FileSystem :=
    {[ "empty.json" := mkFile (inr []) (inl UnpicklingError) ]} in
  let done := mkString None None None "WEAP" "Iron Sword" "Eisenschwert"
                TranslationComplete in
  load_data fs (Some "empty.json") = inr ∅
  /\ run trim_string fs (Some "empty.json") [(∅, done)]
     = ([(∅, done)], [Emit (SigError ZeroDivisionError); Emit SigFinished]).
Proof. split; vm_compute; reflexivity. Qed.

(** C5 (as amended): the round trip through [export_json] and the import
    of the exported file.  A record whose status is [TranslationIncomplete]
    or [TranslationComplete] keeps its status.  On a session of fewer than
    2^53 items, every item comes out as [roundtrip_item] says; a record
    with another status becomes [TranslationIncomplete] exactly when the
    translation exported last under its original text differs from that
    text; and a second round trip changes nothing. *)
Theorem C5_round_trip export_stem fs items :
  let items' := (export_then_import trim_string export_stem fs items).1 in
  (forall k it, items !! k = Some it -> status it.2 ≠ Untranslated ->
     exists it', items' !! k = Some it' /\ status it'.2 = status it.2)
  /\ ((Z.of_nat (length items) < 2 ^ 53)%Z ->
      items' = roundtrip_item trim_string items <$> items
      /\ (forall k it, items !! k = Some it -> status it.2 = Untranslated ->
            exists it', items' !! k = Some it'
              /\ status it'.2
                 = match exported_translation items (original_string it.2) with
                   | Some t => if decide (t = original_string it.2)
                               then Untranslated else TranslationIncomplete
                   | None => Untranslated
                   end)
      /\ forall fs',
           (export_then_import trim_string export_stem fs' items').1 = items').
Proof.
  intros items'. split.
  - intros k it Hk Hst. unfold items', export_then_import.
    destruct (load_exported export_stem fs items) as (data & Hload & Hm & _).
    rewrite (run_loaded _ _ _ _ Hload), endswith_app.
    destruct (import_data_lookup data (Z.of_nat (size data)) true items k it Hk)
      as [H|H]; eexists; (split; [exact H|]); [reflexivity|].
    rewrite import_item_json by exact Hm.
    destruct (json_item_status (data_string data (original_string it.2)) it)
      as [H'|(Hc & H' & _)]; [exact H'|].
    rewrite H'. destruct (status it.2); congruence.
  - intros Hlen.
    assert (Hitems : items' = roundtrip_item trim_string items <$> items)
      by (apply export_then_import_items; exact Hlen).
    split; [exact Hitems|]. split.
    + intros k it Hk Hst. exists (roundtrip_item trim_string items it).
      split; [rewrite Hitems, list_lookup_fmap, Hk; reflexivity|].
      unfold roundtrip_item. rewrite json_item_incomplete by congruence.
      destruct (exported_translation items (original_string it.2)) as [t|];
        [|exact Hst].
      case_decide; [exact Hst|reflexivity].
    + intros fs'. rewrite export_then_import_items.
      * rewrite Hitems at 2 3. rewrite <- list_fmap_compose.
        apply list_fmap_ext. intros i it _. simpl. rewrite Hitems.
        apply roundtrip_item_idem.
      * rewrite Hitems, length_fmap. exact Hlen.
Qed.


(** C9: the only object that the result signal of [Worker.run] carries is
    the text ["DB_IMPORTED"], and a run that emits no error emits it;
    [load_from_db] connects the signal to [update_gui_with_data]; on that
    text the slot writes no item, raises [TypeError] when some record that
    is not complete has an original text that occurs in ["DB_IMPORTED"],
    and otherwise goes through all records and refreshes the editor.  After
    [load_from_db] the items are as the worker left them.  For a source
    that is not empty, with fewer than 2^53 entries and items, the worker
    does emit the result after its progress values, the slots receive
    what the worker emitted, and the second pass ends in the [TypeError]
    exactly when a record that the worker left incomplete has an original
    text that occurs in the result text; the dialog is closed either
    way. *)
Theorem C9_result_string_second_pass fs path items :
  (forall obj, Emit (SigResult obj) ∈ (run trim_string fs path items).2 ->
               obj = PStr "DB_IMPORTED")
  /\ slot trim_string (SigResult (PStr "DB_IMPORTED")) items
     = update_gui_with_data trim_string (PStr "DB_IMPORTED") items
  /\ (update_gui_with_data trim_string (PStr "DB_IMPORTED") items).1.1 = items
  /\ ((exists it, it ∈ items /\ status it.2 ≠ TranslationComplete
                  /\ is_substring (original_string it.2) "DB_IMPORTED") ->
      (update_gui_with_data trim_string (PStr "DB_IMPORTED") items).2
      = inl TypeError)
  /\ ((forall it, it ∈ items ->
                  status it.2 = TranslationComplete
                  \/ ~ is_substring (original_string it.2) "DB_IMPORTED") ->
      update_gui_with_data trim_string (PStr "DB_IMPORTED") items
      = (items, [UpdateStringList; ChangesSignal], inr ()))
  /\ (load_from_db trim_string fs path items).1.1
     = (run trim_string fs path items).1
  /\ ((forall e, Emit (SigError e) ∉ (run trim_string fs path items).2) ->
      Emit (SigResult (PStr "DB_IMPORTED"))
      ∈ (run trim_string fs path items).2)
  /\ (forall data,
        load_data fs path = inr data -> data ≠ ∅ ->
        (Z.of_nat (size data) < 2 ^ 53)%Z ->
        (Z.of_nat (length items) < 2 ^ 53)%Z ->
        let items' := (run trim_string fs path items).1 in
        exists ps,
          (run trim_string fs path items).2
          = ((Emit ∘ SigProgress) <$> ps)
            ++ [UpdateStringList; Emit (SigResult (PStr "DB_IMPORTED"));
                Emit SigFinished]
          /\ (load_from_db trim_string fs path items).1.2
             = (run trim_string fs path items).2
          /\ ((exists it, it ∈ items' /\ status it.2 ≠ TranslationComplete
                          /\ is_substring (original_string it.2)
                                          "DB_IMPORTED") ->
              (load_from_db trim_string fs path items).2
              = (DialogSetValue <$> ps)
                ++ [SlotRaised TypeError; DialogSetValue 100; DialogClose;
                    ChangesSignal])
          /\ ((forall it, it ∈ items' ->
                          status it.2 = TranslationComplete
                          \/ ~ is_substring (original_string it.2)
                                            "DB_IMPORTED") ->
              (load_from_db trim_string fs path items).2
              = (DialogSetValue <$> ps)
                ++ [UpdateStringList; ChangesSignal; DialogSetValue 100;
                    DialogClose; ChangesSignal])).
Proof.
  split; [intros obj; apply run_result_text|]. split; [reflexivity|].
  rewrite update_gui_with_data_str.
  pose proof (raises_on_spec "DB_IMPORTED" items) as Hspec.
  split; [destruct (existsb (raises_on "DB_IMPORTED") items); reflexivity|].
  split.
  { intros Hex. apply Hspec in Hex. rewrite Hex. reflexivity. }
  split.
  { intros Hall.
    destruct (existsb (raises_on "DB_IMPORTED") items) eqn:Hex; [|reflexivity].
    destruct (proj1 Hspec eq_refl) as (it & Hin & Hs & Hc).
    destruct (Hall it Hin) as [H|H]; contradiction. }
  split; [apply load_from_db_items|]. split.
  { intros Hno. destruct (run_trace fs path items) as (ev & _ & [[e H]|H]);
      rewrite H in *.
    - exfalso. apply (Hno e). apply elem_of_app. right. left.
    - apply elem_of_app. right. right. left. }
  intros data Hload Hne Hsize Hlen items'.
  destruct (run_succeeds fs path data items Hload Hne Hsize Hlen) as [ps Hrun].
  destruct (load_from_db_after_result fs path items ps Hrun) as [Hem Hgui].
  pose proof (raises_on_spec "DB_IMPORTED" items') as Hspec'.
  exists ps. split; [exact Hrun|]. split; [exact Hem|]. split.
  - intros Hex. apply Hspec' in Hex. rewrite Hgui. unfold items' in Hex.
    rewrite Hex. reflexivity.
  - intros Hall. rewrite Hgui.
    destruct (existsb (raises_on "DB_IMPORTED")
                      (run trim_string fs path items).1) eqn:Hex;
      [|reflexivity].
    destruct (proj1 Hspec' Hex) as (it & Hin & Hs & Hc).
    destruct (Hall it Hin) as [H|H]; contradiction.
Qed.

(** *** Further properties of the add-on *)

(** *** What the imports leave alone *)

Lemma same_string_refl s : same_string s s.
Proof. repeat split. Qed.

Lemma same_row_refl ti : same_row ti ti.
Proof. intros c _. reflexivity. Qed.

Lemma same_row_setText text ti : same_row (setText 4 text ti) ti.
Proof. intros c Hc. unfold setText. apply lookup_insert_ne. congruence. Qed.

Lemma reconcile_same data json it it' :
  reconcile trim_string data json it = inr it' ->
  same_string it'.2 it.2 /\ same_row it'.1 it.1.
Proof.
  destruct it as [ti s]. unfold reconcile.
  destruct (getitem data (original_string s)) as [e|entry]; simpl.
  { destruct json; discriminate. }
  destruct json; simpl.
  - destruct (getitem_string entry) as [e|t]; simpl; [discriminate|].
    destruct (negb (String.eqb t (original_string s))); simpl;
      intros [= <-]; simpl; (split; [repeat split|apply same_row_setText]).
  - destruct (truthy entry); simpl.
    + destruct (attr_translated_string entry) as [e|t]; simpl; [discriminate|].
      destruct (attr_status entry) as [e|st]; simpl; [discriminate|].
      intros [= <-]; simpl. split; [repeat split|apply same_row_setText].
    + intros [= <-]; simpl. split; [repeat split|apply same_row_setText].
Qed.

Lemma import_item_same data json it :
  same_string (import_item trim_string data json it).2 it.2
  /\ same_row (import_item trim_string data json it).1 it.1.
Proof.
  unfold import_item. case_bool_decide.
  - destruct (reconcile trim_string data json it) as [e|it'] eqn:Hr.
    + split; [apply same_string_refl|apply same_row_refl].
    + apply (reconcile_same _ _ _ _ Hr).
  - split; [apply same_string_refl|apply same_row_refl].
Qed.

Lemma import_esp_body_same only_edid d u it :
  same_string (import_esp_body trim_string only_edid d u it).1.1.2 it.2
  /\ same_row (import_esp_body trim_string only_edid d u it).1.1.1 it.1.
Proof.
  destruct it as [ti s]. unfold import_esp_body.
  assert (Hsame : same_string (ti, s).2 (ti, s).2 /\ same_row (ti, s).1 (ti, s).1).
  { split; [apply same_string_refl|apply same_row_refl]. }
  case_bool_decide; [exact Hsame|].
  destruct (bool_decide (editor_id s = None) && only_edid); [exact Hsame|].
  destruct (d !! key_of only_edid s) as [cs|]; [|exact Hsame].
  destruct (pick_translation cs s) as [e|[c|]]; try exact Hsame.
  simpl. split; [repeat split|apply same_row_setText].
Qed.

Lemma run_lookup fs path items k it :
  items !! k = Some it ->
  (run trim_string fs path items).1 !! k = Some it
  \/ exists data json,
       load_data fs path = inr data
       /\ path_endswith path ".json" = inr json
       /\ (run trim_string fs path items).1 !! k
          = Some (import_item trim_string data json it).
Proof.
  intros Hk. unfold run.
  destruct (load_data fs path) as [e|data]; [left; exact Hk|].
  destruct (path_endswith path ".json") as [e|json]; [left; exact Hk|].
  pose proof (import_data_lookup data (Z.of_nat (size data)) json
                items k it Hk) as H.
  destruct (import_data trim_string data (Z.of_nat (size data)) json items)
    as [[items' ev] [e|n]]; simpl in *;
    (destruct H as [H|H]; [left; exact H|right; eauto]).
Qed.

Lemma run_length fs path items :
  length (run trim_string fs path items).1 = length items.
Proof.
  unfold run.
  destruct (load_data fs path) as [e|data]; [reflexivity|].
  destruct (path_endswith path ".json") as [e|json]; [reflexivity|].
  pose proof (for_each_length
                (import_body trim_string data (Z.of_nat (size data)) json)
                0%Z items) as H.
  unfold import_data.
  destruct (for_each _ 0%Z items) as [[items' ev] [e|n]]; exact H.
Qed.

Lemma import_esp_lookup (plugins : Plugins) dialog only_edid items k it :
  items !! k = Some it ->
  (import_esp trim_string plugins dialog only_edid items).1.1 !! k = Some it
  \/ exists d u,
       (import_esp trim_string plugins dialog only_edid items).1.1 !! k
       = Some (import_esp_body trim_string only_edid d u it).1.1.
Proof.
  intros Hk. unfold import_esp.
  destruct dialog as [|[|file files]]; try (left; exact Hk).
  destruct (extract_translation_strings plugins file only_edid) as [e|d];
    [left; exact Hk|].
  pose proof (for_each_lookup (import_esp_body trim_string only_edid d) ()
                items k it Hk) as H.
  destruct (for_each (import_esp_body trim_string only_edid d) () items)
    as [[items' ev] [e|u]]; simpl in *;
    (destruct H as [H|[u' H]]; [left; exact H|right; eauto]).
Qed.

Lemma import_esp_length (plugins : Plugins) dialog only_edid items :
  length (import_esp trim_string plugins dialog only_edid items).1.1
  = length items.
Proof.
  unfold import_esp.
  destruct dialog as [|[|file files]]; try reflexivity.
  destruct (extract_translation_strings plugins file only_edid) as [e|d];
    [reflexivity|].
  pose proof (for_each_length (import_esp_body trim_string only_edid d) ()
                items) as H.
  destruct (for_each (import_esp_body trim_string only_edid d) () items)
    as [[items' ev] [e|u]]; exact H.
Qed.

(** X3: whatever the file, the plugin and the dialogs give, and whether
    or not an exception ends them, [load_from_db] (the worker and its
    slots), [import_json] and [import_esp] leave the session with the same
    number of items in the same order; of a record they change at most the
    translation and the status, and of a row at most the text of
    column 4. *)
Theorem imports_keep_identity fs path (plugins : Plugins) dialog only_edid
    items :
  same_session items (load_from_db trim_string fs path items).1.1
  /\ same_session items (import_json trim_string fs dialog items).1.1
  /\ same_session items
       (import_esp trim_string plugins dialog only_edid items).1.1.
Proof.
  assert (Hsame : same_session items items).
  { split; [reflexivity|]. intros k it Hk. exists it.
    split; [exact Hk|]. split; [apply same_string_refl|apply same_row_refl]. }
  assert (Hdb : forall path',
            same_session items (load_from_db trim_string fs path' items).1.1).
  { intros path'. rewrite load_from_db_items. split; [apply run_length|].
    intros k it Hk.
    destruct (run_lookup fs path' items k it Hk)
      as [H|(data & json & _ & _ & H)]; eexists; (split; [exact H|]).
    - split; [apply same_string_refl|apply same_row_refl].
    - apply import_item_same. }
  split; [apply Hdb|]. split.
  { unfold import_json.
    destruct dialog as [|[|selected_file files]];
      [exact Hsame|exact Hsame|apply Hdb]. }
  split; [apply import_esp_length|].
  intros k it Hk.
  destruct (import_esp_lookup plugins dialog only_edid items k it Hk)
    as [H|(d & u & H)]; eexists; (split; [exact H|]).
  - split; [apply same_string_refl|apply same_row_refl].
  - apply import_esp_body_same.
Qed.

Lemma load_data_json_member fs path data key e :
  load_data fs (Some path) = inr data -> endswith path ".json" = true ->
  data !! key = Some (JsonE e) ->
  exists file f,
    fs !! path = Some file /\ json_load file = inr f
    /\ e ∈ f /\ j_original e = Some key.
Proof.
  unfold load_data, open. intros Hload Hjson. rewrite Hjson in Hload.
  destruct (fs !! path) as [file|] eqn:Hfile; [|discriminate]. simpl in Hload.
  destruct (json_load file) as [err|f] eqn:Hf; [discriminate|]. simpl in Hload.
  rewrite (load_json_fold_lookup f ∅ data Hload key).
  destruct (last (filter (fun e => j_original e = Some key) f)) as [e'|] eqn:Hl;
    [|rewrite lookup_empty; discriminate].
  intros [= <-]. exists file, f. split; [reflexivity|]. split; [exact Hf|].
  apply last_Some_elem_of in Hl. apply list_elem_of_filter in Hl. tauto.
Qed.

(** X4: the import of a file named [*.json], on every path through
    [load_from_db].  A record comes out as it was, or (not being complete)
    with the status [TranslationIncomplete] and a translation that is not
    its original text and that is the ['string'] of an object of the file
    whose ['original'] is the record's original text.  So the import never
    makes a record complete and never takes one back to untranslated. *)
Theorem json_import_record fs path items k it :
  endswith path ".json" = true -> items !! k = Some it ->
  exists it',
    (load_from_db trim_string fs (Some path) items).1.1 !! k = Some it'
    /\ (it'.2 = it.2
        \/ (status it.2 ≠ TranslationComplete
            /\ status it'.2 = TranslationIncomplete
            /\ translated_string it'.2 ≠ original_string it.2
            /\ exists file f e,
                 fs !! path = Some file /\ json_load file = inr f /\ e ∈ f
                 /\ j_original e = Some (original_string it.2)
                 /\ j_string e = Some (translated_string it'.2))).
Proof.
  intros Hjson Hk. rewrite load_from_db_items.
  destruct (run_lookup fs (Some path) items k it Hk)
    as [H|(data & json & Hload & Hfmt & H)];
    eexists; (split; [exact H|]); [left; reflexivity|].
  simpl in Hfmt. rewrite Hjson in Hfmt. injection Hfmt as <-.
  pose proof (load_data_entries _ _ _ Hload) as Hdata. rewrite Hjson in Hdata.
  rewrite import_item_json by exact Hdata.
  unfold json_item, data_string. case_bool_decide as Hc; [left; reflexivity|].
  destruct (data !! original_string it.2) as [[e|e]|] eqn:Hl;
    try (left; reflexivity).
  destruct (j_string e) as [t|] eqn:Ht; [|left; reflexivity].
  case_decide as Hne; [left; reflexivity|right]. simpl.
  split; [exact Hc|]. split; [reflexivity|]. split; [exact Hne|].
  destruct (load_data_json_member _ _ _ _ _ Hload Hjson Hl)
    as (file & f & Hfile & Hf & Hin & Ho).
  exists file, f, e. auto.
Qed.

(** *** [import_esp], once more *)

Lemma extract_strings_lookup (plugins : Plugins) file strings :
  extract_strings plugins file = inr strings ->
  plugins !! file = Some (inr strings).
Proof.
  unfold extract_strings. destruct (plugins !! file) as [r|]; [|discriminate].
  intros ->. reflexivity.
Qed.

(** X5: [import_esp] raises only what the parser of the plugin raises, and
    then before it has touched any item: the subscript
    [translation_strings[key][0]] cannot fail, because no list of the
    dictionary is empty.  When the dialog is rejected or gives no file,
    nothing happens; when the parser returns, the loop goes through all
    items and the editor is refreshed once. *)
Theorem import_esp_outcome (plugins : Plugins) dialog only_edid items :
  match dialog with
  | Accepted (file :: _) =>
      match extract_strings plugins file with
      | inl e =>
          import_esp trim_string plugins dialog only_edid items
          = (items, [], inl e)
      | inr strings =>
          import_esp trim_string plugins dialog only_edid items
          = (esp_item trim_string only_edid strings <$> items,
             [UpdateStringList; ChangesSignal], inr ())
      end
  | _ =>
      import_esp trim_string plugins dialog only_edid items
      = (items, [], inr ())
  end.
Proof.
  destruct dialog as [|[|file files]]; try reflexivity.
  destruct (extract_strings plugins file) as [e|strings] eqn:Hp.
  - unfold import_esp, extract_translation_strings. rewrite Hp. reflexivity.
  - apply import_esp_items, extract_strings_lookup, Hp.
Qed.

Lemma matched_translation_same only_edid strings a b :
  same_string a b ->
  (status a = TranslationComplete <-> status b = TranslationComplete) ->
  matched_translation only_edid strings a
  = matched_translation only_edid strings b.
Proof.
  intros (He & Hf & Hi & Ht & _) Hst. unfold matched_translation, key_of.
  rewrite He, Hf, Hi, Ht.
  destruct (decide (status b = TranslationComplete)) as [Hb|Hb].
  - rewrite (bool_decide_eq_true_2 (status a = TranslationComplete)) by tauto.
    rewrite (bool_decide_eq_true_2 (status b = TranslationComplete)) by tauto.
    reflexivity.
  - rewrite (bool_decide_eq_false_2 (status a = TranslationComplete)) by tauto.
    rewrite (bool_decide_eq_false_2 (status b = TranslationComplete)) by tauto.
    reflexivity.
Qed.

Lemma matched_translation_complete only_edid strings s :
  status s = TranslationComplete ->
  matched_translation only_edid strings s = None.
Proof.
  intros H. unfold matched_translation.
  rewrite bool_decide_eq_true_2 by exact H. reflexivity.
Qed.

Lemma esp_item_idem only_edid strings it :
  esp_item trim_string only_edid strings
    (esp_item trim_string only_edid strings it)
  = esp_item trim_string only_edid strings it.
Proof.
  destruct it as [ti s]. unfold esp_item at 2. simpl.
  destruct (matched_translation only_edid strings s) as [c|] eqn:Hm.
  - assert (Hs : status s <> TranslationComplete).
    { intros Hc. rewrite matched_translation_complete in Hm by exact Hc.
      discriminate. }
    unfold esp_item. simpl.
    rewrite (matched_translation_same only_edid strings _ s), Hm.
    + unfold setText. rewrite insert_insert_eq. reflexivity.
    + repeat split.
    + simpl. split; [discriminate|]. intros Hc. contradiction.
  - unfold esp_item. simpl. rewrite Hm. reflexivity.
Qed.

(** X6: [import_esp] is idempotent: a second import of the same plugin with
    the same answer of the dialog leaves every record and every row as the
    first import left it. *)
Theorem import_esp_idempotent (plugins : Plugins) dialog only_edid items :
  let once := (import_esp trim_string plugins dialog only_edid items).1.1 in
  (import_esp trim_string plugins dialog only_edid once).1.1 = once.
Proof.
  intros once. subst once.
  destruct dialog as [|[|file files]]; try reflexivity.
  destruct (plugins !! file) as [[e|strings]|] eqn:Hp.
  - unfold import_esp, extract_translation_strings, extract_strings.
    rewrite Hp. reflexivity.
  - rewrite !(import_esp_items _ _ _ _ _ _ Hp). simpl.
    rewrite <- list_fmap_compose. apply list_fmap_ext.
    intros i it _. apply esp_item_idem.
  - unfold import_esp, extract_translation_strings, extract_strings.
    rewrite Hp. reflexivity.
Qed.

(** *** [update_gui_with_data] on a dictionary *)

Lemma update_gui_body_dict d u it :
  entries_match false d ->
  update_gui_body trim_string (PDict d) u it
  = (gui_item trim_string d it, [], inr ()).
Proof.
  intros Hd. destruct it as [ti s]. unfold update_gui_body, gui_item. simpl.
  case_bool_decide; [|reflexivity]. unfold getitem.
  destruct (d !! original_string s) as [entry|] eqn:Hl.
  - destruct (Hd _ _ Hl) as (e & -> & _).
    rewrite bool_decide_eq_true_2 by (eexists; reflexivity). reflexivity.
  - rewrite bool_decide_eq_false_2; [reflexivity|].
    intros [x Hx]. discriminate.
Qed.

Lemma gui_item_import_item d it :
  entries_match false d ->
  (forall key entry, d !! key = Some entry -> truthy entry = true) ->
  gui_item trim_string d it = import_item trim_string d false it.
Proof.
  intros Hd Ht. destruct it as [ti s]. unfold gui_item, import_item. simpl.
  case_bool_decide; [|reflexivity]. unfold reconcile, getitem.
  destruct (d !! original_string s) as [entry|] eqn:Hl; [|reflexivity].
  pose proof (Ht _ _ Hl) as Htr. destruct (Hd _ _ Hl) as (e & -> & _).
  simpl in *. rewrite Htr. reflexivity.
Qed.

(** X7: the slot [update_gui_with_data] fed a dictionary of unpickled
    records (what the code that calls it never sends).  It raises nothing,
    not even inside its [try]; a record that is not complete and whose
    original text is a key gets the translation and the status of the
    entry, truthy or not, and its row the translation; every other item
    stays as it is; the editor is refreshed.  When every entry is truthy,
    that is what the loop of [import_data] does with the same
    dictionary. *)
Theorem update_gui_with_data_dict d items :
  entries_match false d ->
  update_gui_with_data trim_string (PDict d) items
  = (gui_item trim_string d <$> items, [UpdateStringList; ChangesSignal],
     inr ())
  /\ ((forall key entry, d !! key = Some entry -> truthy entry = true) ->
      gui_item trim_string d <$> items
      = import_item trim_string d false <$> items).
Proof.
  intros Hd. split.
  - unfold update_gui_with_data.
    assert (Hloop : forall l u,
               for_each (update_gui_body trim_string (PDict d)) u l
               = (gui_item trim_string d <$> l, [], inr ())).
    { induction l as [|it l IH]; intros u; simpl; [destruct u; reflexivity|].
      rewrite update_gui_body_dict by exact Hd. rewrite IH. reflexivity. }
    rewrite Hloop. reflexivity.
  - intros Ht. apply list_fmap_ext. intros i it _.
    apply gui_item_import_item; assumption.
Qed.

(** *** The trace of [load_from_db] *)

(** X8: what [load_from_db] shows, on every path.  The worker emits
    progress values and then either the error and [finished] or the
    refresh of the list, the result and [finished]; the dialog is set to
    each progress value in turn, and at the end, error or not, it is set
    to 100 and closed and the editor's change signal is emitted.  On
    success the slot of the result runs in between: it raises [TypeError]
    when a record that is not complete has an original text that occurs in
    the result text, and otherwise refreshes the list and emits the change
    signal a first time. *)
Theorem load_from_db_trace fs path items :
  exists ps,
    let emitted := (load_from_db trim_string fs path items).1.2 in
    let gui := (load_from_db trim_string fs path items).2 in
    let items' := (load_from_db trim_string fs path items).1.1 in
    let finish := [DialogSetValue 100; DialogClose; ChangesSignal] in
    (exists e,
       emitted = ((Emit ∘ SigProgress) <$> ps)
                 ++ [Emit (SigError e); Emit SigFinished]
       /\ gui = (DialogSetValue <$> ps) ++ finish)
    \/ (emitted = ((Emit ∘ SigProgress) <$> ps)
                  ++ [UpdateStringList; Emit (SigResult (PStr "DB_IMPORTED"));
                      Emit SigFinished]
        /\ gui = (DialogSetValue <$> ps)
                 ++ (if existsb (raises_on "DB_IMPORTED") items'
                     then [SlotRaised TypeError]
                     else [UpdateStringList; ChangesSignal])
                 ++ finish).
Proof.
  unfold load_from_db.
  destruct (run_trace fs path items) as (ev & Hev & Htail).
  destruct (progress_events ev Hev) as [ps ->]. exists ps.
  destruct (run trim_string fs path items) as [items1 emitted]. simpl in *.
  destruct Htail as [[e ->]| ->]; rewrite deliver_progress; simpl.
  - left. exists e. split; reflexivity.
  - right. rewrite update_gui_with_data_str.
    destruct (existsb (raises_on "DB_IMPORTED") items1) eqn:Hex; simpl;
      rewrite Hex; split; reflexivity.
Qed.

(** *** The count of the loop of [import_data] *)

Lemma import_body_counted data total json i it :
  entries_match json data ->
  (0 < total < 2 ^ 53)%Z -> (0 <= i)%Z -> (i + 1 < 2 ^ 53)%Z ->
  if counted trim_string data json it then
    exists p, progress_value i total = inr p
              /\ (import_body trim_string data total json i it).1.2
                 = [Emit (SigProgress p)]
              /\ (import_body trim_string data total json i it).2
                 = inr (i + 1)%Z
  else
    (import_body trim_string data total json i it).1.2 = []
    /\ (import_body trim_string data total json i it).2 = inr i.
Proof.
  intros Hdata Ht Hi Hi'. unfold counted, import_body, emit_progress.
  destruct (progress_value_returns i total Hi Hi' Ht) as [p Hp].
  case_bool_decide.
  - destruct (reconcile trim_string data json it) as [e|it'] eqn:Hr.
    + rewrite (reconcile_error _ _ _ _ Hdata Hr). split; reflexivity.
    + rewrite Hp. exists p. auto.
  - rewrite Hp. exists p. auto.
Qed.

Lemma import_loop_counted data total json items : forall i,
  entries_match json data ->
  (0 < total < 2 ^ 53)%Z -> (0 <= i)%Z ->
  (i + Z.of_nat (length items) < 2 ^ 53)%Z ->
  let m := length (filter (fun it => counted trim_string data json it = true)
                          items) in
  exists ps,
    (for_each (import_body trim_string data total json) i items).2
    = inr (i + Z.of_nat m)%Z
    /\ (for_each (import_body trim_string data total json) i items).1.2
       = (Emit ∘ SigProgress) <$> ps
    /\ length ps = m
    /\ forall j p, ps !! j = Some p ->
         progress_value (i + Z.of_nat j) total = inr p.
Proof.
  induction items as [|it items IH]; intros i Hdata Ht Hi Hlen.
  - exists []. simpl. split; [f_equal; lia|]. split; [reflexivity|].
    split; [reflexivity|]. intros j p Hj. discriminate.
  - rewrite length_cons in Hlen.
    pose proof (import_body_counted data total json i it Hdata Ht Hi
                  ltac:(lia)) as Hb.
    simpl.
    destruct (import_body trim_string data total json i it)
      as [[it' ev] r] eqn:Hbody.
    simpl in Hb.
    destruct (counted trim_string data json it) eqn:Hc.
    + destruct Hb as (p & Hp & -> & ->).
      destruct (IH (i + 1)%Z Hdata Ht ltac:(lia) ltac:(lia))
        as (ps & Hr & Hev & Hlenps & Hps).
      destruct (for_each (import_body trim_string data total json) (i + 1)%Z
                  items) as [[rest' ev'] r'].
      simpl in *. rewrite filter_cons_True by exact Hc.
      exists (p :: ps). split; [rewrite Hr; f_equal; simpl; lia|].
      split; [rewrite Hev; reflexivity|]. split; [simpl; lia|].
      intros [|j] q Hj; simpl in Hj.
      * injection Hj as <-. rewrite Z.add_0_r. exact Hp.
      * rewrite <- (Hps j q Hj). f_equal. lia.
    + destruct Hb as (-> & ->).
      destruct (IH i Hdata Ht Hi ltac:(lia)) as (ps & Hr & Hev & Hlenps & Hps).
      destruct (for_each (import_body trim_string data total json) i items)
        as [[rest' ev'] r'].
      simpl in *. rewrite filter_cons_False by (rewrite Hc; discriminate).
      exists ps. auto.
Qed.

(** X9: the import of a source that is not empty, with fewer than 2^53
    entries and items, always succeeds: [Worker.run] emits no error.  It
    emits one progress value for every item that is complete or whose
    [try] block comes to its end, and none for an item whose original text
    is not in the source; the value for the j-th such item is
    [int((j + 1) / len(data) * 100)], whatever the number of items is; then
    the list is refreshed and the result and [finished] are emitted. *)
Theorem run_progress fs path data items :
  load_data fs (Some path) = inr data -> data ≠ ∅ ->
  (Z.of_nat (size data) < 2 ^ 53)%Z ->
  (Z.of_nat (length items) < 2 ^ 53)%Z ->
  exists ps,
    (run trim_string fs (Some path) items).2
    = ((Emit ∘ SigProgress) <$> ps)
      ++ [UpdateStringList; Emit (SigResult (PStr "DB_IMPORTED"));
          Emit SigFinished]
    /\ length ps
       = length (filter (fun it => counted trim_string data
                                     (endswith path ".json") it = true) items)
    /\ forall j p, ps !! j = Some p ->
         progress_value (Z.of_nat j) (Z.of_nat (size data)) = inr p.
Proof.
  intros Hload Hne Hsize Hlen.
  pose proof (load_data_entries _ _ _ Hload) as Hdata.
  assert (Hpos : (0 < Z.of_nat (size data))%Z).
  { assert (size data ≠ 0%nat); [|lia].
    intros H0. apply map_size_empty_inv in H0. contradiction. }
  destruct (import_loop_counted data (Z.of_nat (size data))
              (endswith path ".json") items 0%Z Hdata
              ltac:(split; assumption) ltac:(lia) ltac:(lia))
    as (ps & Hr & Hev & Hlenps & Hps).
  exists ps. unfold run. rewrite Hload. simpl. unfold import_data.
  destruct (for_each _ 0%Z items) as [[items' ev] r]. simpl in *.
  subst r ev. split; [reflexivity|]. split; [exact Hlenps|exact Hps].
Qed.

(** X10: [Worker.run] fails before it writes.  With fewer than 2^53 entries
    and items, the error signal is emitted in two cases only: the load
    raised, or the source is empty and the session holds a complete record
    (the division by the zero total); in both the items are as they were.
    No exception leaves the loop after a record has been written. *)
Theorem run_fails_before_writing fs path items e :
  (forall data, load_data fs path = inr data ->
                (Z.of_nat (size data) < 2 ^ 53)%Z) ->
  (Z.of_nat (length items) < 2 ^ 53)%Z ->
  Emit (SigError e) ∈ (run trim_string fs path items).2 ->
  (run trim_string fs path items).1 = items
  /\ (load_data fs path = inl e
      \/ (load_data fs path = inr ∅ /\ e = ZeroDivisionError
          /\ exists it, it ∈ items /\ status it.2 = TranslationComplete)).
Proof.
  intros Hsize Hlen.
  destruct (load_data fs path) as [e'|data] eqn:Hload.
  { unfold run. rewrite Hload. simpl. intros Hin. split; [reflexivity|left].
    apply elem_of_cons in Hin as [Hin|Hin]; [congruence|].
    apply elem_of_cons in Hin as [Hin|Hin]; [discriminate|].
    apply elem_of_nil in Hin. contradiction. }
  destruct path as [p|]; [|discriminate].
  specialize (Hsize data eq_refl).
  destruct (decide (data = ∅)) as [->|Hne].
  - rewrite (run_empty fs p items Hload). simpl.
    destruct (existsb is_complete items) eqn:Hex.
    + intros Hin. split; [reflexivity|right]. split; [reflexivity|].
      apply elem_of_cons in Hin as [Hin|Hin].
      2:{ apply elem_of_cons in Hin as [Hin|Hin]; [discriminate|].
          apply elem_of_nil in Hin. contradiction. }
      split; [congruence|].
      apply existsb_exists in Hex as (it & Hit & Hc). exists it.
      split; [apply list_elem_of_In; exact Hit|].
      apply bool_decide_eq_true in Hc. exact Hc.
    + intros Hin. exfalso.
      repeat (apply elem_of_cons in Hin as [Hin|Hin]; [discriminate|]).
      apply elem_of_nil in Hin. exact Hin.
  - intros Hin. exfalso.
    pose proof (load_data_entries _ _ _ Hload) as Hdata.
    assert (Hpos : (0 < Z.of_nat (size data))%Z).
    { assert (size data ≠ 0%nat); [|lia].
      intros H0. apply map_size_empty_inv in H0. contradiction. }
    destruct (import_data_returns data (Z.of_nat (size data))
                (endswith p ".json") items Hdata
                ltac:(split; assumption) Hlen) as [[n Hn] _].
    pose proof (import_data_events data (Z.of_nat (size data))
                  (endswith p ".json") items) as Hev.
    unfold run in Hin. rewrite Hload in Hin. simpl in Hin.
    destruct (import_data trim_string data (Z.of_nat (size data))
                (endswith p ".json") items) as [[items' ev] r].
    simpl in *. subst r. simpl in Hin.
    apply elem_of_app in Hin as [Hin|Hin].
    + apply (proj1 (Forall_forall _ _) Hev) in Hin as [q Hq]. discriminate.
    + repeat (apply elem_of_cons in Hin as [Hin|Hin]; [discriminate|]).
      apply elem_of_nil in Hin. exact Hin.
Qed.

(** *** The same file twice *)

Lemma import_item_legacy data ti s :
  entries_match false data ->
  import_item trim_string data false (ti, s)
  = if bool_decide (status s ≠ TranslationComplete) then
      match data !! original_string s with
      | Some (LegacyE e) =>
          if l_truthy e then
            (setText 4 (trim_string (l_translated_string e)) ti,
             set_status (l_status e)
               (set_translated_string (l_translated_string e) s))
          else (setText 4 (trim_string (translated_string s)) ti, s)
      | _ => (ti, s)
      end
    else (ti, s).
Proof.
  intros Hdata. unfold import_item. simpl. case_bool_decide; [|reflexivity].
  unfold reconcile, getitem.
  destruct (data !! original_string s) as [entry|] eqn:Hl; [|reflexivity].
  destruct (Hdata _ _ Hl) as (e & -> & _). simpl.
  destruct (l_truthy e); reflexivity.
Qed.

Lemma import_item_legacy_idem data it :
  entries_match false data ->
  import_item trim_string data false (import_item trim_string data false it)
  = import_item trim_string data false it.
Proof.
  intros Hdata. destruct it as [ti s].
  rewrite (import_item_legacy data ti s Hdata).
  case_bool_decide as Hc; [|rewrite import_item_legacy by exact Hdata;
    rewrite bool_decide_eq_false_2 by (intros Hn; exact (Hn Hc)); reflexivity].
  destruct (data !! original_string s) as [[e|e]|] eqn:Hl;
    try (rewrite import_item_legacy by exact Hdata;
         rewrite bool_decide_eq_true_2 by exact Hc; rewrite Hl; reflexivity).
  destruct (l_truthy e) eqn:Ht.
  - rewrite import_item_legacy by exact Hdata. simpl.
    case_bool_decide; [|reflexivity]. rewrite Hl, Ht.
    unfold setText. rewrite insert_insert_eq. reflexivity.
  - rewrite import_item_legacy by exact Hdata.
    rewrite bool_decide_eq_true_2 by exact Hc. rewrite Hl, Ht.
    unfold setText. rewrite insert_insert_eq. reflexivity.
Qed.

Lemma import_item_idem data json it :
  entries_match json data ->
  import_item trim_string data json (import_item trim_string data json it)
  = import_item trim_string data json it.
Proof.
  intros Hdata. destruct json; [|apply import_item_legacy_idem, Hdata].
  rewrite !(import_item_json) by exact Hdata.
  rewrite json_item_original. apply json_item_idem.
Qed.

(** The items after the import of a source that is not empty. *)
Lemma run_items fs path data items :
  load_data fs (Some path) = inr data -> data ≠ ∅ ->
  (Z.of_nat (size data) < 2 ^ 53)%Z ->
  (Z.of_nat (length items) < 2 ^ 53)%Z ->
  (run trim_string fs (Some path) items).1
  = import_item trim_string data (endswith path ".json") <$> items.
Proof.
  intros Hload Hne Hsize Hlen.
  pose proof (load_data_entries _ _ _ Hload) as Hdata.
  assert (Hpos : (0 < Z.of_nat (size data))%Z).
  { assert (size data ≠ 0%nat); [|lia].
    intros H0. apply map_size_empty_inv in H0. contradiction. }
  rewrite (run_loaded _ _ _ _ Hload).
  destruct (import_data_returns data (Z.of_nat (size data))
              (endswith path ".json") items Hdata
              ltac:(split; assumption) Hlen) as [_ Hitems].
  apply list_eq. intros k. rewrite list_lookup_fmap.
  destruct (items !! k) as [it|] eqn:Hk; simpl.
  - exact (Hitems _ _ Hk).
  - apply lookup_ge_None. apply lookup_ge_None in Hk.
    unfold import_data. rewrite for_each_length. exact Hk.
Qed.

(** X11: importing the same file twice is the same as importing it once.
    For a session of fewer than 2^53 items and a file of fewer than 2^53
    entries, in either format, the items after a second run of the worker
    on the same file are the items after the first. *)
Theorem run_idempotent fs path items :
  (forall data, load_data fs path = inr data ->
                (Z.of_nat (size data) < 2 ^ 53)%Z) ->
  (Z.of_nat (length items) < 2 ^ 53)%Z ->
  (run trim_string fs path (run trim_string fs path items).1).1
  = (run trim_string fs path items).1.
Proof.
  intros Hsize Hlen.
  destruct (load_data fs path) as [e|data] eqn:Hload.
  { unfold run. rewrite Hload. reflexivity. }
  destruct path as [p|]; [|discriminate].
  specialize (Hsize data eq_refl).
  destruct (decide (data = ∅)) as [->|Hne].
  - rewrite !(run_empty fs p _ Hload). reflexivity.
  - rewrite (run_items fs p data items Hload Hne Hsize Hlen).
    rewrite (run_items fs p data _ Hload Hne Hsize)
      by (rewrite length_fmap; exact Hlen).
    rewrite <- list_fmap_compose. apply list_fmap_ext. intros i it _. simpl.
    apply import_item_idem, (load_data_entries _ _ _ Hload).
Qed.

End Session.


(** *** [export_json]: the entries *)

Lemma export_data_elem full items : forall i e,
  e ∈ export_data full i items
  <-> exists k ti s,
        items !! k = Some (ti, s)
        /\ (full = true \/ status s ≠ TranslationComplete)
        /\ e = mkJson (Some (i + Z.of_nat k)%Z) (Some (type s))
                      (Some (original_string s)) (Some (translated_string s)).
Proof.
  induction items as [|[ti s] items IH]; intros i e.
  - simpl. split.
    + intros H. apply elem_of_nil in H. contradiction.
    + intros (k & ti & s & Hk & _). discriminate.
  - assert (Hrest : e ∈ export_data full (i + 1) items
                    <-> exists k ti' s',
                          items !! k = Some (ti', s')
                          /\ (full = true \/ status s' ≠ TranslationComplete)
                          /\ e = mkJson (Some (i + Z.of_nat (S k))%Z)
                                        (Some (type s'))
                                        (Some (original_string s'))
                                        (Some (translated_string s'))).
    { rewrite IH. split; intros (k & ti' & s' & Hk & Hc & ->);
        exists k, ti', s'; (split; [exact Hk|]); (split; [exact Hc|]);
        do 2 f_equal; lia. }
    assert (Hexp : export_data full i ((ti, s) :: items)
                   = if full || bool_decide (status s ≠ TranslationComplete)
                     then mkJson (Some i) (Some (type s))
                            (Some (original_string s))
                            (Some (translated_string s))
                          :: export_data full (i + 1) items
                     else export_data full (i + 1) items) by reflexivity.
    rewrite Hexp. clear Hexp.
    destruct (full || bool_decide (status s ≠ TranslationComplete)) eqn:Hc.
    + rewrite elem_of_cons, Hrest. split.
      * intros [->|(k & ti' & s' & Hk & Hc' & ->)].
        -- exists 0%nat, ti, s. split; [reflexivity|]. split.
           ++ apply orb_true_iff in Hc as [Hc|Hc]; [left; exact Hc|right].
              apply bool_decide_eq_true in Hc. exact Hc.
           ++ do 2 f_equal. lia.
        -- exists (S k), ti', s'. auto.
      * intros ([|k] & ti' & s' & Hk & Hc' & ->).
        -- injection Hk as <- <-. left. do 2 f_equal. lia.
        -- right. exists k, ti', s'. auto.
    + rewrite Hrest. split.
      * intros (k & ti' & s' & Hk & Hc' & ->). exists (S k), ti', s'. auto.
      * intros ([|k] & ti' & s' & Hk & Hc' & ->).
        -- injection Hk as <- <-. apply orb_false_iff in Hc as [Hf Hs].
           apply bool_decide_eq_false in Hs. destruct Hc' as [Hc'|Hc'];
             [congruence|contradiction].
        -- exists k, ti', s'. auto.
Qed.

Lemma export_data_full_length items : forall i,
  length (export_data true i items) = length items.
Proof.
  induction items as [|[ti s] items IH]; intros i; simpl; [reflexivity|].
  rewrite IH. reflexivity.
Qed.

Lemma export_data_sublist items : forall i,
  export_data false i items `sublist_of` export_data true i items.
Proof.
  induction items as [|[ti s] items IH]; intros i; simpl; [constructor|].
  destruct (bool_decide (status s ≠ TranslationComplete)).
  - apply sublist_skip, IH.
  - apply sublist_cons, IH.
Qed.

(** X13: the entries that [export_json] collects.  There is one entry for
    every item that is exported (every item of a full export, every item
    that is not complete otherwise) and no other entry; the entry carries
    the position of the item in the session as its ['index'], whatever its
    own position in the file is, and the type, the original text and the
    translation of the record.  A full export has as many entries as the
    session has items, and the partial export is the full one with
    entries left out. *)
Theorem export_data_entries full items :
  (forall e,
     e ∈ export_data full 0 items
     <-> exists k ti s,
           items !! k = Some (ti, s)
           /\ (full = true \/ status s ≠ TranslationComplete)
           /\ e = mkJson (Some (Z.of_nat k)) (Some (type s))
                         (Some (original_string s))
                         (Some (translated_string s)))
  /\ length (export_data true 0 items) = length items
  /\ export_data false 0 items `sublist_of` export_data true 0 items.
Proof.
  split; [|split; [apply export_data_full_length|apply export_data_sublist]].
  intros e. rewrite export_data_elem. reflexivity.
Qed.

(** *** [export_json] and [load_data] *)

Lemma export_data_all_original full items : forall i,
  Forall (fun e => is_Some (j_original e)) (export_data full i items).
Proof.
  induction items as [|[ti s] items IH]; intros i; simpl; [constructor|].
  destruct (full || bool_decide (status s ≠ TranslationComplete)).
  - constructor; [eexists; reflexivity|apply IH].
  - apply IH.
Qed.

Lemma export_data_last full key items : forall i,
  j_string <$> last (filter (fun e => j_original e = Some key)
                             (export_data full i items))
  = (Some ∘ translated_string)
    <$> last (filter (fun s => (full = true \/ status s ≠ TranslationComplete)
                               /\ original_string s = key) items.*2).
Proof.
  induction items as [|[ti s] items IH]; intros i; [reflexivity|].
  change (((ti, s) :: items).*2) with (s :: items.*2).
  assert (Hexp : export_data full i ((ti, s) :: items)
                 = if full || bool_decide (status s ≠ TranslationComplete)
                   then mkJson (Some i) (Some (type s))
                          (Some (original_string s))
                          (Some (translated_string s))
                        :: export_data full (i + 1)%Z items
                   else export_data full (i + 1)%Z items) by reflexivity.
  rewrite Hexp. clear Hexp. specialize (IH (i + 1)%Z).
  destruct (full || bool_decide (status s ≠ TranslationComplete)) eqn:Hc.
  - assert (Hs : full = true \/ status s ≠ TranslationComplete).
    { apply orb_true_iff in Hc as [Hc|Hc]; [left; exact Hc|right].
      apply bool_decide_eq_true in Hc. exact Hc. }
    rewrite !filter_cons. simpl.
    destruct (decide (original_string s = key)) as [Hk|Hk].
    + rewrite decide_True by congruence.
      rewrite decide_True by (split; assumption).
      rewrite !last_cons.
      destruct (last (filter (fun e => j_original e = Some key)
                             (export_data full (i + 1)%Z items))) as [e|];
        destruct (last (filter _ items.*2)) as [s'|];
        simpl in *; congruence.
    + rewrite decide_False by congruence.
      rewrite decide_False by tauto. exact IH.
  - assert (Hs : ~ (full = true \/ status s ≠ TranslationComplete)).
    { apply orb_false_iff in Hc as [Hf Hc].
      apply bool_decide_eq_false in Hc. intros [H|H]; [congruence|tauto]. }
    rewrite filter_cons. rewrite decide_False by tauto. exact IH.
Qed.

(** X14: a file that [export_json] has written always loads, whatever else
    the file system holds and whether the export was full or not: no entry
    lacks its ['original'].  The ['string'] found under a text is the
    translation of the last exported item with that original text, and
    none is found under a text that no exported item has.  The export
    writes no other file. *)
Theorem export_json_then_load full export_stem fs items :
  let output_path := export_stem +:+ ".json" in
  let fs' := export_json full export_stem items fs in
  (exists data,
     load_data fs' (Some output_path) = inr data
     /\ forall key,
          data_string data key
          = translated_string
            <$> last (filter (fun s => (full = true
                                        \/ status s ≠ TranslationComplete)
                                       /\ original_string s = key) items.*2))
  /\ forall path, path ≠ output_path -> fs' !! path = fs !! path.
Proof.
  intros output_path fs'. split.
  - destruct (load_json_returns (export_data full 0 items)
                (export_data_all_original full items 0%Z) ∅) as [data Hdata].
    exists data. split.
    + unfold fs', output_path, load_data, export_json, open.
      rewrite endswith_app, lookup_insert_eq. simpl. exact Hdata.
    + intros key. unfold data_string.
      rewrite (load_json_fold_lookup _ ∅ data Hdata key), lookup_empty.
      pose proof (export_data_last full key items 0%Z) as Hlast.
      destruct (last (filter (fun e => j_original e = Some key)
                             (export_data full 0 items))) as [e|];
        destruct (last (filter _ items.*2)) as [s'|];
        simpl in *; try discriminate; [|reflexivity].
      injection Hlast as ->. reflexivity.
  - intros path Hne. unfold fs', export_json.
    apply lookup_insert_ne. intros Heq. apply Hne. symmetry. exact Heq.
Qed.

(** *** The text of the exported file *)

Lemma append_cons c s t : String c s +:+ t = String c (s +:+ t).
Proof. reflexivity. Qed.

Lemma append_assoc_string a b c : (a +:+ b) +:+ c = a +:+ (b +:+ c).
Proof.
  induction a as [|x a IH]; [reflexivity|].
  rewrite !append_cons, IH. reflexivity.
Qed.

Section WriterFacts.

Variable json_dumps : JsonEntry -> string.

Lemma write_entries_join data : forall n idx,
  n = (idx + Z.of_nat (length data))%Z ->
  write_entries json_dumps n idx data
  = match data with
    | [] => EmptyString
    | _ => String.concat ("," +:+ newline) (json_dumps <$> data) +:+ newline
    end.
Proof.
  induction data as [|entry rest IH]; intros n idx Hn; [reflexivity|].
  rewrite length_cons in Hn.
  change (write_entries json_dumps n idx (entry :: rest))
    with (json_dumps entry
          +:+ (if (idx <? n - 1)%Z then "," +:+ newline else newline)
          +:+ write_entries json_dumps n (idx + 1)%Z rest).
  rewrite (IH n (idx + 1)%Z) by lia.
  destruct rest as [|entry' rest].
  - simpl in Hn. destruct (Z.ltb_spec idx (n - 1)); [lia|]. reflexivity.
  - rewrite length_cons in Hn. destruct (Z.ltb_spec idx (n - 1)); [|lia].
    change (String.concat ("," +:+ newline)
              (json_dumps <$> entry :: entry' :: rest))
      with (json_dumps entry +:+ ("," +:+ newline)
            +:+ String.concat ("," +:+ newline) (json_dumps <$> entry' :: rest)).
    rewrite !append_assoc_string. reflexivity.
Qed.

(** X15: the text that [export_json] writes.  Without entries it is [[]];
    otherwise it is an opening bracket, the texts of the entries separated
    by a comma and a line feed, a line feed and a closing bracket: every
    entry stands on a line of its own and no comma follows the last. *)
Theorem export_text_lines full items :
  export_text json_dumps full items
  = match export_data full 0 items with
    | [] => "[]"
    | data =>
        "[" +:+ String.concat ("," +:+ newline) (json_dumps <$> data)
        +:+ newline +:+ "]"
    end.
Proof.
  unfold export_text. rewrite write_entries_join by lia.
  destruct (export_data full 0 items) as [|entry rest]; [reflexivity|].
  rewrite append_assoc_string. reflexivity.
Qed.

End WriterFacts.

(** *** The progress value at the end *)

(** X16: the value emitted when the count reaches the total is 100, for every
    total below 2^53: the quotient of a count by itself is the binary64
    number 1.  Below the total the value is not the integer part of the
    exact percentage in general: [29 / 100] is the binary64 number just
    below 0.29, its hundredfold is just below 29, and [int] cuts it to
    28. *)
Theorem progress_value_complete n :
  (0 < n < 2 ^ 53)%Z ->
  progress_value (n - 1) n = inr 100%Z
  /\ progress_value 28 100 = inr 28%Z.
Proof.
  intros Hn. split; [|vm_compute; reflexivity].
  unfold progress_value. replace (n - 1 + 1)%Z with n by lia.
  rewrite (true_div_same n Hn). vm_compute. reflexivity.
Qed.

(** *** The theorems at concrete sessions *)

Lemma C1_complete_records_untouched_witness :
  let done : Item :=
    (∅, mkString (Some "IronSword") (Some "00012EB7|Skyrim.esm") (Some 0%Z)
          "WEAP FULL" "Iron Sword" "Eisenschwert" TranslationComplete) in
  let data : gmap string Entry :=
    {[ "Iron Sword" :=
         JsonE (mkJson (Some 0%Z) (Some "WEAP FULL") (Some "Iron Sword")
                       (Some "Eisenklinge")) ]} in
  let plugins : Plugins :=
    {[ "German.esp" :=
         inr [mkString (Some "IronSword") (Some "00012EB7|Skyrim.esm")
                (Some 0%Z) "WEAP FULL" "Eisenklinge" "" Untranslated] ]} in
  (import_data (fun s => s) data 1 true [done]).1.1 !! 0%nat = Some done
  /\ (import_esp (fun s => s) plugins (Accepted ["German.esp"]) false
        [done]).1.1 !! 0%nat = Some done.
Proof.
  intros done data plugins.
  apply (C1_complete_records_untouched (fun s => s) data 1 true plugins
           (Accepted ["German.esp"]) false [done] 0 done); reflexivity.
Defined.

Lemma C2_json_entry_reconciled_witness :
  let entry := mkJson (Some 0%Z) (Some "WEAP FULL") (Some "Iron Sword")
                      (Some "Eisenschwert") in
  let fs : FileSystem :=
    {[ "db.json" := mkFile (inr [entry]) (inl UnpicklingError) ]} in
  let record := mkString (Some "IronSword") None (Some 0%Z) "WEAP FULL"
                         "Iron Sword" "" Untranslated in
  (run (fun s => s) fs (Some "db.json") [(∅, record)]).1 !! 0%nat
  = Some (<[4%nat := "Eisenschwert"]> ∅,
          mkString (Some "IronSword") None (Some 0%Z) "WEAP FULL"
                   "Iron Sword" "Eisenschwert" TranslationIncomplete).
Proof.
  intros entry fs record.
  pose proof (C2_json_entry_reconciled (fun s => s)
                {[ "Iron Sword" := JsonE entry ]} ∅ record entry) as H.
  subst entry fs record.
  specialize (H ltac:(discriminate) ltac:(vm_compute; reflexivity)).
  destruct H as [_ H].
  specialize (H {[ "db.json" :=
                     mkFile (inr [mkJson (Some 0%Z) (Some "WEAP FULL")
                                         (Some "Iron Sword")
                                         (Some "Eisenschwert")])
                            (inl UnpicklingError) ]}
                "db.json"
                [(∅, mkString (Some "IronSword") None (Some 0%Z) "WEAP FULL"
                       "Iron Sword" "" Untranslated)]
                0%nat).
  specialize (H ltac:(vm_compute; reflexivity) ltac:(vm_compute; reflexivity)
                ltac:(vm_compute; reflexivity) ltac:(vm_compute; reflexivity)
                ltac:(vm_compute; reflexivity)).
  destruct H as [_ H]. vm_compute in H. vm_compute. exact H.
Defined.

Lemma C5_round_trip_witness :
  let items : list Item :=
    [(∅, mkString None None None "WEAP FULL" "Iron Sword" "Eisenschwert"
           TranslationIncomplete);
     (∅, mkString None None None "WEAP FULL" "Iron Dagger" "Iron Dagger"
           Untranslated);
     (∅, mkString None None None "WEAP FULL" "Iron Helmet" "Eisenhelm"
           TranslationComplete)] in
  (export_then_import (fun s => s) "export/Plugin.esp" ∅ items).1
  = roundtrip_item (fun s => s) items <$> items.
Proof.
  intros items.
  pose proof (C5_round_trip (fun s => s) "export/Plugin.esp" ∅ items) as H.
  destruct H as [_ H]. specialize (H ltac:(vm_compute; reflexivity)).
  destruct H as [H _]. exact H.
Defined.


Lemma C7_legacy_entry_overwrites_witness :
  let entry := mkLegacy true "Iron Sword" "Eisenschwert" TranslationComplete in
  let fs : FileSystem :=
    {[ "German.ats" := mkFile (inl JSONDecodeError) (inr [entry]) ]} in
  let record := mkString (Some "IronSword") None (Some 0%Z) "WEAP FULL"
                         "Iron Sword" "" Untranslated in
  (run (fun s => s) fs (Some "German.ats") [(∅, record)]).1 !! 0%nat
  = Some (<[4%nat := "Eisenschwert"]> ∅,
          mkString (Some "IronSword") None (Some 0%Z) "WEAP FULL"
                   "Iron Sword" "Eisenschwert" TranslationComplete).
Proof.
  intros entry fs record.
  pose proof (C7_legacy_entry_overwrites (fun s => s)
                {[ "Iron Sword" := LegacyE entry ]} ∅ record entry) as H.
  subst entry fs record.
  specialize (H ltac:(discriminate) ltac:(vm_compute; reflexivity)
                ltac:(reflexivity)).
  destruct H as [_ H].
  specialize (H {[ "German.ats" :=
                     mkFile (inl JSONDecodeError)
                            (inr [mkLegacy true "Iron Sword" "Eisenschwert"
                                           TranslationComplete]) ]}
                "German.ats"
                [(∅, mkString (Some "IronSword") None (Some 0%Z) "WEAP FULL"
                       "Iron Sword" "" Untranslated)]
                0%nat).
  specialize (H ltac:(vm_compute; reflexivity) ltac:(vm_compute; reflexivity)
                ltac:(vm_compute; reflexivity) ltac:(vm_compute; reflexivity)
                ltac:(vm_compute; reflexivity)).
  vm_compute in H. vm_compute. exact H.
Defined.

Lemma C9_result_string_second_pass_witness :
  let entry := mkJson (Some 0%Z) (Some "WEAP FULL") (Some "Iron Sword")
                      (Some "Eisenschwert") in
  let fs : FileSystem :=
    {[ "db.json" := mkFile (inr [entry]) (inl UnpicklingError) ]} in
  let items : list Item :=
    [(∅, mkString None None None "WEAP FULL" "Iron Sword" "" Untranslated);
     (∅, mkString None None None "BOOK FULL" "IMPORT" "" Untranslated)] in
  exists ps,
    (run (fun s => s) fs (Some "db.json") items).2
    = ((Emit ∘ SigProgress) <$> ps)
      ++ [UpdateStringList; Emit (SigResult (PStr "DB_IMPORTED"));
          Emit SigFinished]
    /\ (load_from_db (fun s => s) fs (Some "db.json") items).1.2
       = (run (fun s => s) fs (Some "db.json") items).2
    /\ (load_from_db (fun s => s) fs (Some "db.json") items).2
       = (DialogSetValue <$> ps)
         ++ [SlotRaised TypeError; DialogSetValue 100; DialogClose;
             ChangesSignal].
Proof.
  intros entry fs items.
  pose proof (C9_result_string_second_pass (fun s => s) fs (Some "db.json")
                items) as H.
  destruct H as (_ & _ & _ & _ & _ & _ & _ & H).
  specialize (H {[ "Iron Sword" := JsonE entry ]}).
  destruct H as (ps & Hrun & Hem & Hraise & _).
  - vm_compute. reflexivity.
  - intros H0. pose proof (f_equal (fun d => d !! "Iron Sword") H0) as Hl.
    vm_compute in Hl. discriminate.
  - vm_compute. reflexivity.
  - vm_compute. reflexivity.
  - exists ps. split; [exact Hrun|]. split; [exact Hem|]. apply Hraise.
    exists (∅, mkString None None None "BOOK FULL" "IMPORT" "" Untranslated).
    split; [|split; [discriminate|exists "DB_", "ED"; reflexivity]].
    assert (Hitems : (run (fun s => s) fs (Some "db.json") items).1
                     = [(<[4%nat := "Eisenschwert"]> ∅,
                         mkString None None None "WEAP FULL" "Iron Sword"
                                  "Eisenschwert" TranslationIncomplete);
                        (∅, mkString None None None "BOOK FULL" "IMPORT" ""
                              Untranslated)])
      by (vm_compute; reflexivity).
    rewrite Hitems. right. left.
Defined.

Lemma C8_load_failure_leaves_records_witness :
  let record := mkString None None None "WEAP FULL" "Iron Sword" ""
                         Untranslated in
  let broken : FileSystem :=
    {[ "broken.json" := mkFile (inl JSONDecodeError) (inl UnpicklingError) ]} in
  run (fun s => s) broken (Some "broken.json") [(∅, record)]
  = ([(∅, record)], [Emit (SigError JSONDecodeError); Emit SigFinished])
  /\ load_from_db (fun s => s) broken (Some "broken.json") [(∅, record)]
     = ([(∅, record)], [Emit (SigError JSONDecodeError); Emit SigFinished],
        [DialogSetValue 100; DialogClose; ChangesSignal]).
Proof.
  intros record broken.
  apply (C8_load_failure_leaves_records (fun s => s) broken
           (Some "broken.json") [(∅, record)] JSONDecodeError).
  vm_compute. reflexivity.
Defined.

(** *** Where the specification and the code part *)

(** C2 as the specification states it: the entry found under the original
    text of the record declares that very text as its ['original'], and the
    record is not left unchanged. *)
Lemma C2_counterexample :
  let entry := mkJson None None (Some "foo") (Some "bar") in
  let fs : FileSystem :=
    {[ "db.json" := mkFile (inr [entry]) (inl UnpicklingError) ]} in
  let record := mkString None None None "WEAP FULL" "foo" "" Untranslated in
  load_data fs (Some "db.json") = inr {[ "foo" := JsonE entry ]}
  /\ j_original entry = Some (original_string record)
  /\ status record ≠ TranslationComplete
  /\ (forall trim_string,
        (run trim_string fs (Some "db.json") [(∅, record)]).1.*2
        = [mkString None None None "WEAP FULL" "foo" "bar"
                    TranslationIncomplete])
  /\ mkString None None None "WEAP FULL" "foo" "bar" TranslationIncomplete
     ≠ record.
Proof.
  intros entry fs record.
  split; [vm_compute; reflexivity|]. split; [reflexivity|].
  split; [discriminate|].
  split; [intros trim_string; vm_compute; reflexivity|discriminate].
Qed.

(** C5 as the specification states it: a record that was never translated
    (empty translation, status [Untranslated]) is exported and imported
    again, and its status has changed. *)
Lemma C5_counterexample :
  let record := mkString None None None "WEAP FULL" "Iron Sword" ""
                         Untranslated in
  (forall trim_string,
     status <$> (export_then_import trim_string "export/Plugin.esp" ∅
                   [(∅, record)]).1.*2
     = [TranslationIncomplete])
  /\ status <$> [record] ≠ [TranslationIncomplete].
Proof.
  intros record.
  split; [intros trim_string; vm_compute; reflexivity|discriminate].
Qed.


(** *** The further properties at concrete sessions *)

Lemma load_data_json_last_entry_wins_witness :
  let first := mkJson (Some 0%Z) (Some "WEAP FULL") (Some "Iron Sword")
                      (Some "Eisenschwert") in
  let second := mkJson (Some 1%Z) (Some "WEAP FULL") (Some "Iron Sword")
                       (Some "Eisenklinge") in
  let file := mkFile (inr [first; second]) (inl UnpicklingError) in
  let fs : FileSystem := {[ "db.json" := file ]} in
  exists data,
    load_data fs (Some "db.json") = inr data
    /\ forall key,
         data !! key
         = JsonE <$> last (filter (fun e => j_original e = Some key)
                                  [first; second]).
Proof.
  intros first second file fs.
  refine (proj1 (load_data_json_last_entry_wins fs "db.json" file
                   [first; second] _ _ _) _).
  - vm_compute. reflexivity.
  - vm_compute. reflexivity.
  - reflexivity.
  - repeat constructor; eexists; reflexivity.
Defined.

Lemma load_data_pickle_last_entry_wins_witness :
  let first := mkLegacy true "Iron Sword" "Eisenschwert" TranslationIncomplete in
  let second := mkLegacy true "Iron Sword" "Eisenklinge" TranslationComplete in
  let file := mkFile (inl JSONDecodeError) (inr [first; second]) in
  let fs : FileSystem := {[ "German.ats" := file ]} in
  exists data,
    load_data fs (Some "German.ats") = inr data
    /\ forall key,
         data !! key
         = LegacyE <$> last (filter (fun e => l_original_string e = key)
                                    [first; second]).
Proof.
  intros first second file fs.
  refine (load_data_pickle_last_entry_wins fs "German.ats" file
            [first; second] _ _ _).
  - vm_compute. reflexivity.
  - vm_compute. reflexivity.
  - reflexivity.
Defined.

Lemma json_import_record_witness :
  let entry := mkJson (Some 0%Z) (Some "WEAP FULL") (Some "Iron Sword")
                      (Some "Eisenschwert") in
  let fs : FileSystem :=
    {[ "db.json" := mkFile (inr [entry]) (inl UnpicklingError) ]} in
  let it : Item :=
    (∅, mkString (Some "IronSword") None (Some 0%Z) "WEAP FULL" "Iron Sword"
          "" Untranslated) in
  exists it',
    (load_from_db (fun s => s) fs (Some "db.json") [it]).1.1 !! 0%nat
    = Some it'
    /\ (it'.2 = it.2
        \/ (status it.2 ≠ TranslationComplete
            /\ status it'.2 = TranslationIncomplete
            /\ translated_string it'.2 ≠ original_string it.2
            /\ exists file f e,
                 fs !! "db.json" = Some file /\ json_load file = inr f /\ e ∈ f
                 /\ j_original e = Some (original_string it.2)
                 /\ j_string e = Some (translated_string it'.2))).
Proof.
  intros entry fs it.
  refine (json_import_record (fun s => s) fs "db.json" [it] 0 it _ _).
  - vm_compute. reflexivity.
  - reflexivity.
Defined.

Lemma run_progress_witness :
  let entry := mkJson (Some 0%Z) (Some "WEAP FULL") (Some "Iron Sword")
                      (Some "Eisenschwert") in
  let fs : FileSystem :=
    {[ "db.json" := mkFile (inr [entry]) (inl UnpicklingError) ]} in
  let data : gmap string Entry := {[ "Iron Sword" := JsonE entry ]} in
  let items : list Item :=
    [(∅, mkString None None None "WEAP FULL" "Iron Sword" "" Untranslated);
     (∅, mkString None None None "WEAP FULL" "Steel Sword" "" Untranslated);
     (∅, mkString None None None "WEAP FULL" "Iron Dagger" "Eisendolch"
           TranslationComplete)] in
  exists ps,
    (run (fun s => s) fs (Some "db.json") items).2
    = ((Emit ∘ SigProgress) <$> ps)
      ++ [UpdateStringList; Emit (SigResult (PStr "DB_IMPORTED"));
          Emit SigFinished]
    /\ length ps
       = length (filter (fun it => counted (fun s => s) data
                                     (endswith "db.json" ".json") it = true)
                        items)
    /\ forall j p, ps !! j = Some p ->
         progress_value (Z.of_nat j) (Z.of_nat (size data)) = inr p.
Proof.
  intros entry fs data items.
  refine (run_progress (fun s => s) fs "db.json" data items _ _ _ _).
  - vm_compute. reflexivity.
  - intros H. pose proof (f_equal (fun d => d !! "Iron Sword") H) as Hl.
    vm_compute in Hl. discriminate.
  - vm_compute. reflexivity.
  - vm_compute. reflexivity.
Defined.

Lemma progress_value_complete_witness :
  progress_value (3 - 1) 3 = inr 100%Z /\ progress_value 28 100 = inr 28%Z.
Proof.
  apply (progress_value_complete 3). split; vm_compute; reflexivity.
Defined.

Lemma update_gui_with_data_dict_witness :
  let entry := mkLegacy false "Iron Sword" "Eisenschwert" TranslationComplete in
  let d : gmap string Entry := {[ "Iron Sword" := LegacyE entry ]} in
  let items : list Item :=
    [(∅, mkString None None None "WEAP FULL" "Iron Sword" "" Untranslated)] in
  update_gui_with_data (fun s => s) (PDict d) items
  = (gui_item (fun s => s) d <$> items, [UpdateStringList; ChangesSignal],
     inr ())
  /\ ((forall key entry, d !! key = Some entry -> truthy entry = true) ->
      gui_item (fun s => s) d <$> items
      = import_item (fun s => s) d false <$> items).
Proof.
  intros entry d items.
  refine (update_gui_with_data_dict (fun s => s) d items _).
  intros key e H. apply lookup_singleton_Some in H as [<- <-].
  exists entry. split; reflexivity.
Defined.


Lemma run_fails_before_writing_witness :
  let fs : FileSystem :=
    {[ "empty.json" := mkFile (inr []) (inl UnpicklingError) ]} in
  let items : list Item :=
    [(∅, mkString None None None "WEAP FULL" "Iron Sword" "" Untranslated);
     (∅, mkString None None None "WEAP FULL" "Iron Dagger" "Eisendolch"
           TranslationComplete)] in
  (run (fun s => s) fs (Some "empty.json") items).1 = items
  /\ (load_data fs (Some "empty.json") = inl ZeroDivisionError
      \/ (load_data fs (Some "empty.json") = inr ∅
          /\ ZeroDivisionError = ZeroDivisionError
          /\ exists it, it ∈ items /\ status it.2 = TranslationComplete)).
Proof.
  intros fs items.
  refine (run_fails_before_writing (fun s => s) fs (Some "empty.json") items
            ZeroDivisionError _ _ _).
  - intros data H. vm_compute in H. injection H as <-. vm_compute. reflexivity.
  - vm_compute. reflexivity.
  - vm_compute. left.
Defined.

Lemma run_idempotent_witness :
  let fs : FileSystem :=
    {[ "German.ats" :=
         mkFile (inl JSONDecodeError)
                (inr [mkLegacy true "Iron Sword" "Eisenschwert"
                               TranslationComplete]) ]} in
  let items : list Item :=
    [(∅, mkString None None None "WEAP FULL" "Iron Sword" "" Untranslated)] in
  (run (fun s => s) fs (Some "German.ats")
       (run (fun s => s) fs (Some "German.ats") items).1).1
  = (run (fun s => s) fs (Some "German.ats") items).1.
Proof.
  intros fs items.
  refine (run_idempotent (fun s => s) fs (Some "German.ats") items _ _).
  - intros data H.
    change (Z.of_nat (size data))
      with (match (inr data : res (gmap string Entry)) with
            | inr d => Z.of_nat (size d)
            | inl _ => 0%Z
            end).
    rewrite <- H. vm_compute. reflexivity.
  - vm_compute. reflexivity.
Defined.

End AddonsFacts.

(** ** The stacked widget *)

Module WidgetsFacts.

Import Widgets.

Local Open Scope Z_scope.

(** *** Sliding to a page and back *)

Lemma index_from_lookup w l : forall i k,
  NoDup (widget_id <$> l) -> l !! k = Some w ->
  index_from w l i = i + Z.of_nat k.
Proof.
  induction l as [|x l IH]; intros i k Hnd Hk; [discriminate|].
  rewrite fmap_cons in Hnd. apply NoDup_cons in Hnd as [Hx Hnd].
  destruct k as [|k]; simpl in *.
  - injection Hk as ->. rewrite decide_True by reflexivity. lia.
  - rewrite decide_False.
    + rewrite (IH (i + 1) k Hnd Hk). lia.
    + intros Heq. apply Hx. rewrite Heq. apply list_elem_of_fmap.
      exists w. split; [reflexivity|]. eapply list_elem_of_lookup_2, Hk.
Qed.

Lemma indexOf_widget self k w :
  NoDup (widget_id <$> pages self) -> widget self k = Some w ->
  indexOf self (Some w) = k.
Proof.
  unfold widget, indexOf. intros Hnd.
  destruct (Z.ltb_spec k 0); [discriminate|]. intros Hk.
  rewrite (index_from_lookup _ _ 0 _ Hnd Hk). lia.
Qed.

Lemma widget_in_range self k :
  0 <= k < count self -> exists w, widget self k = Some w.
Proof.
  intros Hk. unfold widget, count in *.
  destruct (Z.ltb_spec k 0); [lia|].
  apply lookup_lt_is_Some_2. lia.
Qed.

(** An idle widget asked for a page other than the current one starts the
    animation. *)
Lemma slideInWidget_starts self next direction cw :
  _active self = false ->
  currentIndex self <> indexOf self (Some next) ->
  widget self (currentIndex self) = Some cw ->
  slideInWidget self (Some next) direction
  = let n := indexOf self (Some next) in
    let d0 := if decide (direction = Automatic) then
                if currentIndex self <? n then forward self else backward self
              else direction in
    let d := if reverse self then reversed d0 else d0 in
    (set_geometry_origin n (set_active true self),
     inr (Some (mkSlide (currentIndex self) n d (pos_x cw, pos_y cw)
                  ((displacement self d).1 + pos_x cw,
                   (displacement self d).2 + pos_y cw)
                  (- (displacement self d).1 + 0, - (displacement self d).2 + 0)
                  (0, 0)))).
Proof.
  intros Hidle Hne Hcw. unfold slideInWidget. rewrite Hidle.
  change (currentIndex (set_active true self)) with (currentIndex self).
  change (indexOf (set_active true self) (Some next))
    with (indexOf self (Some next)).
  change (widget (set_active true self) (currentIndex self))
    with (widget self (currentIndex self)).
  rewrite Hcw.
  destruct (Z.eqb_spec (currentIndex self) (indexOf self (Some next))) as [|_];
    [contradiction|].
  set (n := indexOf self (Some next)).
  assert (Hs : forall s, reverse (set_geometry_origin n (set_active true s)) = reverse s
               /\ forward (set_geometry_origin n (set_active true s)) = forward s
               /\ backward (set_geometry_origin n (set_active true s)) = backward s).
  { intros s. unfold set_geometry_origin, forward, backward.
    destruct (n <? 0); auto. }
  destruct (Hs self) as (-> & -> & ->). simpl.
  destruct (if reverse self then _ else _); reflexivity.
Qed.

Lemma ids_alter (f : Widget -> Widget) i (l : list Widget) :
  (forall w, widget_id (f w) = widget_id w) ->
  widget_id <$> alter f i l = widget_id <$> l.
Proof.
  intros Hf. revert i. induction l as [|x l IH]; intros [|i]; simpl; try reflexivity.
  - rewrite Hf. reflexivity.
  - f_equal. apply IH.
Qed.

Lemma ids_set_geometry_origin n self :
  widget_id <$> pages (set_geometry_origin n self) = widget_id <$> pages self.
Proof.
  unfold set_geometry_origin. destruct (n <? 0); [reflexivity|].
  simpl. apply ids_alter. reflexivity.
Qed.

Lemma ids_move_page n p self :
  widget_id <$> pages (move_page n p self) = widget_id <$> pages self.
Proof.
  unfold move_page. destruct (n <? 0); [reflexivity|].
  simpl. apply ids_alter. reflexivity.
Qed.

Lemma count_ids self self' :
  widget_id <$> pages self' = widget_id <$> pages self -> count self' = count self.
Proof.
  intros H. unfold count. f_equal.
  rewrite <- (length_fmap widget_id (pages self')), H. apply length_fmap.
Qed.

Lemma slideInIndex_in_range self k direction :
  0 <= k <= count self - 1 ->
  slideInIndex self k direction = slideInWidget self (widget self k) direction.
Proof.
  intros Hk. unfold slideInIndex.
  destruct (Z.gtb_spec k (count self - 1)); [lia|].
  destruct (Z.ltb_spec k 0); [lia|]. reflexivity.
Qed.

(** Outside the range the index is taken modulo the number of pages and
    the direction follows the orientation. *)
Lemma slideInIndex_out_of_range self index direction :
  1 <= count self -> ~ 0 <= index <= count self - 1 ->
  slideInIndex self index direction
  = slideInWidget self (widget self (index mod count self))
      (if index >? count self - 1 then forward self else backward self).
Proof.
  intros Hn Hout. unfold slideInIndex, py_mod.
  destruct (Z.eqb_spec (count self) 0) as [|_]; [lia|].
  destruct (Z.gtb_spec index (count self - 1)); [reflexivity|].
  destruct (Z.ltb_spec index 0); [|lia]. simpl.
  replace ((index + count self) mod count self) with (index mod count self);
    [reflexivity|].
  rewrite <- (Z.mul_1_l (count self)) at 2.
  rewrite Z.mod_add by lia. reflexivity.
Qed.

(** A request for a page of an idle stack, and the end of its animation:
    the page is the current one, the widget is idle and the pages are the
    same widgets. *)
Lemma settled_slideInWidget self k direction :
  shows_a_page self -> _active self = false -> 0 <= k < count self ->
  let s := settled (slideInWidget self (widget self k) direction) in
  currentIndex s = k /\ _active s = false
  /\ widget_id <$> pages s = widget_id <$> pages self.
Proof.
  intros [Hnd Hc] Hidle Hk.
  destruct (widget_in_range self k Hk) as [w Hw].
  destruct (widget_in_range self _ Hc) as [cw Hcw].
  pose proof (indexOf_widget self k w Hnd Hw) as Hi.
  rewrite Hw. destruct (decide (currentIndex self = k)) as [Heq|Hne].
  - unfold slideInWidget. rewrite Hidle.
    change (indexOf (set_active true self) (Some w)) with (indexOf self (Some w)).
    change (currentIndex (set_active true self)) with (currentIndex self).
    rewrite Hi, Heq, Z.eqb_refl. simpl. auto.
  - rewrite (slideInWidget_starts self w direction cw Hidle) by congruence.
    rewrite Hi. simpl. unfold anim_finished. simpl.
    set (s1 := set_geometry_origin k (set_active true self)).
    assert (Hs1 : exists w1, widget s1 k = Some w1).
    { apply widget_in_range. rewrite (count_ids self s1); [exact Hk|].
      apply (ids_set_geometry_origin k (set_active true self)). }
    destruct Hs1 as [w1 Hw1]. unfold setCurrentIndex. rewrite Hw1.
    set (s2 := mkStacked _ _ _ _ _ _ _).
    split; [|split].
    + unfold move_page. destruct (currentIndex self <? 0); reflexivity.
    + unfold move_page. destruct (currentIndex self <? 0); reflexivity.
    + rewrite ids_move_page. unfold s2. simpl.
      apply (ids_set_geometry_origin k (set_active true self)).
Qed.

Lemma shows_a_page_ids self s k :
  shows_a_page self -> 0 <= k < count self ->
  currentIndex s = k -> widget_id <$> pages s = widget_id <$> pages self ->
  shows_a_page s.
Proof.
  intros [Hnd _] Hk Hc Hids. split; [rewrite Hids; exact Hnd|].
  rewrite (count_ids _ _ Hids), Hc. exact Hk.
Qed.

Lemma next_index_in_range self :
  shows_a_page self ->
  let k := if currentIndex self <? count self - 1 then currentIndex self + 1
           else 0 in
  0 <= k < count self /\ k = (currentIndex self + 1) mod count self.
Proof.
  intros [_ Hc]. simpl.
  destruct (Z.ltb_spec (currentIndex self) (count self - 1)).
  - split; [lia|]. rewrite Z.mod_small by lia. reflexivity.
  - split; [lia|].
    replace (currentIndex self + 1) with (count self) by lia.
    rewrite Z.mod_same by lia. reflexivity.
Qed.

Lemma prev_index_in_range self :
  shows_a_page self ->
  let k := if currentIndex self >? 0 then currentIndex self - 1
           else count self - 1 in
  0 <= k < count self /\ k = (currentIndex self - 1) mod count self.
Proof.
  intros [_ Hc]. simpl.
  destruct (Z.gtb_spec (currentIndex self) 0).
  - split; [lia|]. rewrite Z.mod_small by lia. reflexivity.
  - split; [lia|].
    replace (currentIndex self - 1) with (count self - 1 + (-1) * count self)
      by lia.
    rewrite Z.mod_add by lia. rewrite Z.mod_small by lia. reflexivity.
Qed.

(** C10: on a stack of at least one page, [slideInIndex] slides to the page
    at position [index mod count], which exists; above the range it passes
    the forward direction of the orientation to [slideInWidget], below the
    range the backward one, and within the range the direction it was
    given.  On an idle stack that shows a page this means: when the page
    at [index mod count] is the current one, nothing happens; otherwise an
    animation starts from the current page to that page, which is the
    current page once the animation has ended.  For an index above the
    range the animation runs from top to bottom (vertical) or from right
    to left (horizontal), for an index below the range from bottom to top
    or from left to right, whatever direction was asked for, and the other
    way round when [reverse] is set; within the range it runs in the
    direction asked for, [Automatic] standing for the direction towards
    the end when the page comes after the current one and towards the
    start otherwise. *)
Theorem C10_slideInIndex_wraps self index direction :
  1 <= count self ->
  (exists page,
     pages self !! Z.to_nat (index mod count self) = Some page
     /\ slideInIndex self index direction
        = slideInWidget self (Some page)
            (if index >? count self - 1 then forward self
             else if index <? 0 then backward self
             else direction))
  /\ (shows_a_page self -> _active self = false ->
      let towards_end :=
        match orientation self, reverse self with
        | Vertical, false => TopToBottom
        | Vertical, true => BottomToTop
        | Horizontal, false => RightToLeft
        | Horizontal, true => LeftToRight
        end in
      let towards_start :=
        match orientation self, reverse self with
        | Vertical, false => BottomToTop
        | Vertical, true => TopToBottom
        | Horizontal, false => LeftToRight
        | Horizontal, true => RightToLeft
        end in
      (index mod count self = currentIndex self ->
       slideInIndex self index direction = (self, inr None))
      /\ (index mod count self <> currentIndex self ->
          exists self' slide,
            slideInIndex self index direction = (self', inr (Some slide))
            /\ _active self' = true
            /\ slide_from slide = currentIndex self
            /\ slide_to slide = index mod count self
            /\ currentIndex (anim_finished slide self') = index mod count self
            /\ _active (anim_finished slide self') = false
            /\ (count self - 1 < index ->
                slide_direction slide = towards_end)
            /\ (index < 0 -> slide_direction slide = towards_start)
            /\ (0 <= index <= count self - 1 ->
                slide_direction slide
                = match direction, reverse self with
                  | Automatic, _ =>
                      if currentIndex self <? index then towards_end
                      else towards_start
                  | d, false => d
                  | TopToBottom, true => BottomToTop
                  | BottomToTop, true => TopToBottom
                  | LeftToRight, true => RightToLeft
                  | RightToLeft, true => LeftToRight
                  end))).
Proof.
  intros Hn.
  pose proof (Z.mod_pos_bound index (count self) ltac:(lia)) as Hmod.
  destruct (widget_in_range self _ Hmod) as [page Hw].
  assert (Hpage : pages self !! Z.to_nat (index mod count self) = Some page).
  { unfold widget in Hw.
    destruct (Z.ltb_spec (index mod count self) 0); [lia|exact Hw]. }
  assert (Hslide : slideInIndex self index direction
                   = slideInWidget self (Some page)
                       (if index >? count self - 1 then forward self
                        else if index <? 0 then backward self
                        else direction)).
  { rewrite <- Hw. destruct (decide (0 <= index <= count self - 1)) as [Hin|Hout].
    - rewrite Z.mod_small by lia.
      destruct (Z.gtb_spec index (count self - 1)); [lia|].
      destruct (Z.ltb_spec index 0); [lia|].
      apply slideInIndex_in_range, Hin.
    - rewrite (slideInIndex_out_of_range self index direction Hn Hout).
      destruct (Z.gtb_spec index (count self - 1)); [reflexivity|].
      destruct (Z.ltb_spec index 0); [reflexivity|lia]. }
  split; [exists page; split; [exact Hpage|exact Hslide]|].
  intros Hwf Hidle towards_end towards_start. pose proof Hwf as [Hnd Hc].
  pose proof (indexOf_widget self _ page Hnd Hw) as Hi.
  split.
  - intros Heq. rewrite Hslide. unfold slideInWidget. rewrite Hidle.
    change (indexOf (set_active true self) (Some page))
      with (indexOf self (Some page)).
    change (currentIndex (set_active true self)) with (currentIndex self).
    rewrite Hi, Heq, Z.eqb_refl. destruct self. simpl in Hidle. subst.
    reflexivity.
  - intros Hne. destruct (widget_in_range self _ Hc) as [cw Hcw].
    pose proof (settled_slideInWidget self (index mod count self)
                  (if index >? count self - 1 then forward self
                   else if index <? 0 then backward self
                   else direction) Hwf Hidle Hmod) as Hsettled.
    rewrite Hw, <- Hslide in Hsettled.
    rewrite Hslide in Hsettled |- *.
    rewrite (slideInWidget_starts self page _ cw Hidle) in Hsettled |- *
      by congruence.
    rewrite Hi in Hsettled |- *. simpl in Hsettled.
    destruct Hsettled as (Hcur & Hact & _).
    eexists _, _. split; [reflexivity|]. simpl.
    split.
    { unfold set_geometry_origin.
      destruct (index mod count self <? 0); reflexivity. }
    split; [reflexivity|]. split; [reflexivity|].
    split; [exact Hcur|]. split; [exact Hact|].
    unfold towards_end, towards_start, forward, backward.
    split; [|split].
    + intros Hover. destruct (Z.gtb_spec index (count self - 1)); [|lia].
      destruct (orientation self), (reverse self); reflexivity.
    + intros Hunder. destruct (Z.gtb_spec index (count self - 1)); [lia|].
      destruct (Z.ltb_spec index 0); [|lia].
      destruct (orientation self), (reverse self); reflexivity.
    + intros Hin. destruct (Z.gtb_spec index (count self - 1)); [lia|].
      destruct (Z.ltb_spec index 0); [lia|].
      rewrite Z.mod_small by lia.
      destruct direction, (orientation self), (reverse self),
        (currentIndex self <? index); reflexivity.
Qed.

(** An animation that starts for a direction other than [Automatic] runs in
    that direction, turned around when [reverse] is set, from the current
    page to the page found for the widget. *)
Lemma slideInWidget_direction self next direction self' slide :
  direction ≠ Automatic ->
  slideInWidget self (Some next) direction = (self', inr (Some slide)) ->
  slide_direction slide
  = (if reverse self then reversed direction else direction)
  /\ slide_from slide = currentIndex self
  /\ slide_to slide = indexOf self (Some next)
  /\ _active self' = true.
Proof.
  intros Hdir. unfold slideInWidget.
  destruct (_active self); [discriminate|].
  change (currentIndex (set_active true self)) with (currentIndex self).
  change (indexOf (set_active true self) (Some next))
    with (indexOf self (Some next)).
  destruct (currentIndex self =? indexOf self (Some next)); [discriminate|].
  rewrite decide_False by exact Hdir.
  set (self1 := set_geometry_origin _ _).
  assert (Hrev : reverse self1 = reverse self).
  { unfold self1, set_geometry_origin.
    destruct (indexOf self (Some next) <? 0); reflexivity. }
  assert (Hact : _active self1 = true).
  { unfold self1, set_geometry_origin.
    destruct (indexOf self (Some next) <? 0); reflexivity. }
  rewrite Hrev.
  destruct (widget (set_active true self) (currentIndex self)) as [w|];
    [|destruct (if reverse self then reversed direction else direction);
      discriminate].
  destruct (if reverse self then reversed direction else direction) eqn:Hd;
    intros [= <- <-]; simpl; rewrite ?Hd; auto.
Qed.

(** A stack of three pages showing the first: the index 4 slides to the
    second page from right to left, whatever direction is asked for, and
    the index -1 to the third page from left to right. *)
Example slideInIndex_beyond_the_last :
  let self := mkStacked [mkWidget 10 0 0; mkWidget 11 0 0; mkWidget 12 0 0]
                0 640 480 Horizontal false false in
  slideInIndex self 4 TopToBottom
  = (set_active true self,
     inr (Some (mkSlide 0 1 RightToLeft (0, 0) (-640, 0) (640, 0) (0, 0)))).
Proof. reflexivity. Qed.

Example slideInIndex_before_the_first :
  let self := mkStacked [mkWidget 10 0 0; mkWidget 11 0 0; mkWidget 12 0 0]
                0 640 480 Horizontal false false in
  slideInIndex self (-1) TopToBottom
  = (set_active true self,
     inr (Some (mkSlide 0 2 LeftToRight (0, 0) (640, 0) (-640, 0) (0, 0)))).
Proof. reflexivity. Qed.

Lemma C10_slideInIndex_wraps_witness :
  let self := mkStacked [mkWidget 10 0 0; mkWidget 11 0 0; mkWidget 12 0 0]
                0 640 480 Horizontal false false in
  exists self' slide,
    slideInIndex self 4 TopToBottom = (self', inr (Some slide))
    /\ slide_from slide = 0
    /\ slide_to slide = 1
    /\ slide_direction slide = RightToLeft
    /\ currentIndex (anim_finished slide self') = 1.
Proof.
  intros self.
  pose proof (C10_slideInIndex_wraps self 4 TopToBottom
                ltac:(vm_compute; discriminate)) as [_ H].
  assert (Hwf : shows_a_page self).
  { split; [apply (bool_decide_unpack _); vm_compute; exact I|].
    vm_compute. split; [discriminate|reflexivity]. }
  destruct (H Hwf eq_refl) as [_ H'].
  destruct (H' ltac:(vm_compute; discriminate))
    as (self' & slide & Heq & _ & Hf & Ht & Hc & _ & Hover & _).
  exists self', slide. split; [exact Heq|]. split; [exact Hf|].
  split; [exact Ht|]. split; [|exact Hc].
  apply Hover. vm_compute. reflexivity.
Defined.

(** X17: [slideInIndex] on an idle stack that shows a page, followed by the
    end of the animation: the current page is the one at [index mod count],
    the widget takes requests again, and the pages are the same widgets. *)
Theorem slideInIndex_settles self index direction :
  shows_a_page self -> _active self = false ->
  let s := settled (slideInIndex self index direction) in
  currentIndex s = index mod count self
  /\ _active s = false
  /\ shows_a_page s
  /\ widget_id <$> pages s = widget_id <$> pages self.
Proof.
  intros Hwf Hidle. pose proof Hwf as [_ Hc].
  pose proof (Z.mod_pos_bound index (count self) ltac:(lia)) as Hmod.
  assert (Hs : exists d,
             slideInIndex self index direction
             = slideInWidget self (widget self (index mod count self)) d).
  { destruct (decide (0 <= index <= count self - 1)) as [Hin|Hout].
    - exists direction. rewrite Z.mod_small by lia.
      apply slideInIndex_in_range, Hin.
    - eexists. apply slideInIndex_out_of_range; [lia|exact Hout]. }
  destruct Hs as [d ->].
  destruct (settled_slideInWidget self (index mod count self) d Hwf Hidle Hmod)
    as (H1 & H2 & H3).
  split; [exact H1|]. split; [exact H2|]. split; [|exact H3].
  eapply shows_a_page_ids; eassumption.
Qed.

Lemma slide_to_neighbour self k :
  shows_a_page self -> _active self = false -> 0 <= k < count self ->
  k <> currentIndex self ->
  exists self' slide,
    slideInIndex self k Automatic = (self', inr (Some slide))
    /\ _active self' = true
    /\ slide_from slide = currentIndex self
    /\ slide_to slide = k
    /\ slide_direction slide
       = (let d := if currentIndex self <? k then forward self
                   else backward self in
          if reverse self then reversed d else d).
Proof.
  intros [Hnd Hc] Hidle Hk Hne.
  destruct (widget_in_range self k Hk) as [w Hw].
  destruct (widget_in_range self _ Hc) as [cw Hcw].
  pose proof (indexOf_widget self k w Hnd Hw) as Hi.
  rewrite slideInIndex_in_range by lia. rewrite Hw.
  rewrite (slideInWidget_starts self w Automatic cw Hidle) by congruence.
  rewrite Hi. simpl. eexists _, _. split; [reflexivity|]. simpl.
  split; [|auto]. unfold set_geometry_origin. destruct (k <? 0); reflexivity.
Qed.

(** X18: [slideInNext] on an idle stack of at least two pages starts the
    animation from the current page to the next one, the first page coming
    after the last.  The direction is the forward one of the orientation,
    except from the last page to the first, where it is the backward one;
    [reverse] turns it around. *)
Theorem slideInNext_slides self :
  shows_a_page self -> _active self = false -> 2 <= count self ->
  exists self' slide,
    slideInNext self = (self', inr (Some slide))
    /\ _active self' = true
    /\ slide_from slide = currentIndex self
    /\ slide_to slide = (currentIndex self + 1) mod count self
    /\ slide_direction slide
       = (let d := if currentIndex self <? count self - 1 then forward self
                   else backward self in
          if reverse self then reversed d else d)
    /\ slide_direction slide
       = match orientation self, reverse self,
               currentIndex self <? count self - 1 with
         | Vertical, false, true => TopToBottom
         | Vertical, true, true => BottomToTop
         | Horizontal, false, true => RightToLeft
         | Horizontal, true, true => LeftToRight
         | Vertical, false, false => BottomToTop
         | Vertical, true, false => TopToBottom
         | Horizontal, false, false => LeftToRight
         | Horizontal, true, false => RightToLeft
         end.
Proof.
  intros Hwf Hidle Hn. pose proof Hwf as [_ Hc].
  destruct (next_index_in_range self Hwf) as [Hk Hmod].
  unfold slideInNext. rewrite <- Hmod.
  destruct (Z.ltb_spec (currentIndex self) (count self - 1)) as [Hlt|Hge].
  - destruct (slide_to_neighbour self (currentIndex self + 1) Hwf Hidle Hk
                ltac:(lia)) as (self' & slide & H & Ha & Hf & Ht & Hd).
    exists self', slide. rewrite H, Ha, Hf, Ht, Hd. simpl.
    destruct (Z.ltb_spec (currentIndex self) (currentIndex self + 1)); [|lia].
    do 5 (split; [reflexivity|]). unfold forward.
    destruct (orientation self), (reverse self); reflexivity.
  - destruct (slide_to_neighbour self 0 Hwf Hidle Hk ltac:(lia))
      as (self' & slide & H & Ha & Hf & Ht & Hd).
    exists self', slide. rewrite H, Ha, Hf, Ht, Hd. simpl.
    destruct (Z.ltb_spec (currentIndex self) 0); [lia|].
    do 5 (split; [reflexivity|]). unfold backward.
    destruct (orientation self), (reverse self); reflexivity.
Qed.

(** X19: [slideInPrev] on an idle stack of at least two pages starts the
    animation from the current page to the one before it, the last page
    coming before the first.  The direction is the backward one of the
    orientation, except from the first page to the last, where it is the
    forward one; [reverse] turns it around. *)
Theorem slideInPrev_slides self :
  shows_a_page self -> _active self = false -> 2 <= count self ->
  exists self' slide,
    slideInPrev self = (self', inr (Some slide))
    /\ _active self' = true
    /\ slide_from slide = currentIndex self
    /\ slide_to slide = (currentIndex self - 1) mod count self
    /\ slide_direction slide
       = (let d := if currentIndex self >? 0 then backward self
                   else forward self in
          if reverse self then reversed d else d)
    /\ slide_direction slide
       = match orientation self, reverse self, currentIndex self >? 0 with
         | Vertical, false, true => BottomToTop
         | Vertical, true, true => TopToBottom
         | Horizontal, false, true => LeftToRight
         | Horizontal, true, true => RightToLeft
         | Vertical, false, false => TopToBottom
         | Vertical, true, false => BottomToTop
         | Horizontal, false, false => RightToLeft
         | Horizontal, true, false => LeftToRight
         end.
Proof.
  intros Hwf Hidle Hn. pose proof Hwf as [_ Hc].
  destruct (prev_index_in_range self Hwf) as [Hk Hmod].
  unfold slideInPrev. rewrite <- Hmod.
  destruct (Z.gtb_spec (currentIndex self) 0) as [Hgt|Hle].
  - destruct (slide_to_neighbour self (currentIndex self - 1) Hwf Hidle Hk
                ltac:(lia)) as (self' & slide & H & Ha & Hf & Ht & Hd).
    exists self', slide. rewrite H, Ha, Hf, Ht, Hd. simpl.
    destruct (Z.ltb_spec (currentIndex self) (currentIndex self - 1)); [lia|].
    do 5 (split; [reflexivity|]). unfold backward.
    destruct (orientation self), (reverse self); reflexivity.
  - destruct (slide_to_neighbour self (count self - 1) Hwf Hidle Hk ltac:(lia))
      as (self' & slide & H & Ha & Hf & Ht & Hd).
    exists self', slide. rewrite H, Ha, Hf, Ht, Hd. simpl.
    destruct (Z.ltb_spec (currentIndex self) (count self - 1)); [|lia].
    do 5 (split; [reflexivity|]). unfold forward.
    destruct (orientation self), (reverse self); reflexivity.
Qed.

Lemma settled_slideInNext self :
  shows_a_page self -> _active self = false ->
  let s := settled (slideInNext self) in
  shows_a_page s /\ _active s = false /\ count s = count self
  /\ currentIndex s = (currentIndex self + 1) mod count self.
Proof.
  intros Hwf Hidle. destruct (next_index_in_range self Hwf) as [Hk Hmod].
  unfold slideInNext. rewrite slideInIndex_in_range by lia.
  destruct (settled_slideInWidget self _ Automatic Hwf Hidle Hk)
    as (H1 & H2 & H3).
  split; [eapply shows_a_page_ids; eassumption|].
  split; [exact H2|]. split; [apply count_ids, H3|]. rewrite H1. exact Hmod.
Qed.

Lemma settled_slideInPrev self :
  shows_a_page self -> _active self = false ->
  let s := settled (slideInPrev self) in
  shows_a_page s /\ _active s = false /\ count s = count self
  /\ currentIndex s = (currentIndex self - 1) mod count self.
Proof.
  intros Hwf Hidle. destruct (prev_index_in_range self Hwf) as [Hk Hmod].
  unfold slideInPrev. rewrite slideInIndex_in_range by lia.
  destruct (settled_slideInWidget self _ Automatic Hwf Hidle Hk)
    as (H1 & H2 & H3).
  split; [eapply shows_a_page_ids; eassumption|].
  split; [exact H2|]. split; [apply count_ids, H3|]. rewrite H1. exact Hmod.
Qed.

(** X20: on an idle stack that shows a page, [slideInNext] and [slideInPrev]
    undo each other once their animations have ended: the page shown is
    the one shown before, and the widget is idle. *)
Theorem slideInNext_slideInPrev_round_trip self :
  shows_a_page self -> _active self = false ->
  let there := settled (slideInPrev (settled (slideInNext self))) in
  let back := settled (slideInNext (settled (slideInPrev self))) in
  currentIndex there = currentIndex self /\ _active there = false
  /\ currentIndex back = currentIndex self /\ _active back = false.
Proof.
  intros Hwf Hidle. pose proof Hwf as [_ Hc].
  destruct (settled_slideInNext self Hwf Hidle) as (Hwf1 & Hi1 & Hn1 & Hc1).
  destruct (settled_slideInPrev _ Hwf1 Hi1) as (_ & Hi2 & _ & Hc2).
  destruct (settled_slideInPrev self Hwf Hidle) as (Hwf3 & Hi3 & Hn3 & Hc3).
  destruct (settled_slideInNext _ Hwf3 Hi3) as (_ & Hi4 & _ & Hc4).
  simpl. rewrite Hc2, Hc4, Hc1, Hc3, Hn1, Hn3.
  split; [|split; [exact Hi2|split; [|exact Hi4]]].
  - rewrite Zminus_mod_idemp_l.
    replace (currentIndex self + 1 - 1) with (currentIndex self) by lia.
    apply Z.mod_small, Hc.
  - rewrite Zplus_mod_idemp_l.
    replace (currentIndex self - 1 + 1) with (currentIndex self) by lia.
    apply Z.mod_small, Hc.
Qed.

(** X21: on a stack without pages [slideInIndex] raises [ZeroDivisionError]
    for every index, and so do [slideInNext] and [slideInPrev]; the widget
    is left as it was.  The test of [_active] comes later, in
    [slideInWidget], so this holds for a widget that is flagged active
    too. *)
Theorem slideInIndex_empty_stack self index direction :
  count self = 0 ->
  slideInIndex self index direction = (self, inl ZeroDivisionError)
  /\ slideInNext self = (self, inl ZeroDivisionError)
  /\ slideInPrev self = (self, inl ZeroDivisionError).
Proof.
  intros H0.
  assert (H : forall i d, slideInIndex self i d = (self, inl ZeroDivisionError)).
  { intros i d. unfold slideInIndex, py_mod. rewrite H0. simpl.
    destruct (Z.gtb_spec i (0 - 1)); [reflexivity|].
    destruct (Z.ltb_spec i 0); [reflexivity|lia]. }
  split; [apply H|]. split; apply H.
Qed.

(** X22: while [_active] is set, a stack with pages drops every request:
    [slideInWidget], [slideInIndex], [slideInNext] and [slideInPrev] start
    no animation, raise nothing and leave the widget as it is. *)
Theorem requests_dropped_while_active self next index direction :
  _active self = true -> 1 <= count self ->
  slideInWidget self next direction = (self, inr None)
  /\ slideInIndex self index direction = (self, inr None)
  /\ slideInNext self = (self, inr None)
  /\ slideInPrev self = (self, inr None).
Proof.
  intros Hact Hn.
  assert (Hw : forall w d, slideInWidget self w d = (self, inr None)).
  { intros w d. unfold slideInWidget. rewrite Hact. reflexivity. }
  assert (Hi : forall i d, slideInIndex self i d = (self, inr None)).
  { intros i d. unfold slideInIndex, py_mod.
    destruct (Z.eqb_spec (count self) 0) as [|_]; [lia|].
    destruct (i >? count self - 1); [apply Hw|].
    destruct (i <? 0); apply Hw. }
  split; [apply Hw|]. split; [apply Hi|]. split; apply Hi.
Qed.

(** X23: every animation that [slideInWidget] starts runs from the current
    page to the page of the widget, which is another one, and has a
    direction other than [Automatic]; the label of the page that leaves
    travels from the position of the current page by the displacement of
    that direction, which is the height of the frame down or up, or the
    width of the frame to the right or to the left; the label of the page
    that comes travels by the same displacement and ends at the origin. *)
Theorem slide_geometry self next direction self' slide :
  slideInWidget self next direction = (self', inr (Some slide)) ->
  let off := displacement self (slide_direction slide) in
  slide_direction slide <> Automatic
  /\ (off.1 = 0 \/ off.2 = 0)
  /\ current_end slide
     = ((current_start slide).1 + off.1, (current_start slide).2 + off.2)
  /\ next_start slide = (- off.1, - off.2)
  /\ next_end slide = (0, 0)
  /\ slide_from slide = currentIndex self
  /\ slide_to slide = indexOf self next
  /\ slide_from slide <> slide_to slide
  /\ (exists current_widget,
        0 <= currentIndex self
        /\ pages self !! Z.to_nat (currentIndex self) = Some current_widget
        /\ current_start slide = (pos_x current_widget, pos_y current_widget))
  /\ match slide_direction slide with
     | TopToBottom => off = (0, frame_height self)
     | BottomToTop => off = (0, - frame_height self)
     | LeftToRight => off = (frame_width self, 0)
     | RightToLeft => off = (- frame_width self, 0)
     | Automatic => False
     end.
Proof.
  unfold slideInWidget. destruct (_active self); [discriminate|].
  change (currentIndex (set_active true self)) with (currentIndex self).
  change (indexOf (set_active true self) next) with (indexOf self next).
  destruct (Z.eqb_spec (currentIndex self) (indexOf self next)) as [|Hne];
    [discriminate|].
  destruct next as [next|]; [|discriminate].
  set (n := indexOf self (Some next)) in *.
  set (s1 := set_geometry_origin n (set_active true self)).
  assert (Hs : reverse s1 = reverse self /\ forward s1 = forward self
               /\ backward s1 = backward self).
  { unfold s1, set_geometry_origin, forward, backward.
    destruct (n <? 0); auto. }
  destruct Hs as (-> & -> & ->).
  set (d0 := if decide (direction = Automatic) then _ else direction).
  assert (Hd0 : d0 <> Automatic).
  { unfold d0. case_decide as Hd; [|exact Hd].
    unfold forward, backward.
    destruct (currentIndex self <? n), (decide (orientation self = Vertical));
      discriminate. }
  set (d := if reverse self then reversed d0 else d0).
  assert (Hd : d <> Automatic).
  { unfold d. destruct (reverse self); [|exact Hd0].
    destruct d0; try discriminate. contradiction. }
  change (frame_width (set_active true self)) with (frame_width self).
  change (frame_height (set_active true self)) with (frame_height self).
  change (widget (set_active true self) (currentIndex self))
    with (widget self (currentIndex self)).
  destruct (widget self (currentIndex self)) as [cw|] eqn:Hcw.
  2:{ destruct d; discriminate. }
  assert (Hpage : 0 <= currentIndex self
                  /\ pages self !! Z.to_nat (currentIndex self) = Some cw).
  { unfold widget in Hcw.
    destruct (Z.ltb_spec (currentIndex self) 0); [discriminate|].
    split; [assumption|exact Hcw]. }
  destruct Hpage as [Hpos Hpage].
  destruct d eqn:Ed; [| | | |contradiction]; intros [= <- <-]; simpl;
    (split; [discriminate|]); (split; [auto|]);
    (split; [f_equal; lia|]); (split; [f_equal; lia|]);
    (split; [reflexivity|]); (split; [reflexivity|]);
    (split; [reflexivity|]); (split; [exact Hne|]);
    (split; [exists cw; auto|reflexivity]).
Qed.

(** *** The further properties at concrete stacks *)

Lemma slideInIndex_settles_witness :
  let self := mkStacked [mkWidget 10 0 0; mkWidget 11 0 0; mkWidget 12 0 0]
                0 640 480 Horizontal false false in
  let s := settled (slideInIndex self 4 TopToBottom) in
  currentIndex s = 4 mod count self
  /\ _active s = false
  /\ shows_a_page s
  /\ widget_id <$> pages s = widget_id <$> pages self.
Proof.
  intros self.
  refine (slideInIndex_settles self 4 TopToBottom _ _).
  - split; [apply (bool_decide_unpack _); vm_compute; exact I|].
    vm_compute. split; [discriminate|reflexivity].
  - reflexivity.
Defined.

Lemma slideInNext_slides_witness :
  let self := mkStacked [mkWidget 10 0 0; mkWidget 11 0 0; mkWidget 12 0 0]
                2 640 480 Horizontal false false in
  exists self' slide,
    slideInNext self = (self', inr (Some slide))
    /\ _active self' = true
    /\ slide_from slide = currentIndex self
    /\ slide_to slide = (currentIndex self + 1) mod count self
    /\ slide_direction slide
       = (let d := if currentIndex self <? count self - 1 then forward self
                   else backward self in
          if reverse self then reversed d else d)
    /\ slide_direction slide = LeftToRight.
Proof.
  intros self.
  refine (slideInNext_slides self _ _ _).
  - split; [apply (bool_decide_unpack _); vm_compute; exact I|].
    vm_compute. split; [discriminate|reflexivity].
  - reflexivity.
  - vm_compute. discriminate.
Defined.

Lemma slideInPrev_slides_witness :
  let self := mkStacked [mkWidget 10 0 0; mkWidget 11 0 0; mkWidget 12 0 0]
                0 640 480 Vertical true false in
  exists self' slide,
    slideInPrev self = (self', inr (Some slide))
    /\ _active self' = true
    /\ slide_from slide = currentIndex self
    /\ slide_to slide = (currentIndex self - 1) mod count self
    /\ slide_direction slide
       = (let d := if currentIndex self >? 0 then backward self
                   else forward self in
          if reverse self then reversed d else d)
    /\ slide_direction slide = BottomToTop.
Proof.
  intros self.
  refine (slideInPrev_slides self _ _ _).
  - split; [apply (bool_decide_unpack _); vm_compute; exact I|].
    vm_compute. split; [discriminate|reflexivity].
  - reflexivity.
  - vm_compute. discriminate.
Defined.

Lemma slideInNext_slideInPrev_round_trip_witness :
  let self := mkStacked [mkWidget 10 0 0; mkWidget 11 0 0; mkWidget 12 0 0]
                2 640 480 Horizontal false false in
  let there := settled (slideInPrev (settled (slideInNext self))) in
  let back := settled (slideInNext (settled (slideInPrev self))) in
  currentIndex there = currentIndex self /\ _active there = false
  /\ currentIndex back = currentIndex self /\ _active back = false.
Proof.
  intros self.
  refine (slideInNext_slideInPrev_round_trip self _ _).
  - split; [apply (bool_decide_unpack _); vm_compute; exact I|].
    vm_compute. split; [discriminate|reflexivity].
  - reflexivity.
Defined.

Lemma slideInIndex_empty_stack_witness :
  let self := mkStacked [] (-1) 640 480 Vertical false true in
  slideInIndex self 0 Automatic = (self, inl ZeroDivisionError)
  /\ slideInNext self = (self, inl ZeroDivisionError)
  /\ slideInPrev self = (self, inl ZeroDivisionError).
Proof.
  intros self. exact (slideInIndex_empty_stack self 0 Automatic eq_refl).
Defined.

Lemma requests_dropped_while_active_witness :
  let self := mkStacked [mkWidget 10 0 0; mkWidget 11 0 0] 0 640 480
                Vertical false true in
  slideInWidget self (Some (mkWidget 11 0 0)) Automatic = (self, inr None)
  /\ slideInIndex self 5 Automatic = (self, inr None)
  /\ slideInNext self = (self, inr None)
  /\ slideInPrev self = (self, inr None).
Proof.
  intros self.
  refine (requests_dropped_while_active self (Some (mkWidget 11 0 0)) 5
            Automatic _ _).
  - reflexivity.
  - vm_compute. discriminate.
Defined.

Lemma slide_geometry_witness :
  let self := mkStacked [mkWidget 10 5 7; mkWidget 11 0 0; mkWidget 12 0 0]
                0 640 480 Horizontal true false in
  let next := Some (mkWidget 11 0 0) in
  let self' := set_geometry_origin 1 (set_active true self) in
  let slide := mkSlide 0 1 LeftToRight (5, 7) (645, 7) (-640, 0) (0, 0) in
  slideInWidget self next Automatic = (self', inr (Some slide))
  /\ (let off := displacement self (slide_direction slide) in
      slide_direction slide <> Automatic
      /\ (off.1 = 0 \/ off.2 = 0)
      /\ current_end slide
         = ((current_start slide).1 + off.1, (current_start slide).2 + off.2)
      /\ next_start slide = (- off.1, - off.2)
      /\ next_end slide = (0, 0)
      /\ slide_from slide = currentIndex self
      /\ slide_to slide = indexOf self next
      /\ slide_from slide <> slide_to slide
      /\ (exists current_widget,
            0 <= currentIndex self
            /\ pages self !! Z.to_nat (currentIndex self)
               = Some current_widget
            /\ current_start slide
               = (pos_x current_widget, pos_y current_widget))
      /\ match slide_direction slide with
         | TopToBottom => off = (0, frame_height self)
         | BottomToTop => off = (0, - frame_height self)
         | LeftToRight => off = (frame_width self, 0)
         | RightToLeft => off = (- frame_width self, 0)
         | Automatic => False
         end).
Proof.
  intros self next self' slide. split; [reflexivity|].
  refine (slide_geometry self next Automatic self' slide _).
  reflexivity.
Defined.

End WidgetsFacts.

(** ** The stacked bar *)

Module StackedBarFacts.

Import StackedBar PyFacts.

(** *** The conversion to [double] *)

Lemma mapM_to_double_cons value rest :
  mapM to_double (value :: rest)
  = (x ← to_double value; xs ← mapM to_double rest; mret (x :: xs)).
Proof. reflexivity. Qed.

Lemma mapM_to_double_length values : forall doubles,
  mapM to_double values = inr doubles -> length doubles = length values.
Proof.
  induction values as [|value rest IH]; intros doubles.
  - intros [= <-]. reflexivity.
  - rewrite mapM_to_double_cons.
    destruct (to_double value) as [e|x]; simpl; [discriminate|].
    destruct (mapM to_double rest) as [e|xs]; simpl; [discriminate|].
    intros [= <-]. simpl. f_equal. apply IH. reflexivity.
Qed.

(** An integer of fewer than 54 bits is converted without rounding. *)
Lemma to_double_exact value :
  (- 2 ^ 53 < value < 2 ^ 53)%Z ->
  exists x, to_double value = inr x /\ int_of_float x = inr value.
Proof.
  intros Hv. destruct (int_of_float_of_int value Hv) as (x & Hx & Hi & Hfin).
  exists x. split; [|exact Hi]. unfold to_double. rewrite Hx.
  destruct x; try reflexivity; contradiction.
Qed.

Lemma mapM_to_double_exact values :
  Forall (fun value => - 2 ^ 53 < value < 2 ^ 53)%Z values ->
  exists doubles,
    mapM to_double values = inr doubles
    /\ Forall2 (fun value x => int_of_float x = inr value) values doubles.
Proof.
  induction 1 as [|value rest Hv _ (xs & Hxs & Hall)].
  - exists []. split; [reflexivity|constructor].
  - destruct (to_double_exact value Hv) as (x & Hx & Hi).
    exists (x :: xs). rewrite mapM_to_double_cons, Hx, Hxs.
    split; [reflexivity|]. constructor; assumption.
Qed.

(** *** [__init__] *)

Lemma init_from_converted colors values : forall doubles v,
  mapM to_double values = inr doubles ->
  init_from colors v values
  = match colors with
    | None =>
        inr ((fun x => mkBarSet [x] None (Some transparent)) <$> doubles)
    | Some cs =>
        if decide (length values <= length (drop v cs))%nat then
          inr (zip_with (fun x color =>
                           mkBarSet [x] (Some (default lightGray color))
                                    (Some transparent))
                        doubles (drop v cs))
        else inl IndexError
    end.
Proof.
  induction values as [|value rest IH]; intros doubles v.
  - intros [= <-]. destruct colors as [cs|]; [|reflexivity].
    destruct (decide (length [] <= length (drop v cs))%nat) as [|Hn];
      [reflexivity|]. exfalso. apply Hn. simpl. lia.
  - rewrite mapM_to_double_cons.
    destruct (to_double value) as [e|x] eqn:Hx; simpl; [discriminate|].
    destruct (mapM to_double rest) as [e|xs] eqn:Hxs; simpl; [discriminate|].
    intros [= <-]. cbn [init_from]. unfold new_bar_set. rewrite Hx. simpl.
    specialize (IH xs (S v) eq_refl).
    destruct colors as [cs|]; simpl.
    + destruct (cs !! v) as [color|] eqn:Hv; simpl.
      * rewrite IH. rewrite (drop_S _ _ _ Hv). simpl.
        destruct (decide (length rest <= length (drop (S v) cs))%nat).
        -- rewrite decide_True by lia. reflexivity.
        -- rewrite decide_False by lia. reflexivity.
      * apply lookup_ge_None in Hv. rewrite drop_ge by exact Hv.
        rewrite decide_False by (simpl; lia). reflexivity.
    + rewrite IH. reflexivity.
Qed.

Lemma init_from_overflow colors values : forall v,
  Exists (fun value => to_double value = inl OverflowError) values ->
  match colors with
  | None => True
  | Some cs => (length values <= length (drop v cs))%nat
  end ->
  init_from colors v values = inl OverflowError.
Proof.
  induction values as [|value rest IH]; intros v Hex Hlen;
    [inversion Hex|].
  cbn [init_from]. unfold new_bar_set.
  destruct (to_double value) as [e|x] eqn:Hx; simpl.
  - apply Exists_cons in Hex as [Hex|Hex]; [congruence|].
    (* the first value that does not convert ends the loop *)
    unfold to_double in Hx. destruct (float_of_int value); try discriminate.
    injection Hx as <-. reflexivity.
  - apply Exists_cons in Hex as [Hex|Hex]; [congruence|].
    destruct colors as [cs|]; simpl.
    + destruct (cs !! v) as [color|] eqn:Hv; simpl.
      * rewrite (IH (S v) Hex); [reflexivity|].
        rewrite (drop_S _ _ _ Hv) in Hlen. simpl in Hlen. lia.
      * apply lookup_ge_None in Hv. rewrite drop_ge in Hlen by exact Hv.
        simpl in Hlen. lia.
    + rewrite (IH (S v) Hex I). reflexivity.
Qed.

(** X24: [StackedBar.__init__].  Every value is stored as the binary64
    number that [append] converts it to.  When all the values convert:
    without colours there is one bar set per value, holding that number
    alone, with a transparent border and no colour set; with colours the
    constructor raises [IndexError] when there are fewer colours than
    values, and otherwise the bar set of each value has the colour at the
    same position, light gray standing in for [None], colours beyond the
    values being ignored.  Values of fewer than 54 bits are stored exactly.
    A value beyond the range of binary64 makes the constructor raise
    [OverflowError], when the colours reach that far.  So [2 ^ 53 + 1] is
    stored as [2 ^ 53], and [2 ^ 1024] raises. *)
Theorem init_bar_sets values colors :
  (forall doubles,
     mapM to_double values = inr doubles ->
     init values colors
     = match colors with
       | None =>
           inr ((fun x => mkBarSet [x] None (Some transparent)) <$> doubles)
       | Some cs =>
           if decide (length values <= length cs)%nat then
             inr (zip_with (fun x color =>
                              mkBarSet [x] (Some (default lightGray color))
                                       (Some transparent))
                           doubles cs)
           else inl IndexError
       end)
  /\ (Forall (fun value => - 2 ^ 53 < value < 2 ^ 53)%Z values ->
      exists doubles,
        mapM to_double values = inr doubles
        /\ Forall2 (fun value x => int_of_float x = inr value) values doubles)
  /\ (Exists (fun value => to_double value = inl OverflowError) values ->
      match colors with
      | None => True
      | Some cs => (length values <= length cs)%nat
      end ->
      init values colors = inl OverflowError)
  /\ to_double (2 ^ 53 + 1) = inr (S754_finite false 4503599627370496 1)
  /\ to_double (2 ^ 1024) = inl OverflowError.
Proof.
  split; [|split; [apply mapM_to_double_exact|split]].
  - intros doubles Hd. unfold init.
    rewrite (init_from_converted colors values doubles 0 Hd).
    destruct colors as [cs|]; [rewrite drop_0|]; reflexivity.
  - intros Hex Hlen. apply init_from_overflow; [exact Hex|].
    destruct colors as [cs|]; [rewrite drop_0|]; exact Hlen.
  - split; vm_compute; reflexivity.
Qed.

(** *** [setValues] *)

Lemma setValues_from_spec values : forall doubles v0 self,
  mapM to_double values = inr doubles ->
  (v0 <= length self)%nat ->
  let after := (setValues_from v0 values self).1 in
  length after = length self
  /\ (forall v bar_set, self !! v = Some bar_set ->
        after !! v
        = Some (if decide (v0 <= v)%nat then
                  match doubles !! (v - v0)%nat with
                  | Some x =>
                      mkBarSet (drop 1 (bar_values bar_set) ++ [x])
                               (bar_color bar_set) (bar_border bar_set)
                  | None => bar_set
                  end
                else bar_set))
  /\ (setValues_from v0 values self).2
     = if decide (v0 + length values <= length self)%nat then inr ()
       else inl IndexError.
Proof.
  induction values as [|value rest IH]; intros doubles v0 self.
  - intros [= <-] Hv0. simpl. split; [reflexivity|]. split.
    + intros v b Hv. rewrite Hv.
      destruct (decide (v0 <= v)%nat); reflexivity.
    + rewrite decide_True by lia. reflexivity.
  - rewrite mapM_to_double_cons.
    destruct (to_double value) as [e|x] eqn:Hx; simpl; [discriminate|].
    destruct (mapM to_double rest) as [e|xs] eqn:Hxs; simpl; [discriminate|].
    intros [= <-] Hv0. rewrite Hx.
    destruct (self !! v0) as [b0|] eqn:H0.
    + pose proof (lookup_lt_Some _ _ _ H0) as Hlt.
      set (self1 := alter (append_value x) v0 (alter remove_first v0 self)).
      assert (Hlen1 : length self1 = length self).
      { unfold self1. rewrite !length_alter. reflexivity. }
      destruct (IH xs (S v0) self1 eq_refl ltac:(lia))
        as (Hlen & Hlook & Hres).
      rewrite Hlen1 in Hlen. split; [exact Hlen|]. split.
      * intros v b Hv.
        destruct (decide (v = v0)) as [->|Hne].
        -- rewrite (Hlook v0 (append_value x (remove_first b))).
           ++ rewrite decide_False by lia. rewrite decide_True by lia.
              rewrite Nat.sub_diag. reflexivity.
           ++ unfold self1. rewrite !list_lookup_alter_eq, Hv. reflexivity.
        -- rewrite (Hlook v b).
           ++ destruct (decide (S v0 <= v)%nat).
              ** rewrite decide_True by lia.
                 replace (v - v0)%nat with (S (v - S v0)) by lia. reflexivity.
              ** rewrite decide_False by lia. reflexivity.
           ++ unfold self1. rewrite !list_lookup_alter_ne by congruence.
              exact Hv.
      * rewrite Hres, Hlen1.
        destruct (decide (S v0 + length rest <= length self)%nat).
        -- rewrite decide_True by (simpl; lia). reflexivity.
        -- rewrite decide_False by (simpl; lia). reflexivity.
    + apply lookup_ge_None in H0. simpl. split; [reflexivity|]. split.
      * intros v b Hv. rewrite Hv. f_equal.
        destruct (decide (v0 <= v)%nat); [|reflexivity].
        apply lookup_lt_Some in Hv. lia.
      * rewrite decide_False by (simpl; lia). reflexivity.
Qed.

Lemma setValues_from_length values : forall v0 self,
  length (setValues_from v0 values self).1 = length self.
Proof.
  induction values as [|value rest IH]; intros v0 self; simpl; [reflexivity|].
  destruct (self !! v0); [|reflexivity].
  destruct (to_double value); simpl.
  - rewrite length_alter. reflexivity.
  - rewrite IH, !length_alter. reflexivity.
Qed.

Lemma setValues_from_overflow before : forall value rest doubles v0 self,
  mapM to_double before = inr doubles ->
  to_double value = inl OverflowError ->
  (v0 + length before < length self)%nat ->
  (setValues_from v0 (before ++ value :: rest) self).2 = inl OverflowError
  /\ exists bar_set,
       self !! (v0 + length before)%nat = Some bar_set
       /\ (setValues_from v0 (before ++ value :: rest) self).1
          !! (v0 + length before)%nat
          = Some (mkBarSet (drop 1 (bar_values bar_set)) (bar_color bar_set)
                           (bar_border bar_set)).
Proof.
  induction before as [|b before IH]; intros value rest doubles v0 self.
  - intros _ Hv Hlt. simpl app. simpl length in *. rewrite Nat.add_0_r in *.
    destruct (lookup_lt_is_Some_2 self v0 Hlt) as [bs Hbs].
    assert (Hrun : setValues_from v0 (value :: rest) self
                   = (alter remove_first v0 self, inl OverflowError)).
    { simpl. rewrite Hbs, Hv. reflexivity. }
    rewrite Hrun. split; [reflexivity|].
    exists bs. split; [exact Hbs|].
    simpl. rewrite list_lookup_alter_eq, Hbs. reflexivity.
  - rewrite mapM_to_double_cons.
    destruct (to_double b) as [e|x] eqn:Hx; simpl; [discriminate|].
    destruct (mapM to_double before) as [e|xs] eqn:Hxs; simpl; [discriminate|].
    intros _ Hv Hlt. rewrite Hx.
    destruct (lookup_lt_is_Some_2 self v0 ltac:(lia)) as [bs Hbs].
    rewrite Hbs.
    set (self1 := alter (append_value x) v0 (alter remove_first v0 self)).
    assert (Hlen1 : length self1 = length self).
    { unfold self1. rewrite !length_alter. reflexivity. }
    destruct (IH value rest xs (S v0) self1 eq_refl Hv ltac:(lia))
      as (Hres & bar_set & Hb & Hafter).
    replace (v0 + S (length before))%nat with (S v0 + length before)%nat
      by lia.
    split; [exact Hres|]. exists bar_set. split; [|exact Hafter].
    unfold self1 in Hb. rewrite !list_lookup_alter_ne in Hb by lia. exact Hb.
Qed.

(** X25: [StackedBar.setValues].  The number of bar sets stays.  When all
    the values convert to binary64, the bar set at the position of a value
    loses its first value and gets the converted one as its last, so bar
    sets with one value each keep one value each; the bar sets beyond the
    values stay as they are and no colour changes; with more values than
    bar sets the call raises [IndexError], after it has written all the bar
    sets that there are.  At the first value beyond the range of binary64
    the call raises [OverflowError], and the bar set at that position has
    lost its first value and got none. *)
Theorem setValues_bar_sets values self :
  let after := (setValues values self).1 in
  length after = length self
  /\ (forall doubles,
        mapM to_double values = inr doubles ->
        (forall v bar_set, self !! v = Some bar_set ->
           after !! v
           = Some match doubles !! v with
                  | Some x =>
                      mkBarSet (drop 1 (bar_values bar_set) ++ [x])
                               (bar_color bar_set) (bar_border bar_set)
                  | None => bar_set
                  end)
        /\ (setValues values self).2
           = (if decide (length values <= length self)%nat then inr ()
              else inl IndexError)
        /\ (Forall (fun b => length (bar_values b) = 1%nat) self ->
            Forall (fun b => length (bar_values b) = 1%nat) after))
  /\ (forall before value rest doubles,
        values = before ++ value :: rest ->
        mapM to_double before = inr doubles ->
        to_double value = inl OverflowError ->
        (length before < length self)%nat ->
        (setValues values self).2 = inl OverflowError
        /\ exists bar_set,
             self !! length before = Some bar_set
             /\ after !! length before
                = Some (mkBarSet (drop 1 (bar_values bar_set))
                                 (bar_color bar_set) (bar_border bar_set))).
Proof.
  intros after. subst after. unfold setValues.
  split; [apply setValues_from_length|]. split.
  - intros doubles Hd.
    destruct (setValues_from_spec values doubles 0 self Hd ltac:(lia))
      as (Hlen & Hlook & Hres).
    assert (Hlook' : forall v bar_set, self !! v = Some bar_set ->
              (setValues_from 0 values self).1 !! v
              = Some match doubles !! v with
                     | Some x =>
                         mkBarSet (drop 1 (bar_values bar_set) ++ [x])
                                  (bar_color bar_set) (bar_border bar_set)
                     | None => bar_set
                     end).
    { intros v b Hv. rewrite (Hlook v b Hv), decide_True by lia.
      rewrite Nat.sub_0_r. reflexivity. }
    split; [exact Hlook'|]. split; [exact Hres|].
    intros Hone. apply Forall_lookup. intros v b' Hv'.
    destruct (self !! v) as [b|] eqn:Hv.
    + rewrite (Hlook' v b Hv) in Hv'. injection Hv' as <-.
      pose proof (proj1 (Forall_lookup _ _) Hone v b Hv) as Hb. simpl in Hb.
      destruct (doubles !! v) as [x|]; [|exact Hb].
      simpl. rewrite length_app, length_drop, Hb. reflexivity.
    + apply lookup_ge_None in Hv. apply lookup_lt_Some in Hv'. lia.
  - intros before value rest doubles -> Hd Hv Hlt.
    apply (setValues_from_overflow before value rest doubles 0 self Hd Hv Hlt).
Qed.

(** *** [__init__] and the setters *)

Lemma setValues_from_init colors values : forall values' v pre self self',
  init_from colors v values = inr self ->
  init_from colors v values' = inr self' ->
  length values' = length values -> length pre = v ->
  setValues_from v values' (pre ++ self) = (pre ++ self', inr ()).
Proof.
  induction values as [|value rest IH]; intros [|value' rest'] v pre self self';
    simpl; try discriminate.
  - intros [= <-] [= <-] _ _. reflexivity.
  - destruct (new_bar_set colors v value) as [e|b] eqn:Hb; simpl;
      [discriminate|].
    destruct (init_from colors (S v) rest) as [e|bs] eqn:Hbs; simpl;
      [discriminate|].
    intros [= <-].
    destruct (new_bar_set colors v value') as [e|b'] eqn:Hb'; simpl;
      [discriminate|].
    destruct (init_from colors (S v) rest') as [e|bs'] eqn:Hbs'; simpl;
      [discriminate|].
    intros [= <-] [= Hlen] Hpre.
    unfold new_bar_set in Hb, Hb'.
    destruct (to_double value) as [e|x] eqn:Hx; simpl in Hb; [discriminate|].
    destruct (to_double value') as [e|x'] eqn:Hx'; simpl in Hb';
      [discriminate|].
    assert (Hbb : b' = append_value x' (remove_first b)).
    { destruct colors as [cs|]; simpl in *.
      - destruct (cs !! v) as [c|]; simpl in *; [|discriminate].
        injection Hb as <-. injection Hb' as <-. reflexivity.
      - injection Hb as <-. injection Hb' as <-. reflexivity. }
    rewrite lookup_app_r by lia. rewrite Hpre, Nat.sub_diag. simpl.
    replace (alter (append_value x') v
               (alter remove_first v (pre ++ b :: bs)))
      with ((pre ++ [b']) ++ bs).
    + rewrite (IH rest' (S v) (pre ++ [b']) bs bs' Hbs Hbs' Hlen).
      * rewrite <- app_assoc. reflexivity.
      * rewrite length_app. simpl. lia.
    + rewrite <- app_assoc. simpl. subst v.
      rewrite !alter_app_r_alt by lia. rewrite Nat.sub_diag. simpl.
      rewrite Hbb. reflexivity.
Qed.

Lemma setColors_from_init values : forall colors cs' v pre self,
  init_from colors v values = inr self ->
  length (drop v cs') = length values -> length pre = v ->
  exists self',
    init_from (Some cs') v values = inr self'
    /\ setColors_from v (drop v cs') (pre ++ self) = (pre ++ self', inr ()).
Proof.
  induction values as [|value rest IH]; intros colors cs' v pre self; simpl.
  - intros [= <-] Hlen _. exists []. split; [reflexivity|].
    destruct (drop v cs'); [reflexivity|discriminate].
  - destruct (new_bar_set colors v value) as [e|b] eqn:Hb; simpl;
      [discriminate|].
    destruct (init_from colors (S v) rest) as [e|bs] eqn:Hbs; simpl;
      [discriminate|].
    intros [= <-] Hlen Hpre.
    destruct (cs' !! v) as [c|] eqn:Hc.
    2:{ apply lookup_ge_None in Hc. rewrite drop_ge in Hlen by exact Hc.
        discriminate. }
    rewrite (drop_S _ _ _ Hc) in Hlen |- *. simpl in Hlen.
    injection Hlen as Hlen.
    unfold new_bar_set in Hb |- *.
    destruct (to_double value) as [e|x] eqn:Hx; simpl in Hb |- *;
      [discriminate|].
    assert (Hb' : set_color c b
                  = mkBarSet [x] (Some (default lightGray c))
                             (Some transparent)).
    { destruct colors as [cs|]; simpl in Hb.
      - destruct (cs !! v); simpl in Hb; [|discriminate].
        injection Hb as <-. reflexivity.
      - injection Hb as <-. reflexivity. }
    destruct (IH colors cs' (S v) (pre ++ [set_color c b]) bs Hbs Hlen)
      as (self' & Hinit & Hset).
    { rewrite length_app. simpl. lia. }
    rewrite Hc. simpl. rewrite Hinit. simpl.
    exists (set_color c b :: self'). split; [rewrite Hb'; reflexivity|].
    rewrite lookup_app_r by lia. rewrite Hpre, Nat.sub_diag. simpl.
    replace (alter (set_color c) v (pre ++ b :: bs))
      with ((pre ++ [set_color c b]) ++ bs).
    + rewrite Hset, <- app_assoc. reflexivity.
    + rewrite <- app_assoc. simpl. subst v.
      rewrite alter_app_r_alt by lia. rewrite Nat.sub_diag. reflexivity.
Qed.

(** X26: changing a bar that the constructor built is the same as building
    it anew.  [setValues] with as many values as the bar has bar sets, all
    of which convert to binary64, gives the bar sets that [__init__] gives
    for the new values and the same colours; [setColors] with as many
    colours gives the bar sets that [__init__] gives for the same values
    and the new colours.  Neither raises. *)
Theorem changes_after_init values colors self values' colors' :
  init values colors = inr self ->
  length values' = length values -> length colors' = length values ->
  (forall doubles,
     mapM to_double values' = inr doubles ->
     exists self', init values' colors = inr self'
                   /\ setValues values' self = (self', inr ()))
  /\ (exists self', init values (Some colors') = inr self'
                    /\ setColors colors' self = (self', inr ())).
Proof.
  intros Hinit Hv Hc. split.
  - intros doubles Hd.
    assert (Hex : exists self', init values' colors = inr self');
      [|destruct Hex as [self' Hinit']; exists self'; split; [exact Hinit'|];
        apply (setValues_from_init colors values values' 0 [] self self'
                 Hinit Hinit' Hv); reflexivity].
    unfold init in *.
    rewrite (init_from_converted colors values' doubles 0 Hd).
    destruct colors as [cs|]; [|eexists; reflexivity].
    destruct (decide (length values' <= length (drop 0 cs))%nat) as [|Hn];
      [eexists; reflexivity|].
    exfalso. apply Hn. rewrite Hv. rewrite drop_0.
    (* the constructor accepted [values] with these colours *)
    destruct (decide (length values <= length cs)%nat) as [Hle|Hgt];
      [exact Hle|].
    exfalso. clear Hn Hd.
    assert (Hfail : forall vs v, (length (drop v cs) < length vs)%nat ->
              forall r, init_from (Some cs) v vs = inr r -> False).
    { induction vs as [|z vs IHvs]; intros v Hlt r; [simpl in Hlt; lia|].
      cbn [init_from]. unfold new_bar_set.
      destruct (to_double z); simpl; [discriminate|].
      destruct (cs !! v) as [c|] eqn:Hcv; simpl; [|discriminate].
      destruct (init_from (Some cs) (S v) vs) as [e|r'] eqn:Hr; simpl;
        [discriminate|].
      intros _. apply (IHvs (S v)) with (r := r'); [|exact Hr].
      rewrite (drop_S _ _ _ Hcv) in Hlt. simpl in Hlt. lia. }
    apply (Hfail values 0%nat) with (r := self); [rewrite drop_0; lia|].
    exact Hinit.
  - apply (setColors_from_init values colors colors' 0 [] self Hinit);
      [rewrite drop_0; exact Hc|reflexivity].
Qed.

Lemma changes_after_init_witness :
  let self := [mkBarSet [S754_finite false 6755399441055744 (-51)]
                        (Some (rgb 255)) (Some transparent);
               mkBarSet [S754_finite false 5629499534213120 (-50)]
                        (Some lightGray) (Some transparent)] in
  init [3%Z; 5%Z] (Some [Some (rgb 255); None]) = inr self
  /\ mapM to_double [8%Z; 13%Z]
     = inr [S754_finite false 4503599627370496 (-49);
            S754_finite false 7318349394477056 (-49)]
  /\ (exists self',
        init [8%Z; 13%Z] (Some [Some (rgb 255); None]) = inr self'
        /\ setValues [8%Z; 13%Z] self = (self', inr ()))
  /\ (exists self', init [3%Z; 5%Z] (Some [None; Some (rgb 16)]) = inr self'
                    /\ setColors [None; Some (rgb 16)] self = (self', inr ())).
Proof.
  intros self. split; [vm_compute; reflexivity|].
  split; [vm_compute; reflexivity|].
  destruct (changes_after_init [3%Z; 5%Z] (Some [Some (rgb 255); None]) self
              [8%Z; 13%Z] [None; Some (rgb 16)])
    as [Hvalues Hcolors];
    [vm_compute; reflexivity|reflexivity|reflexivity|].
  split; [|exact Hcolors].
  apply (Hvalues [S754_finite false 4503599627370496 (-49);
                  S754_finite false 7318349394477056 (-49)]).
  vm_compute. reflexivity.
Defined.

End StackedBarFacts.
